(** * SymbolGraphASTWalker: a shallow embedding of
      lib/SymbolGraphGen/SymbolGraphASTWalker.cpp

    The walker visits every declaration of a module, decides which symbol
    graph owns it (the main graph or the graph of an extended module) and
    records nodes and relationships.  The definitions below follow the C++
    source function by function; line numbers in the comments refer to
    SymbolGraphASTWalker.cpp. *)

From stdpp Require Import gmap strings list fin_maps.

Set Warnings "-register-all,-clear-no-such-hyp".
Local Open Scope string_scope.
Local Open Scope list_scope.

(** ** Modules *)

(** A [ModuleDecl *].  The address stands for pointer identity (the walker
    compares module pointers at lines 258 and 280); the other two fields are
    the queries the walker makes. *)
Record ModuleDecl := mkModule {
  ModuleAddr : nat;
  getNameStr : string;
  isNonSwiftModule : bool
}.

(** lines 31-34 *)
Definition areModulesEqual (lhs rhs : ModuleDecl) (ignoreUnderlying : bool) : bool :=
  String.eqb (getNameStr lhs) (getNameStr rhs)
  && (ignoreUnderlying || Bool.eqb (isNonSwiftModule lhs) (isNonSwiftModule rhs)).

(** Pointer comparison [a == b] of two module pointers. *)
Definition sameModulePtr (a b : ModuleDecl) : bool :=
  Nat.eqb (ModuleAddr a) (ModuleAddr b).

(** ** Availability attributes *)

Inductive PlatformKind :=
  | none | iOS | tvOS | watchOS | macOS
  | iOSApplicationExtension | tvOSApplicationExtension
  | watchOSApplicationExtension | macOSApplicationExtension
  | macCatalyst | macCatalystApplicationExtension
  | OpenBSD | Windows.

Inductive AvailableVersionComparison :=
  | Available | PotentiallyUnavailable | Unavailable | Obsoleted.

(** What the walker reads of an [AvailableAttr]: its [Platform] field and the
    answer of [getVersionAvailability] for the AST context of the run. *)
Record AvailableAttr := mkAvailableAttr {
  Platform : PlatformKind;
  getVersionAvailability : AvailableVersionComparison
}.

(** ** Declarations and declaration contexts *)

Definition DeclAddr := nat.

(** The kinds of declaration.  The twelve kinds the walker's switch names
    (lines 126-137) come first; the others take its [default] branch.  An
    extension carries the nominal type it extends: the walker dereferences
    [getExtendedNominal()] without a null test at lines 59, 151, 157 and 166,
    so the type has no null there (the test of line 277 then always
    succeeds). *)
Inductive DeclKind :=
  | Class | Struct | Enum | EnumElement | Protocol | Constructor | Func
  | Var | Subscript | TypeAlias | AssociatedType
  | Extension (ExtendedNominal : Decl)
  | Import | PatternBinding | EnumCase | TopLevelCode | IfConfig
  | PoundDiagnostic | PrecedenceGroup | MissingMember
  | InfixOperator | PrefixOperator | PostfixOperator
  | OpaqueType | GenericTypeParam | Module | Param | Destructor | Accessor
with Decl :=
  | mkDecl (Addr : DeclAddr) (Kind : DeclKind) (ModuleContext : ModuleDecl)
           (UnavailableAttr : option AvailableAttr)
           (Context : option DeclContext)
with DeclContext :=
  (** a context that is itself a declaration (a nominal type, an extension,
      a function, ...): [getAsDecl()] answers it, and its parent context is
      the declaration's own context *)
  | DeclCtx (ParentModule : ModuleDecl) (AsDecl : Decl)
  (** any other context (a file unit, a closure, ...): [getAsDecl()] is null *)
  | NonDeclCtx (ParentModule : ModuleDecl) (Parent : option DeclContext).

Definition getAddr (D : Decl) : DeclAddr := let 'mkDecl a _ _ _ _ := D in a.
Definition getKind (D : Decl) : DeclKind := let 'mkDecl _ k _ _ _ := D in k.
Definition getModuleContext (D : Decl) : ModuleDecl := let 'mkDecl _ _ m _ _ := D in m.
(** [D->getAttrs().getUnavailable(Ctx)]: the attribute that makes [D]
    unavailable, if there is one. *)
Definition getUnavailable (D : Decl) : option AvailableAttr := let 'mkDecl _ _ _ u _ := D in u.
Definition getDeclContext (D : Decl) : option DeclContext := let 'mkDecl _ _ _ _ c := D in c.

Definition getParentModule (DC : DeclContext) : ModuleDecl :=
  match DC with DeclCtx m _ => m | NonDeclCtx m _ => m end.
Definition getAsDecl (DC : DeclContext) : option Decl :=
  match DC with DeclCtx _ d => Some d | NonDeclCtx _ _ => None end.
Definition getParent (DC : DeclContext) : option DeclContext :=
  match DC with DeclCtx _ d => getDeclContext d | NonDeclCtx _ p => p end.

(** [isa<NominalTypeDecl>] *)
Definition isNominalTypeDecl (k : DeclKind) : bool :=
  match k with Class | Struct | Enum | Protocol => true | _ => false end.

(** [isa<ValueDecl>]: every named declaration. *)
Definition isValueDecl (k : DeclKind) : bool :=
  match k with
  | Class | Struct | Enum | Protocol | EnumElement | Constructor | Func
  | Var | Subscript | TypeAlias | AssociatedType
  | OpaqueType | GenericTypeParam | Module | Param | Destructor | Accessor => true
  | _ => false
  end.

(** [dyn_cast<ExtensionDecl>(D)], answering the extended nominal. *)
Definition asExtensionDecl (D : Decl) : option Decl :=
  match getKind D with Extension N => Some N | _ => None end.

(** [dyn_cast_or_null<ProtocolDecl>(N)] *)
Definition asProtocolDecl (N : option Decl) : option Decl :=
  match N with
  | Some d => match getKind d with Protocol => Some d | _ => None end
  | None => None
  end.

(** ** Types and inherited entries *)

(** The shapes of [Type] the walker tells apart: a nominal type
    ([getAnyNominal()] answers its declaration), a protocol composition
    ([getAs<ProtocolCompositionType>()] answers it) and everything else. *)
Inductive Ty :=
  | NominalType (D : Decl)
  | CompositionType (Members : list Ty)
  | OtherType.

(** A [const ProtocolCompositionType *]. *)
Record ProtocolCompositionType := mkComposition { getMembers : list Ty }.

Definition getAnyNominal (T : Ty) : option Decl :=
  match T with NominalType d => Some d | _ => None end.

(** [Ty->getAs<ProtocolCompositionType>()] *)
Definition getAsProtocolCompositionType (T : Ty) : option ProtocolCompositionType :=
  match T with CompositionType ms => Some (mkComposition ms) | _ => None end.

(** An entry of an inheritance clause; [getType()] may be the null type. *)
Record TypeLoc := mkTypeLoc { getType : option Ty }.

(** ** Symbols, edges and graphs *)

(** A [SymbolGraph *] held by the walker: the address of its [MainGraph]
    member, or the graph stored in [ExtendedModuleGraphs] under a module
    name. *)
Inductive GraphRef :=
  | MainGraphRef
  | ExtendedGraphRef (Name : string).

(** [Symbol(Graph, D, SynthesizedBaseTypeDecl)]; declarations are held by
    address. *)
Record Symbol := mkSymbol {
  Graph : GraphRef;
  SymbolDecl : DeclAddr;
  SynthesizedBaseTypeDecl : option DeclAddr
}.

Inductive RelationshipKind := ExtensionTo | ConformsTo.

(** An edge is the triple the spec gives it as identity. *)
Record Edge := mkEdge {
  EdgeKind : RelationshipKind;
  Source : Symbol;
  Target : Symbol
}.

#[global] Instance GraphRef_eq_dec : EqDecision GraphRef.
Proof. solve_decision. Defined.
#[global] Instance Symbol_eq_dec : EqDecision Symbol.
Proof. solve_decision. Defined.
#[global] Instance RelationshipKind_eq_dec : EqDecision RelationshipKind.
Proof. solve_decision. Defined.
#[global] Instance Edge_eq_dec : EqDecision Edge.
Proof. solve_decision. Defined.

Definition GraphRef_enc (g : GraphRef) : option string :=
  match g with MainGraphRef => None | ExtendedGraphRef n => Some n end.
Definition GraphRef_dec (o : option string) : GraphRef :=
  match o with None => MainGraphRef | Some n => ExtendedGraphRef n end.
Lemma GraphRef_dec_enc g : GraphRef_dec (GraphRef_enc g) = g.
Proof. by destruct g. Qed.
#[global] Instance GraphRef_countable : Countable GraphRef :=
  inj_countable' GraphRef_enc GraphRef_dec GraphRef_dec_enc.

Definition Symbol_enc (s : Symbol) : GraphRef * DeclAddr * option DeclAddr :=
  (Graph s, SymbolDecl s, SynthesizedBaseTypeDecl s).
Definition Symbol_dec (t : GraphRef * DeclAddr * option DeclAddr) : Symbol :=
  let '(g, d, b) := t in mkSymbol g d b.
Lemma Symbol_dec_enc s : Symbol_dec (Symbol_enc s) = s.
Proof. by destruct s. Qed.
#[global] Instance Symbol_countable : Countable Symbol :=
  inj_countable' Symbol_enc Symbol_dec Symbol_dec_enc.

Definition RelationshipKind_enc (k : RelationshipKind) : bool :=
  match k with ExtensionTo => false | ConformsTo => true end.
Definition RelationshipKind_dec (b : bool) : RelationshipKind :=
  if b then ConformsTo else ExtensionTo.
Lemma RelationshipKind_dec_enc k : RelationshipKind_dec (RelationshipKind_enc k) = k.
Proof. by destruct k. Qed.
#[global] Instance RelationshipKind_countable : Countable RelationshipKind :=
  inj_countable' RelationshipKind_enc RelationshipKind_dec RelationshipKind_dec_enc.

Definition Edge_enc (e : Edge) : RelationshipKind * Symbol * Symbol :=
  (EdgeKind e, Source e, Target e).
Definition Edge_dec (t : RelationshipKind * Symbol * Symbol) : Edge :=
  let '(k, s, t) := t in mkEdge k s t.
Lemma Edge_dec_enc e : Edge_dec (Edge_enc e) = e.
Proof. by destruct e. Qed.
#[global] Instance Edge_countable : Countable Edge :=
  inj_countable' Edge_enc Edge_dec Edge_dec_enc.

(** The parts of a [SymbolGraph] the walker reads or writes.  [SymbolGraph_M]
    is the member [M]. *)
Record SymbolGraph := mkSymbolGraph {
  SymbolGraph_M : ModuleDecl;
  ExtendedModule : option ModuleDecl;
  DeclaringModule : option ModuleDecl;
  Nodes : gset Symbol;
  Edges : gset Edge;
  SynthesizedMemberRequests : list Symbol
}.

(** Modelled from the spec: the constructor of [SymbolGraph] (SymbolGraph.cpp
    is not part of these sources).  A graph is bound to one module at its
    creation and starts with no node and no edge; the declaring module of a
    cross-import overlay is configuration of the module under inspection. *)
Definition newSymbolGraph (M : ModuleDecl) (ExtendedModule : option ModuleDecl)
    (DeclaringModule : option ModuleDecl) : SymbolGraph :=
  mkSymbolGraph M ExtendedModule DeclaringModule ∅ ∅ [].

(** Modelled from the spec: [SymbolGraph::recordNode] (SymbolGraph.cpp is not
    part of these sources).  The node set holds symbols deduplicated by
    identity. *)
Definition recordNode (S : Symbol) (G : SymbolGraph) : SymbolGraph :=
  mkSymbolGraph (SymbolGraph_M G) (ExtendedModule G) (DeclaringModule G)
                ({[S]} ∪ Nodes G) (Edges G) (SynthesizedMemberRequests G).

(** Modelled from the spec: [SymbolGraph::recordEdge] (SymbolGraph.cpp is not
    part of these sources).  Recording is idempotent on the triple (source,
    target, kind); the conformance extension passed at line 253 is not part
    of an edge's identity. *)
Definition recordEdge (Src Tgt : Symbol) (Kind : RelationshipKind)
    (ConformanceExtension : option DeclAddr) (G : SymbolGraph) : SymbolGraph :=
  mkSymbolGraph (SymbolGraph_M G) (ExtendedModule G) (DeclaringModule G)
                (Nodes G) ({[mkEdge Kind Src Tgt]} ∪ Edges G)
                (SynthesizedMemberRequests G).

(** Modelled from the spec:
    [SymbolGraph::recordConformanceSynthesizedMemberRelationships]
    (SymbolGraph.cpp is not part of these sources).  The walker only asks the
    graph to record them for a symbol; the request is kept, what the sink
    makes of it is outside this file. *)
Definition recordConformanceSynthesizedMemberRelationships (S : Symbol)
    (G : SymbolGraph) : SymbolGraph :=
  mkSymbolGraph (SymbolGraph_M G) (ExtendedModule G) (DeclaringModule G)
                (Nodes G) (Edges G) (SynthesizedMemberRequests G ++ [S]).

(** The walker's mutable members. *)
Record Walker := mkWalker {
  MainGraph : SymbolGraph;
  ExtendedModuleGraphs : gmap string SymbolGraph
}.

Definition lookupGraph (W : Walker) (G : GraphRef) : option SymbolGraph :=
  match G with
  | MainGraphRef => Some (MainGraph W)
  | ExtendedGraphRef n => ExtendedModuleGraphs W !! n
  end.

(** Calling a method that changes the graph behind a pointer. *)
Definition updateGraph (G : GraphRef) (f : SymbolGraph -> SymbolGraph)
    (W : Walker) : Walker :=
  match G with
  | MainGraphRef => mkWalker (f (MainGraph W)) (ExtendedModuleGraphs W)
  | ExtendedGraphRef n => mkWalker (MainGraph W) (alter f n (ExtendedModuleGraphs W))
  end.

(** The nodes and edges a graph pointer leads to; a graph that has not been
    created yet has none. *)
Definition nodesOf (W : Walker) (G : GraphRef) : gset Symbol :=
  match lookupGraph W G with Some SG => Nodes SG | None => ∅ end.

Definition edgesOf (W : Walker) (G : GraphRef) : gset Edge :=
  match lookupGraph W G with Some SG => Edges SG | None => ∅ end.

(** ** Results of a run *)

(** A call returns, or reaches [abort()] (line 214), or the model's bound on
    the iterations of the expansion loop was too small. *)
Inductive Outcome (A : Type) :=
  | Returned (a : A)
  | Aborted
  | OutOfFuel.
Arguments Returned {A} a.
Arguments Aborted {A}.
Arguments OutOfFuel {A}.

(** [SmallVector::pop_back_val]: the last element and the vector without it. *)
Definition pop_back_val {A} (l : list A) : option (A * list A) :=
  match rev l with
  | [] => None
  | x :: r => Some (x, rev r)
  end.

Record SymbolGraphOptions := mkOptions { EmitExtensionBlockSymbols : bool }.

(** ** A sample module

    The module [Local] under inspection extends the struct [T] of the module
    [Foreign] with the conformances [A & B], where the protocol [B] inherits
    [C]; it re-exports the module [Vendored].  The closed examples at the end
    of the file are run on these declarations. *)

Module Sample.

Definition LocalModule : ModuleDecl := mkModule 1 "Local" false.
Definition ForeignModule : ModuleDecl := mkModule 2 "Foreign" false.
Definition VendoredModule : ModuleDecl := mkModule 3 "Vendored" false.

(** The context of a top-level declaration: a file unit whose parent is the
    module. *)
Definition fileUnit (m : ModuleDecl) (a : DeclAddr) : DeclContext :=
  NonDeclCtx m (Some (DeclCtx m (mkDecl a Module m None None))).

Definition LocalFile : DeclContext := fileUnit LocalModule 101.
Definition ForeignFile : DeclContext := fileUnit ForeignModule 102.
Definition VendoredFile : DeclContext := fileUnit VendoredModule 103.

(** [struct T] of [Foreign] *)
Definition T : Decl := mkDecl 10 Struct ForeignModule None (Some ForeignFile).

(** [protocol A], [protocol B : C], [protocol C] of [Local] *)
Definition A : Decl := mkDecl 11 Protocol LocalModule None (Some LocalFile).
Definition B : Decl := mkDecl 12 Protocol LocalModule None (Some LocalFile).
Definition C : Decl := mkDecl 13 Protocol LocalModule None (Some LocalFile).

(** [extension T : A & B] in [Local] *)
Definition Ext : Decl := mkDecl 20 (Extension T) LocalModule None (Some LocalFile).

(** [extension T : T] in [Local]: a clause the front end rejects *)
Definition BadExt : Decl := mkDecl 21 (Extension T) LocalModule None (Some LocalFile).

(** [struct Old], marked unavailable on macOS, with a member *)
Definition Old : Decl :=
  mkDecl 30 Struct LocalModule (Some (mkAvailableAttr macOS Unavailable)) (Some LocalFile).

(** [struct Never], marked unavailable without naming a platform *)
Definition Never : Decl :=
  mkDecl 32 Struct LocalModule (Some (mkAvailableAttr none Unavailable)) (Some LocalFile).

(** [struct Imported] of [Vendored] *)
Definition Imported : Decl := mkDecl 40 Struct VendoredModule None (Some VendoredFile).

(** [struct U] of a fourth module [Other], and a function that [Vendored]
    adds to it in an extension *)
Definition OtherModule : ModuleDecl := mkModule 4 "Other" false.
Definition U : Decl := mkDecl 41 Struct OtherModule None (Some (fileUnit OtherModule 104)).
Definition VendoredExt : Decl :=
  mkDecl 42 (Extension U) VendoredModule None (Some VendoredFile).
Definition VendoredMember : Decl :=
  mkDecl 43 Func VendoredModule None (Some (DeclCtx VendoredModule VendoredExt)).

Definition getInherited (D : Decl) : list TypeLoc :=
  if Nat.eqb (getAddr D) 20 then
    [mkTypeLoc (Some (CompositionType [NominalType A; NominalType B]))]
  else if Nat.eqb (getAddr D) 12 then [mkTypeLoc (Some (NominalType C))]
  else [].

(** The clauses with the rejected extension added. *)
Definition getInheritedBad (D : Decl) : list TypeLoc :=
  if Nat.eqb (getAddr D) 21 then [mkTypeLoc (Some (NominalType T))]
  else getInherited D.

(** The clauses with a null entry in front of each. *)
Definition getInheritedNull (D : Decl) : list TypeLoc :=
  match getInherited D with
  | [] => []
  | Inherited => mkTypeLoc None :: Inherited
  end.

(** [protocol Loop : Loop], which the front end rejects. *)
Definition Loop : Decl := mkDecl 60 Protocol LocalModule None (Some LocalFile).
Definition getInheritedCyclic (D : Decl) : list TypeLoc :=
  if Nat.eqb (getAddr D) 60 then [mkTypeLoc (Some (NominalType Loop))] else [].

(** Every edge of [getInherited] between protocols lowers this rank. *)
Definition rank (D : Decl) : nat :=
  if Nat.eqb (getAddr D) 20 then 2
  else if Nat.eqb (getAddr D) 12 then 1
  else 0.

Definition Options : SymbolGraphOptions := mkOptions true.
Definition ExportedImportedModules : list ModuleDecl := [VendoredModule].
Definition QualifiedExportedImports : list (ModuleDecl * gset DeclAddr) := [].
Definition isImplicitlyPrivate (SG : SymbolGraph) (D : Decl) : bool := false.
Definition canIncludeDeclAsNode (SG : SymbolGraph) (D : Decl) : bool := true.

(** A C module that bears the name of [Foreign], with a struct of its own. *)
Definition ClangForeignModule : ModuleDecl := mkModule 5 "Foreign" true.
Definition ClangT : Decl :=
  mkDecl 50 Struct ClangForeignModule None (Some (fileUnit ClangForeignModule 105)).

(** [func member()] written in the extension [Ext] of [T] *)
Definition ExtMember : Decl :=
  mkDecl 22 Func LocalModule None (Some (DeclCtx LocalModule Ext)).

(** The configuration with extension block symbols turned off, and the one
    in which [Local] re-exports [T] of [Foreign] by name. *)
Definition OptionsOff : SymbolGraphOptions := mkOptions false.
Definition QualifiedT : list (ModuleDecl * gset DeclAddr) := [(ForeignModule, {[10]})].

(** The walker as its constructor leaves it. *)
Definition Walker0 : Walker := mkWalker (newSymbolGraph LocalModule None None) ∅.

End Sample.

(** * DataflowDiagnostics.cpp

    The pass [EmitDFDiagnostics] reads a lowered function and emits
    diagnostics through the diagnostic engine of the AST context.  The SIL
    and AST classes it queries are represented by the answers they give to
    the queries the pass makes; what the pass emits is the sequence of its
    calls to the engine.  [assert], [cast] and [llvm_unreachable] are taken
    as in a build with assertions, a member call through a null pointer as
    the end of the run: each stops the pass with a [Fault]. *)

Module DataflowDiagnostics.

(** ** What the pass reads *)

Definition SourceLoc := nat.

(** A [Type], by the identity of its canonical type: [isEqual] compares
    these. *)
Definition ASTType := nat.
Definition DescriptiveDeclKind := nat.

(** An [Expr], with [getStartLoc()] and [getType()->getRValueType()]. *)
Record Expr := mkExpr {
  getStartLoc : SourceLoc;
  getRValueType : ASTType }.

(** An element of a brace statement, an [ASTNode]: an expression, a
    statement or a declaration. *)
Inductive BraceElement :=
  | ExprElement (expr : Expr)
  | StmtElement
  | DeclElement.

(** A [BraceStmt], by its elements. *)
Definition BraceStmt := list BraceElement.

Record FuncDecl := mkFuncDecl {
  FuncDecl_getResultInterfaceType : option ASTType;
  FuncDecl_getBody : option BraceStmt;
  FuncDecl_getDescriptiveKind : DescriptiveDeclKind }.

Record ConstructorDecl := mkConstructorDecl {
  ConstructorDecl_getResultInterfaceType : option ASTType;
  ConstructorDecl_getDescriptiveKind : DescriptiveDeclKind }.

Record ClosureExpr := mkClosureExpr {
  getResultType : option ASTType;
  ClosureExpr_getBody : option BraceStmt }.

(** A [GuardStmt], with [getBody()->getEndLoc()]. *)
Record GuardStmt := mkGuardStmt { getBodyEndLoc : SourceLoc }.

(** The primary AST node of a location.  [FuncDecl], [ConstructorDecl] and
    [DestructorDecl] are the classes of [AbstractFunctionDecl]. *)
Inductive LocNode :=
  | FuncDeclNode (FD : FuncDecl)
  | ConstructorDeclNode (CD : ConstructorDecl)
  | DestructorDeclNode (kind : DescriptiveDeclKind)
  | ClosureExprNode (CE : ClosureExpr)
  | GuardStmtNode (Guard : GuardStmt)
  | OtherNode.

Record SILLocation := mkSILLocation {
  isNull : bool;
  isMandatoryInlinedLocation : bool;
  getPrimaryASTNode : LocNode;
  getSourceLoc : SourceLoc;
  getEndSourceLoc : SourceLoc }.

Definition isAbstractFunctionDecl (n : LocNode) : bool :=
  match n with
  | FuncDeclNode _ | ConstructorDeclNode _ | DestructorDeclNode _ => true
  | _ => false
  end.

Definition isClosureExpr (n : LocNode) : bool :=
  match n with ClosureExprNode _ => true | _ => false end.

(** [getAsDeclContext()] followed by [getAsDecl()], as far as the pass looks
    at the answer: the descriptive kind of the declaration, when the node is
    one. *)
Definition getAsDeclContextDecl (n : LocNode) : option DescriptiveDeclKind :=
  match n with
  | FuncDeclNode FD => Some (FuncDecl_getDescriptiveKind FD)
  | ConstructorDeclNode CD => Some (ConstructorDecl_getDescriptiveKind CD)
  | DestructorDeclNode kind => Some kind
  | _ => None
  end.

Record SILType := mkSILType {
  isBuiltinType : bool;
  isTrivial : bool;
  getASTType : ASTType }.

(** What [dyn_cast] and [cast] find behind an operand. *)
Inductive ValueDef :=
  | IntegerLiteralInst (getValue : Z)
  | StringLiteralInst (getValue : string)
  | OtherValue.

(** An operand: what defines it, its type, and the source location of its
    defining instruction when it has one. *)
Record SILValue := mkSILValue {
  getDef : ValueDef;
  getType : SILType;
  getDefiningInstructionLoc : option SourceLoc }.

Inductive BuiltinValueKind :=
  | NoBuiltin
  | StaticReport
  | PoundAssert
  | OtherBuiltin (id : nat).

#[global] Instance BuiltinValueKind_eq_dec : EqDecision BuiltinValueKind.
Proof. solve_decision. Defined.

Record PolymorphicBuiltinSpecializedOverloadInfo := mkOverloadInfo {
  doesOverloadExist : bool;
  staticOverloadIdentifier : string;
  argTypesFront : ASTType }.

(** A [BuiltinInst]: the id of [getBuiltinInfo()], the answer of
    [getBuiltinKind()], its operands, and the overload information that
    [PolymorphicBuiltinSpecializedOverloadInfo::init] computes for it, if it
    can. *)
Record BuiltinInst := mkBuiltinInst {
  getBuiltinInfoID : BuiltinValueKind;
  getBuiltinKind : option BuiltinValueKind;
  getArguments : list SILValue;
  overloadInfoInit : option PolymorphicBuiltinSpecializedOverloadInfo }.

Inductive InstKind :=
  | UnreachableInst
  | Builtin (BI : BuiltinInst)
  | OtherInst.

Record SILInstruction := mkSILInstruction {
  instKind : InstKind;
  getLoc : SILLocation }.

(** A [SILFunction]; the instructions of a block know it as
    [getFunction()] and [getParent()->getParent()]. *)
Record SILFunction := mkSILFunction {
  wasDeserializedCanonical : bool;
  isTransparent : bool;
  isNoReturnFunction : bool;
  getLocation : SILLocation;
  getBlocks : list (list SILInstruction) }.

Inductive SymbolicValueKind := Unknown | Integer | OtherKind.

(** A [SymbolicValue], with the unsigned value and the bit width of
    [getIntegerValue()]. *)
Record SymbolicValue := mkSymbolicValue {
  isConstant : bool;
  SymbolicValue_getKind : SymbolicValueKind;
  getIntegerValue : Z;
  getBitWidth : nat }.

(** ** What the pass emits *)

Inductive DiagID :=
  | missing_return_closure
  | missing_return_decl
  | missing_return_last_expr_note
  | missing_never_call_closure
  | missing_never_call_decl
  | guard_body_must_not_fallthrough
  | static_report_error
  | pound_assert_condition_not_constant
  | pound_assert_failure
  | polymorphic_builtin_passed_non_trivial_non_builtin_type
  | polymorphic_builtin_passed_type_without_static_overload.

#[global] Instance DiagID_eq_dec : EqDecision DiagID.
Proof. solve_decision. Defined.

Inductive DiagArg :=
  | TypeArg (T : ASTType)
  | KindArg (kind : DescriptiveDeclKind)
  | StringArg (s : string).

Record Diagnostic := mkDiagnostic {
  diagLoc : SourceLoc;
  diagID : DiagID;
  diagArgs : list DiagArg;
  fixIts : list (SourceLoc * string) }.

(** One call from the pass to the outside: a diagnostic handed to the
    engine, or the notes [SymbolicValue::emitUnknownDiagnosticNotes] is asked
    to emit. *)
Inductive Event :=
  | Diagnose (d : Diagnostic)
  | EmitUnknownDiagnosticNotes (value : SymbolicValue) (loc : SILLocation).

Inductive Fault :=
  | NullDereference
  | AssertionFailed
  | CastFailed
  | IndexOutOfRange
  | LLVMUnreachable.

(** What running a piece of the pass does: the events in the order they are
    emitted and, when it stops early, the fault that stopped it. *)
Definition Effect : Type := list Event * option Fault.

Definition nothing : Effect := ([], None).
Definition fault (f : Fault) : Effect := ([], Some f).
Definition emit (e : Event) : Effect := ([e], None).

(** [a] and then [b], unless [a] stops. *)
Definition andThen (a b : Effect) : Effect :=
  match a.2 with
  | Some f => a
  | None => (a.1 ++ b.1, b.2)
  end.

Infix ">>" := andThen (at level 61, left associativity).

(** The body of a range-based [for]. *)
Fixpoint forEach {A} (l : list A) (body : A -> Effect) : Effect :=
  match l with
  | [] => nothing
  | x :: r => body x >> forEach r body
  end.

(** lines 32-37, and the engine's own [diagnose] *)
Definition diagnose (loc : SourceLoc) (diag : DiagID) (args : list DiagArg) : Effect :=
  emit (Diagnose (mkDiagnostic loc diag args [])).

(** ** The pass *)

Section Pass.

(** [isPolymorphicBuiltin] and [getBuiltinName] of the builtins table, and
    the value [ConstExprEvaluator::computeConstantValues] computes for an
    operand. *)
Variable isPolymorphicBuiltin : BuiltinValueKind -> bool.
Variable getBuiltinName : BuiltinValueKind -> string.
Variable computeConstantValues : SILValue -> SymbolicValue.

(** lines 48-59.  In the branch of a [ConstructorDecl] the body is asked of
    [FD], the pointer the first test has just found null. *)
Definition resultTypeAndBody (FLoc : SILLocation)
    : Fault + (option ASTType * option BraceStmt) :=
  match getPrimaryASTNode FLoc with
  | FuncDeclNode FD =>
      inr (FuncDecl_getResultInterfaceType FD, FuncDecl_getBody FD)
  | ConstructorDeclNode CD => inl NullDereference
  | ClosureExprNode CE => inr (getResultType CE, ClosureExpr_getBody CE)
  | _ => inl LLVMUnreachable
  end.

(** lines 63-66: the last element of the body, when it is an expression of
    the result type. *)
Definition lastExprOfType (BS : BraceStmt) (ResTy : ASTType) : option Expr :=
  match last BS with
  | Some (ExprElement expr) =>
      if Nat.eqb (getRValueType expr) ResTy then Some expr else None
  | _ => None
  end.

(** lines 39-98 *)
Definition diagnoseMissingReturn (F : SILFunction) (UI : SILInstruction) : Effect :=
  let FLoc := getLocation F in
  match resultTypeAndBody FLoc with
  | inl f => fault f
  | inr (ResTy, BS) =>
      let L := getLoc UI in
      match (if isNull L then None else ResTy) with
      | None => fault AssertionFailed
      | Some ResTy =>
          match BS with
          | None => fault NullDereference
          | Some BS =>
              match lastExprOfType BS ResTy with
              | Some expr =>
                  (if isClosureExpr (getPrimaryASTNode FLoc) then
                     diagnose (getStartLoc expr) missing_return_closure [TypeArg ResTy]
                   else
                     match getAsDeclContextDecl (getPrimaryASTNode FLoc) with
                     | None => fault AssertionFailed
                     | Some kind =>
                         diagnose (getStartLoc expr) missing_return_decl
                                  [TypeArg ResTy; KindArg kind]
                     end)
                  >> emit (Diagnose (mkDiagnostic (getStartLoc expr)
                                       missing_return_last_expr_note []
                                       [(getStartLoc expr, "return ")]))
              | None =>
                  let isNoReturnFn := isNoReturnFunction F in
                  if isClosureExpr (getPrimaryASTNode FLoc) then
                    diagnose (getEndSourceLoc L)
                             (if isNoReturnFn then missing_never_call_closure
                              else missing_return_closure)
                             [TypeArg ResTy]
                  else
                    match getAsDeclContextDecl (getPrimaryASTNode FLoc) with
                    | None => fault AssertionFailed
                    | Some kind =>
                        diagnose (getEndSourceLoc L)
                                 (if isNoReturnFn then missing_never_call_decl
                                  else missing_return_decl)
                                 [TypeArg ResTy; KindArg kind]
                    end
              end
          end
      end
  end.

(** lines 100-130 *)
Definition diagnoseUnreachable (F : SILFunction) (I : SILInstruction) : Effect :=
  match instKind I with
  | UnreachableInst =>
      let L := getLoc I in
      if isNull L || isMandatoryInlinedLocation L then nothing
      else if isAbstractFunctionDecl (getPrimaryASTNode L)
              || isClosureExpr (getPrimaryASTNode L)
      then diagnoseMissingReturn F I
      else
        match getPrimaryASTNode L with
        | GuardStmtNode Guard =>
            diagnose (getBodyEndLoc Guard) guard_body_must_not_fallthrough []
        | _ => nothing
        end
  | _ => nothing
  end.

(** lines 133-151 *)
Definition diagnoseStaticReports (I : SILInstruction) : Effect :=
  match instKind I with
  | Builtin BI =>
      if decide (getBuiltinInfoID BI = StaticReport) then
        match getArguments BI with
        | [] => fault IndexOutOfRange
        | V :: _ =>
            match getDef V with
            | IntegerLiteralInst v =>
                if Z.eqb v 1 then
                  diagnose (getSourceLoc (getLoc I)) static_report_error []
                else nothing
            | _ => nothing
            end
        end
      else nothing
  | _ => nothing
  end.

(** lines 155-192 *)
Definition diagnosePoundAssert (I : SILInstruction) : Effect :=
  match instKind I with
  | Builtin builtinInst =>
      if decide (getBuiltinKind builtinInst = Some PoundAssert) then
        match getArguments builtinInst with
        | [] => fault IndexOutOfRange
        | condition :: rest =>
            let value := computeConstantValues condition in
            if negb (isConstant value) then
              diagnose (getSourceLoc (getLoc I)) pound_assert_condition_not_constant []
              >> match SymbolicValue_getKind value with
                 | Unknown => emit (EmitUnknownDiagnosticNotes value (getLoc I))
                 | _ => nothing
                 end
            else
              match SymbolicValue_getKind value with
              | Integer =>
                  if negb (Nat.eqb (getBitWidth value) 1) then fault AssertionFailed
                  else if Z.eqb (getIntegerValue value) 0 then
                    match rest with
                    | [] => fault IndexOutOfRange
                    | message :: _ =>
                        match getDef message with
                        | StringLiteralInst messageValue =>
                            diagnose (getSourceLoc (getLoc I)) pound_assert_failure
                              [StringArg (if String.eqb messageValue EmptyString
                                          then "assertion failed"
                                          else messageValue)]
                        | _ => fault CastFailed
                        end
                    end
                  else nothing
              | _ => fault AssertionFailed
              end
        end
      else nothing
  | _ => nothing
  end.

(** lines 214-229: the first operand that is not of a trivial builtin type,
    with the location its diagnostic is given. *)
Fixpoint firstUnacceptableOperand (biLoc : SourceLoc) (values : list SILValue)
    : option (SourceLoc * SILType) :=
  match values with
  | [] => None
  | value :: rest =>
      let type := getType value in
      let loc :=
        match getDefiningInstructionLoc value with
        | Some instLoc => instLoc
        | None => biLoc
        end in
      if negb (isBuiltinType type) || negb (isTrivial type) then Some (loc, type)
      else firstUnacceptableOperand biLoc rest
  end.

(** lines 194-253 *)
Definition diagnoseUnspecializedPolymorphicBuiltins (F : SILFunction)
    (inst : SILInstruction) : Effect :=
  if isTransparent F then nothing
  else
    match instKind inst with
    | Builtin bi =>
        match getBuiltinKind bi with
        | None => nothing
        | Some kind =>
            if negb (isPolymorphicBuiltin kind) then nothing
            else
              match firstUnacceptableOperand (getSourceLoc (getLoc inst))
                                             (getArguments bi) with
              | Some (loc, type) =>
                  diagnose loc polymorphic_builtin_passed_non_trivial_non_builtin_type
                           [TypeArg (getASTType type)]
              | None =>
                  match overloadInfoInit bi with
                  | None => fault AssertionFailed
                  | Some overloadInfo =>
                      if negb (doesOverloadExist overloadInfo) then
                        diagnose (getSourceLoc (getLoc inst))
                          polymorphic_builtin_passed_type_without_static_overload
                          [StringArg (staticOverloadIdentifier overloadInfo);
                           StringArg (getBuiltinName (getBuiltinInfoID bi));
                           TypeArg (argTypesFront overloadInfo)]
                      else fault LLVMUnreachable
                  end
              end
        end
    | _ => nothing
    end.

(** lines 260-282; [StaticAssert] is the answer of
    [LangOpts.hasFeature(Feature::StaticAssert)]. *)
Definition run (StaticAssert : bool) (F : SILFunction) : Effect :=
  if wasDeserializedCanonical F then nothing
  else
    forEach (getBlocks F) (fun BB =>
      forEach BB (fun I =>
        diagnoseUnreachable F I
        >> diagnoseStaticReports I
        >> diagnoseUnspecializedPolymorphicBuiltins F I))
    >> (if StaticAssert then
          forEach (getBlocks F) (fun BB => forEach BB diagnosePoundAssert)
        else nothing).

End Pass.

(** ** What the events are about *)

Definition isMissingReturnDiag (d : DiagID) : bool :=
  match d with
  | missing_return_closure | missing_return_decl | missing_return_last_expr_note
  | missing_never_call_closure | missing_never_call_decl => true
  | _ => false
  end.

Definition isPolymorphicBuiltinDiag (d : DiagID) : bool :=
  match d with
  | polymorphic_builtin_passed_non_trivial_non_builtin_type
  | polymorphic_builtin_passed_type_without_static_overload => true
  | _ => false
  end.

Definition isPolymorphicBuiltinEvent (e : Event) : bool :=
  match e with
  | Diagnose d => isPolymorphicBuiltinDiag (diagID d)
  | _ => false
  end.

(** The events of the [#assert] loop: its two diagnostics and the notes it
    asks for. *)
Definition isPoundAssertEvent (e : Event) : bool :=
  match e with
  | Diagnose d =>
      match diagID d with
      | pound_assert_condition_not_constant | pound_assert_failure => true
      | _ => false
      end
  | EmitUnknownDiagnosticNotes _ _ => true
  end.

Definition isStaticReportEvent (e : Event) : bool :=
  match e with
  | Diagnose d => bool_decide (diagID d = static_report_error)
  | _ => false
  end.

(** The instructions [diagnoseStaticReports] reports: a [StaticReport]
    builtin whose first argument is the integer literal 1. *)
Definition isFoldedStaticReport (I : SILInstruction) : bool :=
  match instKind I with
  | Builtin BI =>
      bool_decide (getBuiltinInfoID BI = StaticReport)
      && match getArguments BI with
         | V :: _ => match getDef V with
                     | IntegerLiteralInst v => Z.eqb v 1
                     | _ => false
                     end
         | [] => false
         end
  | _ => false
  end.

(** An instruction that is not a builtin and, if it is an unreachable, has a
    null or a mandatory-inlined location. *)
Definition isQuiet (I : SILInstruction) : bool :=
  match instKind I with
  | UnreachableInst => isNull (getLoc I) || isMandatoryInlinedLocation (getLoc I)
  | Builtin _ => false
  | OtherInst => true
  end.

(** A builtin instruction of a polymorphic kind. *)
Definition isPolymorphicBuiltinInst (isPolymorphicBuiltin : BuiltinValueKind -> bool)
    (I : SILInstruction) : bool :=
  match instKind I with
  | Builtin BI =>
      match getBuiltinKind BI with
      | Some kind => isPolymorphicBuiltin kind
      | None => false
      end
  | _ => false
  end.

End DataflowDiagnostics.

(** ** A sample function

    [func f() -> Int] whose body ends in an expression of type [Int] and
    falls off its end, after a folded static report, a failed [#assert]
    without message and a polymorphic builtin applied to a value that is not
    of a builtin type; and an initializer that falls off its end. *)

Module DiagnosticsSample.
Import DataflowDiagnostics.

(** The builtin 1 is the one polymorphic builtin. *)
Definition isPolymorphicBuiltin (kind : BuiltinValueKind) : bool :=
  match kind with OtherBuiltin 1 => true | _ => false end.

Definition getBuiltinName (kind : BuiltinValueKind) : string :=
  match kind with
  | OtherBuiltin 1 => "generic_add"
  | StaticReport => "staticReport"
  | PoundAssert => "poundAssert"
  | _ => "builtin"
  end.

(** Integer literals are constants of one bit; nothing else is known. *)
Definition computeConstantValues (value : SILValue) : SymbolicValue :=
  match getDef value with
  | IntegerLiteralInst v => mkSymbolicValue true Integer v 1
  | _ => mkSymbolicValue false Unknown 0 0
  end.

Definition Int : ASTType := 7.
Definition BuiltinInt1 : SILType := mkSILType true true 1.
Definition literal (v : Z) : SILValue :=
  mkSILValue (IntegerLiteralInst v) BuiltinInt1 (Some 11).
Definition text (s : string) : SILValue :=
  mkSILValue (StringLiteralInst s) (mkSILType true true 2) (Some 12).
Definition classRef : SILValue :=
  mkSILValue OtherValue (mkSILType false false 9) None.

Definition at_ (loc : SourceLoc) : SILLocation := mkSILLocation false false OtherNode loc loc.

Definition f : FuncDecl :=
  mkFuncDecl (Some Int) (Some [DeclElement; ExprElement (mkExpr 31 Int)]) 5.
Definition fLoc : SILLocation := mkSILLocation false false (FuncDeclNode f) 10 40.

Definition report : SILInstruction :=
  mkSILInstruction
    (Builtin (mkBuiltinInst StaticReport (Some StaticReport)
                [literal 1; literal 0; text "report"] None))
    (at_ 20).
Definition assertion : SILInstruction :=
  mkSILInstruction
    (Builtin (mkBuiltinInst PoundAssert (Some PoundAssert)
                [literal 0; text EmptyString] None))
    (at_ 21).
Definition add : SILInstruction :=
  mkSILInstruction
    (Builtin (mkBuiltinInst (OtherBuiltin 1) (Some (OtherBuiltin 1))
                [classRef; classRef] None))
    (at_ 22).
Definition fallOff : SILInstruction := mkSILInstruction UnreachableInst fLoc.

Definition F : SILFunction :=
  mkSILFunction false false false fLoc
    [[mkSILInstruction OtherInst (at_ 19); report; assertion]; [add; fallOff]].

(** [init()] of some type, falling off its end. *)
Definition initLoc : SILLocation :=
  mkSILLocation false false (ConstructorDeclNode (mkConstructorDecl (Some Int) 6)) 50 60.
Definition initFallOff : SILInstruction := mkSILInstruction UnreachableInst initLoc.
Definition Init : SILFunction :=
  mkSILFunction false false false initLoc [[initFallOff]].

(** A function with an unreachable that a pass has generated and one that
    was inlined from a transparent callee. *)
Definition Generated : SILFunction :=
  mkSILFunction false false false fLoc
    [[mkSILInstruction OtherInst (at_ 70);
      mkSILInstruction UnreachableInst (mkSILLocation true false (FuncDeclNode f) 0 0)];
     [mkSILInstruction UnreachableInst (mkSILLocation false true (FuncDeclNode f) 71 72)]].

End DiagnosticsSample.

(** * SymbolGraphASTWalker.cpp, continued *)

(** ** The walker *)

Section SymbolGraphASTWalker.

(** The members set by the constructor (lines 38-46) and never written
    again. *)
Variable Options : SymbolGraphOptions.
Variable M : ModuleDecl.
Variable ExportedImportedModules : list ModuleDecl.
Variable QualifiedExportedImports : list (ModuleDecl * gset DeclAddr).

(** Queries answered by the AST and by the graphs' visibility policy. *)
Variable getInherited : Decl -> list TypeLoc.
Variable isImplicitlyPrivate : SymbolGraph -> Decl -> bool.
Variable canIncludeDeclAsNode : SymbolGraph -> Decl -> bool.

(** The constructor: the main graph is bound to [M]. *)
Definition newWalker (DeclaringModuleOfM : option ModuleDecl) : Walker :=
  mkWalker (newSymbolGraph M None DeclaringModuleOfM) ∅.

(** *** Re-export predicates (lines 293-342) *)

(** lines 338-342.  [MD->getModuleContext()] of a module is the module
    itself. *)
Definition isExportedImportedModule (M' : ModuleDecl) : bool :=
  existsb (fun MD => areModulesEqual M' MD false) ExportedImportedModules.

(** lines 332-336 *)
Definition isQualifiedExportedImport (D : Decl) : bool :=
  existsb (fun QI => bool_decide (getAddr D ∈ QI.2)) QualifiedExportedImports.

(** lines 327-330 *)
Definition isFromExportedImportedModule (D : Decl) : bool :=
  let M' := getModuleContext D in
  isQualifiedExportedImport D || isExportedImportedModule M'.

(** The loop of lines 311-317: the nominal extended by the nearest
    enclosing extension. *)
Fixpoint findExtendedNominal (DC : DeclContext) : option Decl :=
  match DC with
  | DeclCtx _ (mkDecl _ (Extension ExtendedNominal) _ _ _) => Some ExtendedNominal
  | DeclCtx _ (mkDecl _ _ _ _ (Some Parent)) => findExtendedNominal Parent
  | DeclCtx _ (mkDecl _ _ _ _ None) => None
  | NonDeclCtx _ (Some Parent) => findExtendedNominal Parent
  | NonDeclCtx _ None => None
  end.

(** lines 293-325 *)
Definition isConsideredExportedImported (D : Decl) : bool :=
  if isFromExportedImportedModule D then true
  else
    let DC := getDeclContext D in
    if match DC with
       | Some DC' =>
           match getAsDecl DC' with
           | Some VD => isValueDecl (getKind VD) && isFromExportedImportedModule VD
           | None => false
           end
       | None => false
       end
    then true
    else
      match DC ≫= findExtendedNominal with
      | Some ExtendedNominal => isFromExportedImportedModule ExtendedNominal
      | None => false
      end.

(** *** Graph resolution (lines 50-99) *)

(** The loop of lines 54-65, entered with a non-null [DC]: the module [M]
    and the first extended nominal it leaves behind. *)
Fixpoint climb (DC : DeclContext) (ExtendedNominal : option Decl)
    : ModuleDecl * option Decl :=
  match DC with
  | DeclCtx M' (mkDecl _ (Class | Struct | Enum | Protocol) _ _ NTDContext) =>
      match NTDContext with
      | Some DC' => climb DC' ExtendedNominal
      | None => (M', ExtendedNominal)
      end
  | DeclCtx M' (mkDecl _ (Extension (mkDecl _ _ _ _ NominalContext as Nominal)) _ _ _) =>
      let ExtendedNominal' :=
        match ExtendedNominal with None => Some Nominal | Some _ => ExtendedNominal end in
      match NominalContext with
      | Some DC' => climb DC' ExtendedNominal'
      | None => (M', ExtendedNominal')
      end
  | DeclCtx M' _ => (M', ExtendedNominal)
  | NonDeclCtx M' _ => (M', ExtendedNominal)
  end.

(** Lines 51-65: the owning module of [D] and the extended-nominal hint. *)
Definition owningModule (D : Decl) : ModuleDecl * option Decl :=
  match getDeclContext D with
  | Some DC => climb DC None
  | None => (getModuleContext D, None)
  end.

(** lines 50-99 *)
Definition getModuleSymbolGraph (W : Walker) (D : Decl) : GraphRef * Walker :=
  let '(M', ExtendedNominal) := owningModule D in
  if areModulesEqual M M' true then (MainGraphRef, W)
  else if match DeclaringModule (MainGraph W) with
          | Some DM => areModulesEqual DM M' true
          | None => false
          end
  then (MainGraphRef, W)
  else if isExportedImportedModule M' || isQualifiedExportedImport D
  then (MainGraphRef, W)
  else if match ExtendedNominal with
          | Some N => isFromExportedImportedModule N
          | None => isConsideredExportedImported D
          end
  then (MainGraphRef, W)
  else
    match ExtendedModuleGraphs W !! getNameStr M' with
    | Some _ => (ExtendedGraphRef (getNameStr M'), W)
    | None =>
        let SG := newSymbolGraph (SymbolGraph_M (MainGraph W)) (Some M')
                                 (DeclaringModule (MainGraph W)) in
        (ExtendedGraphRef (getNameStr M'),
         mkWalker (MainGraph W) (<[getNameStr M' := SG]> (ExtendedModuleGraphs W)))
    end.

(** Reading through a graph pointer.  Every pointer the walker follows
    comes from [getModuleSymbolGraph], so the graph is there (lemma
    [getModuleSymbolGraph_valid]); the other branch is never taken. *)
Definition deref (W : Walker) (G : GraphRef) : SymbolGraph :=
  match lookupGraph W G with
  | Some SG => SG
  | None => MainGraph W
  end.

(** *** Availability (lines 102-116) *)

Definition isUnavailableOrObsoleted (D : Decl) : bool :=
  match getUnavailable D with
  | Some Avail =>
      match Platform Avail with
      | none => false
      | _ =>
          match getVersionAvailability Avail with
          | Unavailable | Obsoleted => true
          | _ => false
          end
      end
  | None => false
  end.

(** *** Conformance expansion (lines 202-247) *)

(** The three vectors of lines 202-204. *)
Record Worklists := mkWorklists {
  Protocols : list Decl;
  UnexpandedProtocols : list Decl;
  UnexpandedCompositions : list ProtocolCompositionType
}.

(** Lines 207-216; [None] is the call of [abort()]. *)
Definition HandleProtocolOrComposition (T : Ty) (L : Worklists) : option Worklists :=
  match asProtocolDecl (getAnyNominal T) with
  | Some Proto =>
      Some (mkWorklists (Protocols L) (UnexpandedProtocols L ++ [Proto])
                        (UnexpandedCompositions L))
  | None =>
      match getAsProtocolCompositionType T with
      | Some Comp =>
          Some (mkWorklists (Protocols L) (UnexpandedProtocols L)
                            (UnexpandedCompositions L ++ [Comp]))
      | None => None
      end
  end.

(** The loop over an inheritance clause, written twice in the source
    (lines 220-226 over the extension's clause, lines 238-244 over a
    protocol's): an entry with a null type is passed over. *)
Fixpoint handleInherited (Inherited : list TypeLoc) (L : Worklists) : option Worklists :=
  match Inherited with
  | [] => Some L
  | InheritedLoc :: rest =>
      match getType InheritedLoc with
      | None => handleInherited rest L
      | Some InheritedTy =>
          match HandleProtocolOrComposition InheritedTy L with
          | Some L' => handleInherited rest L'
          | None => None
          end
      end
  end.

(** The loop over a composition's members (lines 233-235). *)
Fixpoint handleMembers (Members : list Ty) (L : Worklists) : option Worklists :=
  match Members with
  | [] => Some L
  | Member :: rest =>
      match HandleProtocolOrComposition Member L with
      | Some L' => handleMembers rest L'
      | None => None
      end
  end.

(** The condition of the loop at line 230. *)
Definition pending (L : Worklists) : bool :=
  negb (bool_decide (UnexpandedCompositions L = []))
  || negb (bool_decide (UnexpandedProtocols L = [])).

(** One turn of the loop body (lines 231-246); [None] is [abort()]. *)
Definition expandStep (L : Worklists) : option Worklists :=
  match pop_back_val (UnexpandedCompositions L) with
  | Some (Comp, Compositions') =>
      handleMembers (getMembers Comp)
        (mkWorklists (Protocols L) (UnexpandedProtocols L) Compositions')
  | None =>
      match pop_back_val (UnexpandedProtocols L) with
      | Some (Proto, Protocols') =>
          match handleInherited (getInherited Proto)
                  (mkWorklists (Protocols L) Protocols' (UnexpandedCompositions L)) with
          | Some L' =>
              Some (mkWorklists (Protocols L' ++ [Proto]) (UnexpandedProtocols L')
                                (UnexpandedCompositions L'))
          | None => None
          end
      | None => Some L
      end
  end.

(** The loop of lines 230-247; [fuel] bounds the number of turns. *)
Fixpoint expandLoop (fuel : nat) (L : Worklists) : Outcome Worklists :=
  if pending L then
    match fuel with
    | O => OutOfFuel
    | S fuel' =>
        match expandStep L with
        | Some L' => expandLoop fuel' L'
        | None => Aborted
        end
    end
  else Returned L.

(** Lines 202-247: seeding from the extension's clause, then the loop. *)
Definition expandConformances (fuel : nat) (Inherited : list TypeLoc)
    : Outcome (list Decl) :=
  match handleInherited Inherited (mkWorklists [] [] []) with
  | Some L =>
      match expandLoop fuel L with
      | Returned L' => Returned (Protocols L')
      | Aborted => Aborted
      | OutOfFuel => OutOfFuel
      end
  | None => Aborted
  end.

(** *** The visit (lines 119-291) *)

(** The kinds of lines 126-137. *)
Definition isRecordedKind (k : DeclKind) : bool :=
  match k with
  | Class | Struct | Enum | EnumElement | Protocol | Constructor | Func
  | Var | Subscript | TypeAlias | AssociatedType | Extension _ => true
  | _ => false
  end.

(** lines 163-166 *)
Definition shouldBeRecordedAsExtension (Extension ExtendedNominal : Decl) : bool :=
  EmitExtensionBlockSymbols Options
  && negb (String.eqb (getNameStr (getModuleContext Extension))
                      (getNameStr (getModuleContext ExtendedNominal))).

(** lines 250-254 *)
Definition recordConformances (ExtendedSG : GraphRef) (Src : Symbol)
    (Extension : Decl) (Protos : list Decl) (W : Walker) : Walker :=
  fold_left
    (fun W' Proto =>
       let Tgt := mkSymbol MainGraphRef (getAddr Proto) None in
       updateGraph ExtendedSG (recordEdge Src Tgt ConformsTo (Some (getAddr Extension))) W')
    Protos W.

(** The extension branch, lines 149-265. *)
Definition walkExtension (fuel : nat) (W : Walker) (Extension ExtendedNominal : Decl)
    : Outcome (bool * Walker) :=
  let '(ExtendedSG, W) := getModuleSymbolGraph W ExtendedNominal in
  if isImplicitlyPrivate (deref W ExtendedSG) Extension then Returned (false, W)
  else if isUnavailableOrObsoleted ExtendedNominal then Returned (false, W)
  else
    let shouldBeRecorded := shouldBeRecordedAsExtension Extension ExtendedNominal in
    let Src :=
      if shouldBeRecorded then mkSymbol ExtendedSG (getAddr Extension) None
      else mkSymbol ExtendedSG (getAddr ExtendedNominal) None in
    let W :=
      if shouldBeRecorded then
        let W := updateGraph ExtendedSG (recordNode Src) W in
        updateGraph ExtendedSG
          (recordEdge Src (mkSymbol ExtendedSG (getAddr ExtendedNominal) None)
                      ExtensionTo None) W
      else W in
    match getInherited Extension with
    | [] => Returned (true, W)
    | Inherited =>
        match expandConformances fuel Inherited with
        | Returned Protos =>
            let W := recordConformances ExtendedSG Src Extension Protos W in
            let W :=
              if negb (sameModulePtr (getModuleContext ExtendedNominal) M) then
                updateGraph ExtendedSG
                  (recordConformanceSynthesizedMemberRelationships Src) W
              else W in
            Returned (true, W)
        | Aborted => Aborted
        | OutOfFuel => OutOfFuel
        end
    end.

(** The branch of the other recorded kinds, lines 267-290. *)
Definition walkValueDecl (W : Walker) (SG : GraphRef) (VD : Decl) : bool * Walker :=
  if negb (canIncludeDeclAsNode (deref W SG) VD) then (false, W)
  else
    match (getDeclContext VD ≫= getAsDecl) ≫= asExtensionDecl with
    | Some ExtendedNominal =>
        let ExtendedModule := getModuleContext ExtendedNominal in
        let '(ExtendedSG, W) := getModuleSymbolGraph W ExtendedNominal in
        if negb (sameModulePtr ExtendedModule M) then
          (true, updateGraph ExtendedSG
                   (recordNode (mkSymbol ExtendedSG (getAddr VD) None)) W)
        else
          (true, updateGraph SG (recordNode (mkSymbol SG (getAddr VD) None)) W)
    | None =>
        (true, updateGraph SG (recordNode (mkSymbol SG (getAddr VD) None)) W)
    end.

(** lines 119-291 *)
Definition walkToDeclPre (fuel : nat) (W : Walker) (D : Decl) : Outcome (bool * Walker) :=
  if isUnavailableOrObsoleted D then Returned (false, W)
  else if negb (isRecordedKind (getKind D)) then Returned (true, W)
  else
    let '(SG, W) := getModuleSymbolGraph W D in
    match asExtensionDecl D with
    | Some ExtendedNominal => walkExtension fuel W D ExtendedNominal
    | None => Returned (walkValueDecl W SG D)
    end.

(** *** The traversal *)

(** A declaration with the declarations the traversal finds below it. *)
Inductive DeclTree :=
  | DeclNode (D : Decl) (Members : list DeclTree).

(** Modelled from the spec: the pre-order driver that calls the visit for
    each declaration ([swift::ASTWalker], not part of these sources).  A
    visit that answers [false] prunes the subtree; after one that answers
    [true] the members are visited in order. *)
Fixpoint walk (fuel : nat) (W : Walker) (T : DeclTree) : Outcome Walker :=
  match T with
  | DeclNode D Members =>
      match walkToDeclPre fuel W D with
      | Returned (true, W') =>
          (fix walkMembers (Ms : list DeclTree) (W : Walker) : Outcome Walker :=
             match Ms with
             | [] => Returned W
             | T' :: Ms' =>
                 match walk fuel W T' with
                 | Returned W' => walkMembers Ms' W'
                 | Aborted => Aborted
                 | OutOfFuel => OutOfFuel
                 end
             end) Members W'
      | Returned (false, W') => Returned W'
      | Aborted => Aborted
      | OutOfFuel => OutOfFuel
      end
  end.

(** The members of a visited declaration, in order. *)
Fixpoint walkAll (fuel : nat) (Ms : list DeclTree) (W : Walker) : Outcome Walker :=
  match Ms with
  | [] => Returned W
  | T :: Ms' =>
      match walk fuel W T with
      | Returned W' => walkAll fuel Ms' W'
      | Aborted => Aborted
      | OutOfFuel => OutOfFuel
      end
  end.

(** *** Well-formed clauses and the measure of the expansion loop *)

(** The protocols a type names, at any depth of composition. *)
Fixpoint protocolsOf (T : Ty) : list Decl :=
  match T with
  | NominalType d => match getKind d with Protocol => [d] | _ => [] end
  | CompositionType ms => flat_map protocolsOf ms
  | OtherType => []
  end.

(** A type built from protocols and compositions only. *)
Fixpoint isProtocolOrComposition (T : Ty) : bool :=
  match T with
  | NominalType d => match getKind d with Protocol => true | _ => false end
  | CompositionType ms => forallb isProtocolOrComposition ms
  | OtherType => false
  end.

(** The number of loop turns a type can cause, given the number [w] each
    protocol causes: a composition costs one turn and its members. *)
Fixpoint tyWeight (w : Decl -> nat) (T : Ty) : nat :=
  match T with
  | NominalType d => match getKind d with Protocol => w d | _ => 0 end
  | CompositionType ms => S (list_sum (map (tyWeight w) ms))
  | OtherType => 0
  end.

Definition entryWeight (w : Decl -> nat) (E : TypeLoc) : nat :=
  match getType E with Some T => tyWeight w T | None => 0 end.

Definition entriesWeight (w : Decl -> nat) (Inherited : list TypeLoc) : nat :=
  list_sum (map (entryWeight w) Inherited).

(** The turns a protocol causes when its inheritance is followed to depth
    [n]: one for itself and those of its clause. *)
Fixpoint protoWeight (n : nat) (p : Decl) : nat :=
  match n with
  | O => O
  | S n' => S (entriesWeight (protoWeight n') (getInherited p))
  end.

(** The inheritance clauses of protocols form an acyclic graph: [rank]
    goes down along every edge from a protocol to a protocol its clause
    names. *)
Definition Acyclic (rank : Decl -> nat) : Prop :=
  forall p T q,
    getKind p = Protocol ->
    In (mkTypeLoc (Some T)) (getInherited p) ->
    In q (protocolsOf T) ->
    rank q < rank p.

(** Every type in the clause of a protocol is a protocol or a composition
    of such. *)
Definition ProtocolsInheritProtocols : Prop :=
  forall p T,
    getKind p = Protocol ->
    In (mkTypeLoc (Some T)) (getInherited p) ->
    isProtocolOrComposition T = true.

(** The pending lists hold protocols and compositions of protocols. *)
Definition wellFormedWorklists (L : Worklists) : Prop :=
  Forall (fun p => getKind p = Protocol) (UnexpandedProtocols L)
  /\ Forall (fun c => forallb isProtocolOrComposition (getMembers c) = true)
            (UnexpandedCompositions L).

(** The turns one pending protocol stands for. *)
Definition turns (rank : Decl -> nat) (p : Decl) : nat := protoWeight (S (rank p)) p.

Definition compositionTurns (rank : Decl -> nat) (c : ProtocolCompositionType) : nat :=
  S (list_sum (map (tyWeight (turns rank)) (getMembers c))).

(** The turns the pending lists stand for; each turn of the loop lowers
    it. *)
Definition turnsLeft (rank : Decl -> nat) (L : Worklists) : nat :=
  list_sum (map (turns rank) (UnexpandedProtocols L))
  + list_sum (map (compositionTurns rank) (UnexpandedCompositions L)).

(** The edge of lines 251-253 for one expanded protocol. *)
Definition conformsToEdge (Src : Symbol) (Proto : Decl) : Edge :=
  mkEdge ConformsTo Src (mkSymbol MainGraphRef (getAddr Proto) None).

(** *** The walker's primitive effects *)

(** The changes the visit makes to the walker's members: a graph
    resolution, a node recorded in a graph for one of its own symbols, an
    extension-to edge between two symbols of a graph, a conforms-to edge
    from a symbol of a graph to a symbol of the main graph, and a request for
    synthesized members. *)
Inductive WalkerOp : Walker -> Walker -> Prop :=
  | OpResolve W D :
      WalkerOp W (getModuleSymbolGraph W D).2
  | OpRecordNode W G d :
      is_Some (lookupGraph W G) ->
      WalkerOp W (updateGraph G (recordNode (mkSymbol G d None)) W)
  | OpRecordExtensionTo W G d t :
      is_Some (lookupGraph W G) ->
      WalkerOp W (updateGraph G
                    (recordEdge (mkSymbol G d None) (mkSymbol G t None) ExtensionTo None) W)
  | OpRecordConformsTo W G d p ext :
      is_Some (lookupGraph W G) ->
      WalkerOp W (updateGraph G
                    (recordEdge (mkSymbol G d None) (mkSymbol MainGraphRef p None)
                                ConformsTo ext) W)
  | OpSynthesized W G d :
      is_Some (lookupGraph W G) ->
      WalkerOp W (updateGraph G
                    (recordConformanceSynthesizedMemberRelationships (mkSymbol G d None)) W).

(** One visit that returns. *)
Definition visitStep (W W' : Walker) : Prop :=
  exists fuel D b, walkToDeclPre fuel W D = Returned (b, W').

(** Every symbol of a graph names that graph and no synthesizing base type;
    every edge of a graph starts at a symbol of that graph, an extension-to
    edge ends in the same graph and a conforms-to edge in the main graph. *)
Definition SymbolsOwned (W : Walker) : Prop :=
  forall G,
    (forall s, s ∈ nodesOf W G -> Graph s = G /\ SynthesizedBaseTypeDecl s = None)
    /\ (forall e, e ∈ edgesOf W G ->
          Graph (Source e) = G
          /\ Graph (Target e) =
             match EdgeKind e with ExtensionTo => G | ConformsTo => MainGraphRef end).

(** The requests for synthesized members a graph pointer leads to. *)
Definition requestsOf (W : Walker) (G : GraphRef) : list Symbol :=
  match lookupGraph W G with Some SG => SynthesizedMemberRequests SG | None => [] end.

(** *** The conformances a clause implies *)

(** [ImpliedBy T p]: the protocol [p] is stated by the type [T], directly,
    as a member of a composition, or through the inheritance clause of a
    protocol that is. *)
Inductive ImpliedBy : Ty -> Decl -> Prop :=
  | implied_self d :
      getKind d = Protocol -> ImpliedBy (NominalType d) d
  | implied_inherited d T p :
      getKind d = Protocol ->
      In (mkTypeLoc (Some T)) (getInherited d) ->
      ImpliedBy T p ->
      ImpliedBy (NominalType d) p
  | implied_member ms T p :
      In T ms -> ImpliedBy T p -> ImpliedBy (CompositionType ms) p.

(** The protocols the worklists stand for: those already expanded and those
    implied by a pending protocol or composition. *)
Definition StandsFor (L : Worklists) (p : Decl) : Prop :=
  In p (Protocols L)
  \/ (exists d, In d (UnexpandedProtocols L) /\ ImpliedBy (NominalType d) p)
  \/ (exists c, In c (UnexpandedCompositions L)
                /\ ImpliedBy (CompositionType (getMembers c)) p).

(** Only protocols are pending as protocols. *)
Definition protocolsPending (L : Worklists) : Prop :=
  Forall (fun p => getKind p = Protocol) (UnexpandedProtocols L).

(** [HasDefect T]: expanding [T] classifies a type that is neither the
    nominal type of a protocol nor a composition, in [T] itself, in a member
    of a composition, or in the clause of a protocol it reaches. *)
Inductive HasDefect : Ty -> Prop :=
  | defect_here T :
      asProtocolDecl (getAnyNominal T) = None ->
      getAsProtocolCompositionType T = None ->
      HasDefect T
  | defect_inherited d T :
      getKind d = Protocol ->
      In (mkTypeLoc (Some T)) (getInherited d) ->
      HasDefect T ->
      HasDefect (NominalType d)
  | defect_member ms T :
      In T ms -> HasDefect T -> HasDefect (CompositionType ms).

(** A pending protocol or composition leads to a defect. *)
Definition DefectPending (L : Worklists) : Prop :=
  (exists d, In d (UnexpandedProtocols L) /\ HasDefect (NominalType d))
  \/ (exists c, In c (UnexpandedCompositions L)
                /\ HasDefect (CompositionType (getMembers c))).

(** ** Properties *)

(** *** Module identity *)

(** C6.  [areModulesEqual] answers true exactly when the names are equal
    and, unless foreignness is ignored, the two modules are both foreign or
    both native; when foreignness is ignored, equal names alone decide. *)
Theorem areModulesEqual_iff (lhs rhs : ModuleDecl) (ignoreUnderlying : bool) :
  (areModulesEqual lhs rhs ignoreUnderlying = true <->
     getNameStr lhs = getNameStr rhs /\
     (ignoreUnderlying = false -> isNonSwiftModule lhs = isNonSwiftModule rhs))
  /\ (areModulesEqual lhs rhs true = true <-> getNameStr lhs = getNameStr rhs).
Proof.
  unfold areModulesEqual. split.
  - rewrite andb_true_iff, orb_true_iff, String.eqb_eq, Bool.eqb_true_iff.
    destruct ignoreUnderlying; split; intros [Hn Hf]; split; auto.
    + discriminate.
    + destruct Hf as [Hf | Hf]; [discriminate | intros _; exact Hf].
  - rewrite andb_true_iff, String.eqb_eq. simpl. tauto.
Qed.

Lemma areModulesEqual_true_names (a b : ModuleDecl) :
  areModulesEqual a b true = true -> getNameStr a = getNameStr b.
Proof.
  unfold areModulesEqual. rewrite andb_true_iff, String.eqb_eq. tauto.
Qed.

(** *** Graph resolution *)

Lemma getModuleSymbolGraph_MainGraph W D :
  MainGraph (getModuleSymbolGraph W D).2 = MainGraph W.
Proof.
  unfold getModuleSymbolGraph. destruct (owningModule D) as [M' N].
  repeat (case_match; simpl; try reflexivity).
Qed.

(** The pointer [getModuleSymbolGraph] returns is in the registry. *)
Lemma getModuleSymbolGraph_valid W D :
  is_Some (lookupGraph (getModuleSymbolGraph W D).2 (getModuleSymbolGraph W D).1).
Proof.
  unfold getModuleSymbolGraph. destruct (owningModule D) as [M' N].
  repeat case_match; simpl;
    first [ eexists; reflexivity
          | eexists; eassumption
          | rewrite lookup_insert_eq; eexists; reflexivity ].
Qed.

(** A call of [getModuleSymbolGraph] leaves every graph that exists as it
    is: it can only add an empty one under a new name. *)
Lemma getModuleSymbolGraph_preserves W D G SG :
  lookupGraph W G = Some SG ->
  lookupGraph (getModuleSymbolGraph W D).2 G = Some SG.
Proof.
  unfold getModuleSymbolGraph. destruct (owningModule D) as [M' N].
  intros HG. repeat case_match; simpl; try assumption;
    (destruct G as [| n]; simpl in *; [assumption |];
     rewrite lookup_insert_ne; [assumption | congruence]).
Qed.

(** C1.  The checks of graph resolution come in a fixed order.  With [M']
    the owning module of [D]: (1) when [M'] equals the module under
    inspection, or the declaring module recorded in the main graph, ignoring
    foreignness, the answer is the main graph whatever the re-export
    configuration holds; (2) when both comparisons fail, the answer is the
    main graph as soon as one re-export check passes; (3) an extension graph,
    kept under the name of [M'], is answered only when every re-export check
    fails as well. *)
Theorem getModuleSymbolGraph_order (W : Walker) (D : Decl) :
  let M' := (owningModule D).1 in
  let Hint := (owningModule D).2 in
  let isLocal := areModulesEqual M M' true in
  let isOverlay :=
    match DeclaringModule (MainGraph W) with
    | Some DM => areModulesEqual DM M' true
    | None => false
    end in
  let isReexported :=
    isExportedImportedModule M' || isQualifiedExportedImport D
    || match Hint with
       | Some N => isFromExportedImportedModule N
       | None => isConsideredExportedImported D
       end in
  (isLocal || isOverlay = true -> getModuleSymbolGraph W D = (MainGraphRef, W))
  /\ (isLocal || isOverlay = false -> isReexported = true ->
      getModuleSymbolGraph W D = (MainGraphRef, W))
  /\ (isLocal || isOverlay = false -> isReexported = false ->
      (getModuleSymbolGraph W D).1 = ExtendedGraphRef (getNameStr M')
      /\ MainGraph (getModuleSymbolGraph W D).2 = MainGraph W
      /\ ExtendedModuleGraphs (getModuleSymbolGraph W D).2 =
           match ExtendedModuleGraphs W !! getNameStr M' with
           | Some _ => ExtendedModuleGraphs W
           | None =>
               <[getNameStr M' :=
                   newSymbolGraph (SymbolGraph_M (MainGraph W)) (Some M')
                                  (DeclaringModule (MainGraph W))]>
                 (ExtendedModuleGraphs W)
           end).
Proof.
  unfold getModuleSymbolGraph. destruct (owningModule D) as [M' Hint]. simpl.
  destruct (areModulesEqual M M' true); simpl.
  { repeat split; intros; try discriminate; reflexivity. }
  destruct (match DeclaringModule (MainGraph W) with
            | Some DM => areModulesEqual DM M' true | None => false end); simpl.
  { repeat split; intros; try discriminate; reflexivity. }
  destruct (isExportedImportedModule M' || isQualifiedExportedImport D); simpl.
  { repeat split; intros; try discriminate; reflexivity. }
  destruct (match Hint with
            | Some N => isFromExportedImportedModule N
            | None => isConsideredExportedImported D end); simpl.
  { repeat split; intros; try discriminate; reflexivity. }
  split; [discriminate |]. split; [discriminate |]. intros _ _.
  destruct (ExtendedModuleGraphs W !! getNameStr M'); simpl; auto.
Qed.

Lemma isExportedImportedModule_In M' Vendored :
  In Vendored ExportedImportedModules ->
  areModulesEqual M' Vendored false = true ->
  isExportedImportedModule M' = true.
Proof.
  intros HIn Heq. unfold isExportedImportedModule.
  apply existsb_exists. exists Vendored. auto.
Qed.

(** C5.  A declaration whose owning module is, by strict module identity
    (same name, same foreignness), a member of the exported-imported modules
    goes to the main graph; no extension graph is made for it. *)
Theorem reexported_module_in_main_graph (W : Walker) (D : Decl) (Vendored : ModuleDecl) :
  In Vendored ExportedImportedModules ->
  areModulesEqual (owningModule D).1 Vendored false = true ->
  getModuleSymbolGraph W D = (MainGraphRef, W).
Proof.
  intros HIn Heq.
  pose proof (isExportedImportedModule_In _ _ HIn Heq) as Hex.
  unfold getModuleSymbolGraph. destruct (owningModule D) as [M' Hint]. simpl in *.
  rewrite Hex. simpl.
  repeat (case_match; try reflexivity).
Qed.

(** *** Reading and writing through graph pointers *)

Lemma deref_updateGraph W G f :
  is_Some (lookupGraph W G) ->
  deref (updateGraph G f W) G = f (deref W G).
Proof.
  unfold deref. destruct G as [| n]; simpl; [reflexivity |].
  intros [SG HSG]. rewrite lookup_alter_eq, HSG. reflexivity.
Qed.

Lemma lookupGraph_updateGraph_is_Some W G G' f :
  is_Some (lookupGraph W G') -> is_Some (lookupGraph (updateGraph G f W) G').
Proof.
  destruct G as [| n], G' as [| n']; simpl; eauto.
  intros [SG HSG]. destruct (decide (n = n')) as [-> | Hne].
  - rewrite lookup_alter_eq, HSG. simpl. eauto.
  - rewrite lookup_alter_ne by assumption. eauto.
Qed.

Lemma getModuleSymbolGraph_deref W D G :
  is_Some (lookupGraph W G) ->
  deref (getModuleSymbolGraph W D).2 G = deref W G.
Proof.
  intros [SG HSG]. unfold deref.
  rewrite (getModuleSymbolGraph_preserves W D G SG HSG), HSG. reflexivity.
Qed.

Lemma nodesOf_deref W G :
  is_Some (lookupGraph W G) -> nodesOf W G = Nodes (deref W G).
Proof. intros [SG HSG]. unfold nodesOf, deref. rewrite HSG. reflexivity. Qed.

Lemma edgesOf_deref W G :
  is_Some (lookupGraph W G) -> edgesOf W G = Edges (deref W G).
Proof. intros [SG HSG]. unfold edgesOf, deref. rewrite HSG. reflexivity. Qed.

(** Graph resolution records nothing: a graph it creates is empty. *)
Lemma getModuleSymbolGraph_contents W D G :
  nodesOf (getModuleSymbolGraph W D).2 G = nodesOf W G
  /\ edgesOf (getModuleSymbolGraph W D).2 G = edgesOf W G.
Proof.
  unfold getModuleSymbolGraph. destruct (owningModule D) as [M' N].
  repeat case_match; simpl; try (split; reflexivity);
    (unfold nodesOf, edgesOf; destruct G as [| n]; simpl; [split; reflexivity |];
     destruct (decide (getNameStr M' = n)) as [<- | Hne];
     [ rewrite lookup_insert_eq; simpl;
       match goal with H : _ !! _ = None |- _ => rewrite H end; split; reflexivity
     | rewrite lookup_insert_ne by assumption; split; reflexivity ]).
Qed.

(** *** The traversal *)

Lemma walk_unfold fuel W D Members :
  walk fuel W (DeclNode D Members) =
  match walkToDeclPre fuel W D with
  | Returned (true, W') => walkAll fuel Members W'
  | Returned (false, W') => Returned W'
  | Aborted => Aborted
  | OutOfFuel => OutOfFuel
  end.
Proof.
  simpl. destruct (walkToDeclPre fuel W D) as [[[|] W'] | |]; try reflexivity.
  revert W'. induction Members as [| T Ms IH]; intros W'; simpl; [reflexivity |].
  destruct (walk fuel W' T); try reflexivity. apply IH.
Qed.

(** *** Availability *)

Lemma isUnavailableOrObsoleted_iff D :
  isUnavailableOrObsoleted D = true <->
  exists Avail, getUnavailable D = Some Avail /\ Platform Avail <> none /\
    (getVersionAvailability Avail = Unavailable \/
     getVersionAvailability Avail = Obsoleted).
Proof.
  unfold isUnavailableOrObsoleted. split.
  - destruct (getUnavailable D) as [Avail |]; [| discriminate].
    intros H. exists Avail.
    destruct (Platform Avail); try discriminate;
      (split; [reflexivity |]; split; [discriminate |]);
      destruct (getVersionAvailability Avail); try discriminate; auto.
  - intros (Avail & -> & HP & HV).
    destruct (Platform Avail); try congruence;
      destruct HV as [-> | ->]; reflexivity.
Qed.


Lemma walkValueDecl_records W SG VD :
  is_Some (lookupGraph W SG) ->
  canIncludeDeclAsNode (deref W SG) VD = true ->
  exists G W', walkValueDecl W SG VD = (true, W')
    /\ mkSymbol G (getAddr VD) None ∈ Nodes (deref W' G).
Proof.
  intros HSG Hinc. unfold walkValueDecl. rewrite Hinc. simpl.
  destruct ((getDeclContext VD ≫= getAsDecl) ≫= asExtensionDecl) as [N |].
  - pose proof (getModuleSymbolGraph_valid W N) as Hv.
    assert (HSG' : is_Some (lookupGraph (getModuleSymbolGraph W N).2 SG)).
    { destruct HSG as [g Hg]. exists g. by apply getModuleSymbolGraph_preserves. }
    destruct (getModuleSymbolGraph W N) as [ExtendedSG W2]. simpl in *.
    destruct (negb (sameModulePtr (getModuleContext N) M)).
    + exists ExtendedSG. eexists. split; [reflexivity |].
      rewrite deref_updateGraph by assumption. simpl. set_solver.
    + exists SG. eexists. split; [reflexivity |].
      rewrite deref_updateGraph by assumption. simpl. set_solver.
  - exists SG. eexists. split; [reflexivity |].
    rewrite deref_updateGraph by assumption. simpl. set_solver.
Qed.

(** C9.  An unavailability attribute that names no platform does not make
    the availability filter skip the declaration, whatever the attribute's
    version comparison says: the visit goes on as for an available
    declaration.  A kind that is not recorded returns [true] at once and the
    members are walked; a recorded kind other than an extension, accepted by
    its graph, becomes a node of some graph and its members are walked. *)
Theorem unavailable_without_platform_is_walked (D : Decl) (Avail : AvailableAttr) :
  getUnavailable D = Some Avail ->
  Platform Avail = none ->
  isUnavailableOrObsoleted D = false
  /\ (forall fuel W Members,
        isRecordedKind (getKind D) = false ->
        walkToDeclPre fuel W D = Returned (true, W)
        /\ walk fuel W (DeclNode D Members) = walkAll fuel Members W)
  /\ (forall fuel W Members,
        isRecordedKind (getKind D) = true ->
        asExtensionDecl D = None ->
        canIncludeDeclAsNode
          (deref (getModuleSymbolGraph W D).2 (getModuleSymbolGraph W D).1) D = true ->
        exists G W',
          walkToDeclPre fuel W D = Returned (true, W')
          /\ mkSymbol G (getAddr D) None ∈ Nodes (deref W' G)
          /\ walk fuel W (DeclNode D Members) = walkAll fuel Members W').
Proof.
  intros HA HP.
  assert (HU : isUnavailableOrObsoleted D = false).
  { unfold isUnavailableOrObsoleted. rewrite HA, HP. reflexivity. }
  split; [exact HU |]. split.
  - intros fuel W Members HK.
    assert (HV : walkToDeclPre fuel W D = Returned (true, W)).
    { unfold walkToDeclPre. rewrite HU, HK. reflexivity. }
    split; [exact HV |]. rewrite walk_unfold, HV. reflexivity.
  - intros fuel W Members HK HE Hinc.
    pose proof (getModuleSymbolGraph_valid W D) as Hv.
    destruct (walkValueDecl_records _ _ _ Hv Hinc) as (G & W' & Hw & HN).
    exists G, W'.
    assert (HV : walkToDeclPre fuel W D = Returned (true, W')).
    { unfold walkToDeclPre. rewrite HU, HK. simpl.
      destruct (getModuleSymbolGraph W D) as [SG W1]. simpl in *.
      rewrite HE, Hw. reflexivity. }
    split; [exact HV |]. split; [exact HN |].
    rewrite walk_unfold, HV. reflexivity.
Qed.

(** *** Conformance expansion: classification *)

Lemma pop_back_val_app {A} (l : list A) (x : A) :
  pop_back_val (l ++ [x]) = Some (x, l).
Proof. unfold pop_back_val. rewrite rev_unit, rev_involutive. reflexivity. Qed.

Lemma pop_back_val_Some {A} (l r : list A) (x : A) :
  pop_back_val l = Some (x, r) -> l = r ++ [x].
Proof.
  unfold pop_back_val. destruct (rev l) as [| y t] eqn:E; [discriminate |].
  intros [= -> <-]. rewrite <- (rev_involutive l), E. reflexivity.
Qed.

Lemma pop_back_val_None {A} (l : list A) :
  pop_back_val l = None -> l = [].
Proof.
  unfold pop_back_val. destruct (rev l) as [| y t] eqn:E; [| discriminate].
  intros _. rewrite <- (rev_involutive l), E. reflexivity.
Qed.

Lemma HandleProtocolOrComposition_None T L :
  HandleProtocolOrComposition T L = None <->
  asProtocolDecl (getAnyNominal T) = None /\ getAsProtocolCompositionType T = None.
Proof.
  unfold HandleProtocolOrComposition.
  destruct (asProtocolDecl (getAnyNominal T)); [split; [discriminate | intros [? _]; discriminate] |].
  destruct (getAsProtocolCompositionType T); [split; [discriminate | intros [_ ?]; discriminate] |].
  tauto.
Qed.

Lemma handleInherited_defect T Inherited L :
  HandleProtocolOrComposition T L = None ->
  In (mkTypeLoc (Some T)) Inherited ->
  handleInherited Inherited L = None.
Proof.
  intros HT. apply HandleProtocolOrComposition_None in HT.
  revert L. induction Inherited as [| [[T0 |]] rest IH]; intros L HIn; simpl in *.
  - contradiction.
  - destruct (HandleProtocolOrComposition T0 L) as [L' |] eqn:E; [| reflexivity].
    destruct HIn as [[= ->] | HIn]; [| auto].
    pose proof (proj2 (HandleProtocolOrComposition_None T L) HT). congruence.
  - destruct HIn as [[=] | HIn]. auto.
Qed.

Lemma handleMembers_defect T Members L :
  HandleProtocolOrComposition T L = None ->
  In T Members ->
  handleMembers Members L = None.
Proof.
  intros HT. apply HandleProtocolOrComposition_None in HT.
  revert L. induction Members as [| T0 rest IH]; intros L HIn; simpl in *.
  - contradiction.
  - destruct (HandleProtocolOrComposition T0 L) as [L' |] eqn:E; [| reflexivity].
    destruct HIn as [-> | HIn]; [| auto].
    pose proof (proj2 (HandleProtocolOrComposition_None T L) HT). congruence.
Qed.

Lemma pending_of_pop_compositions L Comp rest :
  pop_back_val (UnexpandedCompositions L) = Some (Comp, rest) -> pending L = true.
Proof.
  intros H. apply pop_back_val_Some in H. unfold pending. rewrite H.
  rewrite bool_decide_eq_false_2; [reflexivity |]. by destruct rest.
Qed.

Lemma pending_of_pop_protocols L Proto rest :
  pop_back_val (UnexpandedProtocols L) = Some (Proto, rest) -> pending L = true.
Proof.
  intros H. apply pop_back_val_Some in H. unfold pending. rewrite H.
  rewrite (bool_decide_eq_false_2 (rest ++ [Proto] = [])); [apply orb_true_r |].
  by destruct rest.
Qed.

(** C8.  A type that is neither the nominal type of a protocol nor a
    protocol composition makes the classification call [abort()], and with
    it the run, wherever it is classified: in the extension's own clause, as
    a member of the composition being expanded, or in the clause of the
    protocol being expanded.  The visit of such an extension never returns. *)
Theorem defect_type_aborts (T : Ty) :
  asProtocolDecl (getAnyNominal T) = None ->
  getAsProtocolCompositionType T = None ->
  (forall L, HandleProtocolOrComposition T L = None)
  /\ (forall fuel Inherited,
        In (mkTypeLoc (Some T)) Inherited ->
        expandConformances fuel Inherited = Aborted)
  /\ (forall fuel L Comp rest,
        pop_back_val (UnexpandedCompositions L) = Some (Comp, rest) ->
        In T (getMembers Comp) ->
        expandLoop (S fuel) L = Aborted)
  /\ (forall fuel L Proto rest,
        UnexpandedCompositions L = [] ->
        pop_back_val (UnexpandedProtocols L) = Some (Proto, rest) ->
        In (mkTypeLoc (Some T)) (getInherited Proto) ->
        expandLoop (S fuel) L = Aborted)
  /\ (forall fuel W D ExtendedNominal,
        isUnavailableOrObsoleted D = false ->
        asExtensionDecl D = Some ExtendedNominal ->
        (let '(_, W1) := getModuleSymbolGraph W D in
         let '(ExtendedSG, W2) := getModuleSymbolGraph W1 ExtendedNominal in
         isImplicitlyPrivate (deref W2 ExtendedSG) D = false) ->
        isUnavailableOrObsoleted ExtendedNominal = false ->
        In (mkTypeLoc (Some T)) (getInherited D) ->
        walkToDeclPre fuel W D = Aborted).
Proof.
  intros HP HC.
  assert (HT : forall L, HandleProtocolOrComposition T L = None).
  { intros L. apply HandleProtocolOrComposition_None. auto. }
  assert (HE : forall fuel Inherited,
             In (mkTypeLoc (Some T)) Inherited ->
             expandConformances fuel Inherited = Aborted).
  { intros fuel Inherited HIn. unfold expandConformances.
    rewrite (handleInherited_defect T) by auto. reflexivity. }
  split; [exact HT |]. split; [exact HE |]. split; [| split].
  - intros fuel L Comp rest Hpop HIn. simpl.
    rewrite (pending_of_pop_compositions _ _ _ Hpop).
    unfold expandStep. rewrite Hpop.
    rewrite (handleMembers_defect T) by auto. reflexivity.
  - intros fuel L Proto rest HUC Hpop HIn. simpl.
    rewrite (pending_of_pop_protocols _ _ _ Hpop).
    unfold expandStep. rewrite HUC. simpl. rewrite Hpop.
    rewrite (handleInherited_defect T) by auto. reflexivity.
  - intros fuel W D N HU HExt Hpriv HUN HIn.
    unfold walkToDeclPre. rewrite HU.
    assert (HK : isRecordedKind (getKind D) = true).
    { unfold asExtensionDecl in HExt. destruct (getKind D); try discriminate. reflexivity. }
    rewrite HK. simpl.
    destruct (getModuleSymbolGraph W D) as [SG W1]. rewrite HExt.
    unfold walkExtension.
    destruct (getModuleSymbolGraph W1 N) as [ExtendedSG W2].
    rewrite Hpriv, HUN.
    destruct (getInherited D) as [| e es] eqn:EI; [contradiction |].
    rewrite (HE fuel (e :: es) HIn). reflexivity.
Qed.

(** C10.  An entry of an inheritance clause whose type is null is passed
    over without a word: the clause gives the same worklists, and the same
    expansion, as the clause without the entry; it neither adds to a pending
    list nor aborts.  This holds for the extension's clause and for the
    clause of a protocol taken off the pending list. *)
Theorem null_inherited_type_is_skipped :
  (forall pre post L,
      handleInherited (pre ++ mkTypeLoc None :: post) L = handleInherited (pre ++ post) L)
  /\ (forall L, handleInherited [mkTypeLoc None] L = Some L)
  /\ (forall fuel pre post,
        expandConformances fuel (pre ++ mkTypeLoc None :: post) =
        expandConformances fuel (pre ++ post))
  /\ (forall L Proto rest pre post,
        UnexpandedCompositions L = [] ->
        pop_back_val (UnexpandedProtocols L) = Some (Proto, rest) ->
        getInherited Proto = pre ++ mkTypeLoc None :: post ->
        expandStep L =
        match handleInherited (pre ++ post) (mkWorklists (Protocols L) rest []) with
        | Some L' =>
            Some (mkWorklists (Protocols L' ++ [Proto]) (UnexpandedProtocols L')
                              (UnexpandedCompositions L'))
        | None => None
        end).
Proof.
  assert (H1 : forall pre post L,
             handleInherited (pre ++ mkTypeLoc None :: post) L =
             handleInherited (pre ++ post) L).
  { induction pre as [| [[T0 |]] pre IH]; intros post L; simpl; auto.
    destruct (HandleProtocolOrComposition T0 L); auto. }
  split; [exact H1 |]. split; [reflexivity |]. split.
  - intros fuel pre post. unfold expandConformances. rewrite H1. reflexivity.
  - intros L Proto rest pre post HUC Hpop HI.
    unfold expandStep. rewrite HUC. simpl. rewrite Hpop, HI, H1. reflexivity.
Qed.

(** *** Conformance expansion: termination *)

(** Induction over types, with the members of a composition. *)
Lemma Ty_ind_members (P : Ty -> Prop) :
  (forall d, P (NominalType d)) ->
  (forall ms, Forall P ms -> P (CompositionType ms)) ->
  P OtherType ->
  forall T, P T.
Proof.
  intros HN HC HO. fix IH 1. intros [d | ms |].
  - apply HN.
  - apply HC. induction ms as [| m ms IHms]; constructor; [apply IH | exact IHms].
  - exact HO.
Qed.

Lemma tyWeight_mono (w w' : Decl -> nat) (T : Ty) :
  (forall q, In q (protocolsOf T) -> w q <= w' q) ->
  tyWeight w T <= tyWeight w' T.
Proof.
  induction T as [d | ms IH |] using Ty_ind_members; simpl; intros Hw.
  - destruct (getKind d); try lia. apply Hw. simpl. auto.
  - apply le_n_S. induction IH as [| m ms Hm _ IHms]; simpl in *; [lia |].
    assert (tyWeight w m <= tyWeight w' m).
    { apply Hm. intros q Hq. apply Hw. apply in_or_app. auto. }
    assert (list_sum (map (tyWeight w) ms) <= list_sum (map (tyWeight w') ms)).
    { apply IHms. intros q Hq. apply Hw. apply in_or_app. auto. }
    lia.
  - lia.
Qed.

Lemma entriesWeight_mono (w w' : Decl -> nat) (Inherited : list TypeLoc) :
  (forall T q, In (mkTypeLoc (Some T)) Inherited -> In q (protocolsOf T) -> w q <= w' q) ->
  entriesWeight w Inherited <= entriesWeight w' Inherited.
Proof.
  unfold entriesWeight.
  induction Inherited as [| [[T |]] rest IH]; simpl; intros Hw; [lia | |].
  - assert (tyWeight w T <= tyWeight w' T).
    { apply tyWeight_mono. intros q Hq. apply (Hw T); auto. }
    assert (list_sum (map (entryWeight w) rest) <= list_sum (map (entryWeight w') rest)).
    { apply IH. intros T' q HT' Hq. apply (Hw T'); auto. }
    cbn [entryWeight getType] in *. lia.
  - cbn [entryWeight getType] in *.
    apply IH. intros T' q HT' Hq. apply (Hw T'); auto.
Qed.

Lemma protoWeight_mono (n m : nat) (p : Decl) :
  n <= m -> protoWeight n p <= protoWeight m p.
Proof.
  revert m p. induction n as [| n IH]; intros m p Hle; simpl; [lia |].
  destruct m as [| m]; [lia |]. simpl. apply le_n_S.
  apply entriesWeight_mono. intros T q _ _. apply IH. lia.
Qed.

Section Termination.

Variable rank : Decl -> nat.
Hypothesis rank_decreases : Acyclic rank.
Hypothesis protocols_only : ProtocolsInheritProtocols.

Ltac sum_pending :=
  unfold turnsLeft in *;
  cbn [UnexpandedProtocols UnexpandedCompositions Protocols] in *;
  repeat rewrite map_app, list_sum_app;
  cbn [map list_sum fold_right].

Lemma turns_clause p :
  getKind p = Protocol ->
  entriesWeight (turns rank) (getInherited p) < turns rank p.
Proof.
  intros Hp. unfold turns at 2. cbn [protoWeight]. apply Nat.lt_succ_r.
  apply entriesWeight_mono. intros T q HT Hq. unfold turns.
  apply protoWeight_mono. apply (rank_decreases p T q Hp HT Hq).
Qed.

Lemma HandleProtocolOrComposition_ok T L :
  isProtocolOrComposition T = true ->
  wellFormedWorklists L ->
  exists L', HandleProtocolOrComposition T L = Some L'
    /\ wellFormedWorklists L'
    /\ turnsLeft rank L' = turnsLeft rank L + tyWeight (turns rank) T
    /\ Protocols L' = Protocols L.
Proof.
  intros HT [HP HC]. unfold HandleProtocolOrComposition.
  destruct T as [d | ms |]; simpl in *; [| | discriminate].
  - destruct (getKind d) eqn:K; try discriminate.
    eexists. split; [reflexivity |]. repeat split; simpl.
    + apply Forall_app. split; [exact HP |]. constructor; [exact K | constructor].
    + exact HC.
    + sum_pending. lia.
  - eexists. split; [reflexivity |]. repeat split; simpl.
    + exact HP.
    + apply Forall_app. split; [exact HC |]. constructor; [exact HT | constructor].
    + sum_pending. unfold compositionTurns at 2. cbn [getMembers]. lia.
Qed.

Lemma handleMembers_ok Members L :
  forallb isProtocolOrComposition Members = true ->
  wellFormedWorklists L ->
  exists L', handleMembers Members L = Some L'
    /\ wellFormedWorklists L'
    /\ turnsLeft rank L' = turnsLeft rank L + list_sum (map (tyWeight (turns rank)) Members)
    /\ Protocols L' = Protocols L.
Proof.
  revert L. induction Members as [| T rest IH]; intros L HM HL; simpl in *.
  - exists L. repeat split; try apply HL. lia.
  - apply andb_true_iff in HM as [HT Hrest].
    destruct (HandleProtocolOrComposition_ok T L HT HL) as (L1 & -> & HL1 & Hm1 & Hp1).
    destruct (IH L1 Hrest HL1) as (L2 & -> & HL2 & Hm2 & Hp2).
    exists L2. repeat split; try apply HL2; [lia | congruence].
Qed.

Lemma handleInherited_ok Inherited L :
  (forall T, In (mkTypeLoc (Some T)) Inherited -> isProtocolOrComposition T = true) ->
  wellFormedWorklists L ->
  exists L', handleInherited Inherited L = Some L'
    /\ wellFormedWorklists L'
    /\ turnsLeft rank L' = turnsLeft rank L + entriesWeight (turns rank) Inherited
    /\ Protocols L' = Protocols L.
Proof.
  unfold entriesWeight.
  revert L. induction Inherited as [| [[T |]] rest IH]; intros L HI HL; simpl in *.
  - exists L. repeat split; try apply HL. lia.
  - destruct (HandleProtocolOrComposition_ok T L) as (L1 & -> & HL1 & Hm1 & Hp1); auto.
    destruct (IH L1) as (L2 & -> & HL2 & Hm2 & Hp2); auto.
    exists L2. repeat split; try apply HL2; [| congruence].
    cbn [entryWeight getType]. lia.
  - destruct (IH L) as (L2 & -> & HL2 & Hm2 & Hp2); auto.
    exists L2. repeat split; try apply HL2; [| congruence].
    cbn [entryWeight getType]. lia.
Qed.

(** One turn of the loop on well-formed lists does not abort and lowers
    [turnsLeft]. *)
Lemma expandStep_decreases L :
  pending L = true ->
  wellFormedWorklists L ->
  exists L', expandStep L = Some L'
    /\ wellFormedWorklists L'
    /\ turnsLeft rank L' < turnsLeft rank L.
Proof.
  intros Hpend [HP HC]. unfold expandStep.
  destruct (pop_back_val (UnexpandedCompositions L)) as [[Comp rest] |] eqn:EC.
  - apply pop_back_val_Some in EC.
    rewrite EC in HC. apply Forall_app in HC as [Hrest HComp].
    inversion HComp as [| ? ? HM _]; subst.
    destruct (handleMembers_ok (getMembers Comp)
                (mkWorklists (Protocols L) (UnexpandedProtocols L) rest) HM)
      as (L' & -> & HL' & Hm & _); [split; assumption |].
    exists L'. split; [reflexivity |]. split; [exact HL' |].
    rewrite Hm. unfold turnsLeft. cbn [UnexpandedProtocols UnexpandedCompositions].
    rewrite EC. sum_pending. unfold compositionTurns at 3. lia.
  - apply pop_back_val_None in EC.
    destruct (pop_back_val (UnexpandedProtocols L)) as [[Proto rest] |] eqn:EP.
    + apply pop_back_val_Some in EP.
      rewrite EP in HP. apply Forall_app in HP as [Hrest HProto].
      inversion HProto as [| ? ? HK _]; subst.
      destruct (handleInherited_ok (getInherited Proto)
                  (mkWorklists (Protocols L) rest (UnexpandedCompositions L)))
        as (L' & -> & HL' & Hm & _).
      { intros T HT. apply (protocols_only Proto T HK HT). }
      { split; assumption. }
      eexists. split; [reflexivity |]. split; [exact HL' |].
      unfold turnsLeft in *. cbn [UnexpandedProtocols UnexpandedCompositions] in *.
      rewrite Hm, EP. sum_pending.
      pose proof (turns_clause Proto HK). lia.
    + apply pop_back_val_None in EP. unfold pending in Hpend.
      rewrite EC, EP in Hpend. discriminate.
Qed.

Lemma expandLoop_terminates_within (n : nat) :
  forall L,
    turnsLeft rank L <= n ->
    wellFormedWorklists L ->
    exists k L', k <= n /\ expandLoop k L = Returned L'
      /\ UnexpandedProtocols L' = [] /\ UnexpandedCompositions L' = [].
Proof.
  induction n as [| n IH]; intros L Hle HL.
  - destruct (pending L) eqn:Hpend.
    + destruct (expandStep_decreases L Hpend HL) as (L' & _ & _ & Hlt). lia.
    + exists 0, L. split; [lia |]. simpl. rewrite Hpend. split; [reflexivity |].
      unfold pending in Hpend. apply orb_false_iff in Hpend as [H1 H2].
      apply negb_false_iff, bool_decide_eq_true in H1, H2. auto.
  - destruct (pending L) eqn:Hpend.
    + destruct (expandStep_decreases L Hpend HL) as (L1 & Hstep & HL1 & Hlt).
      destruct (IH L1) as (k & L' & Hk & Hloop & HE); [lia | exact HL1 |].
      exists (S k), L'. split; [lia |]. simpl. rewrite Hpend, Hstep. auto.
    + exists 0, L. split; [lia |]. simpl. rewrite Hpend. split; [reflexivity |].
      unfold pending in Hpend. apply orb_false_iff in Hpend as [H1 H2].
      apply negb_false_iff, bool_decide_eq_true in H1, H2. auto.
Qed.

End Termination.

(** C7.  On a finite acyclic graph of protocol inheritance and composition
    the expansion loop terminates: from any pending lists of protocols and
    compositions it returns after finitely many turns (at most
    [turnsLeft rank L]) with both pending lists empty. *)
Theorem expandLoop_terminates (rank : Decl -> nat) (L : Worklists) :
  Acyclic rank ->
  ProtocolsInheritProtocols ->
  wellFormedWorklists L ->
  exists (n : nat) (L' : Worklists),
    n <= turnsLeft rank L
    /\ expandLoop n L = Returned L'
    /\ UnexpandedProtocols L' = []
    /\ UnexpandedCompositions L' = [].
Proof.
  intros HA HP HL.
  apply (expandLoop_terminates_within rank HA HP (turnsLeft rank L) L); auto.
Qed.

(** On well-formed acyclic clauses the whole expansion returns. *)
Lemma expandConformances_returns (rank : Decl -> nat) (Inherited : list TypeLoc) :
  Acyclic rank ->
  ProtocolsInheritProtocols ->
  (forall T, In (mkTypeLoc (Some T)) Inherited -> isProtocolOrComposition T = true) ->
  exists fuel Protos, expandConformances fuel Inherited = Returned Protos.
Proof.
  intros HA HP HI. unfold expandConformances.
  destruct (handleInherited_ok rank Inherited (mkWorklists [] [] []) HI)
    as (L & -> & HL & _); [split; constructor |].
  destruct (expandLoop_terminates_within rank HA HP (turnsLeft rank L) L (le_n _) HL)
    as (n & L' & _ & Hloop & _).
  exists n, (Protocols L'). rewrite Hloop. reflexivity.
Qed.

(** *** The visit of an extension *)

Lemma recordConformances_deref G Src Ext Protos W :
  is_Some (lookupGraph W G) ->
  is_Some (lookupGraph (recordConformances G Src Ext Protos W) G)
  /\ Nodes (deref (recordConformances G Src Ext Protos W) G) = Nodes (deref W G)
  /\ Edges (deref (recordConformances G Src Ext Protos W) G) =
       list_to_set (map (conformsToEdge Src) Protos) ∪ Edges (deref W G).
Proof.
  unfold recordConformances.
  revert W. induction Protos as [| P Ps IH]; intros W HG; simpl.
  - split; [exact HG |]. split; [reflexivity | set_solver].
  - set (W1 := updateGraph G _ W).
    assert (HG1 : is_Some (lookupGraph W1 G)) by (by apply lookupGraph_updateGraph_is_Some).
    destruct (IH W1 HG1) as (Hv & HN & HE).
    split; [exact Hv |]. rewrite HN, HE. unfold W1.
    rewrite deref_updateGraph by exact HG. simpl.
    split; [reflexivity |]. unfold conformsToEdge. set_solver.
Qed.

(** What the visit of an extension that is not skipped leaves in the graph
    [G] of the extended nominal, given the protocols the expansion of its
    clause returns: the extension's own node and extension-to edge when it
    is recorded as an extension, and one conforms-to edge per protocol. *)
Lemma walkToDeclPre_extension (fuel : nat) (W : Walker) (Ext N : Decl) (Protos : list Decl) :
  let W1 := (getModuleSymbolGraph W Ext).2 in
  let G := (getModuleSymbolGraph W1 N).1 in
  let W2 := (getModuleSymbolGraph W1 N).2 in
  let Src :=
    if shouldBeRecordedAsExtension Ext N then mkSymbol G (getAddr Ext) None
    else mkSymbol G (getAddr N) None in
  isUnavailableOrObsoleted Ext = false ->
  asExtensionDecl Ext = Some N ->
  isImplicitlyPrivate (deref W2 G) Ext = false ->
  isUnavailableOrObsoleted N = false ->
  expandConformances fuel (getInherited Ext) = Returned Protos ->
  exists W',
    walkToDeclPre fuel W Ext = Returned (true, W')
    /\ nodesOf W' G =
         (if shouldBeRecordedAsExtension Ext N then {[Src]} else ∅) ∪ nodesOf W G
    /\ edgesOf W' G =
         list_to_set (map (conformsToEdge Src) Protos)
         ∪ (if shouldBeRecordedAsExtension Ext N
            then {[mkEdge ExtensionTo Src (mkSymbol G (getAddr N) None)]} else ∅)
         ∪ edgesOf W G.
Proof.
  intros W1 G W2 Src HU HExt Hpriv HUN Hexp.
  assert (HK : isRecordedKind (getKind Ext) = true).
  { unfold asExtensionDecl in HExt. destruct (getKind Ext); try discriminate. reflexivity. }
  pose proof (getModuleSymbolGraph_valid W1 N) as HG. fold G W2 in HG.
  assert (Hbefore : nodesOf W2 G = nodesOf W G /\ edgesOf W2 G = edgesOf W G).
  { unfold W2, W1.
    destruct (getModuleSymbolGraph_contents (getModuleSymbolGraph W Ext).2 N G) as [-> ->].
    apply getModuleSymbolGraph_contents. }
  destruct Hbefore as [HbN HbE]. rewrite <- HbN, <- HbE.
  rewrite (nodesOf_deref W2 G HG), (edgesOf_deref W2 G HG).
  unfold walkToDeclPre. rewrite HU, HK. simpl.
  destruct (getModuleSymbolGraph W Ext) as [SG W1'] eqn:E1. simpl in W1. subst W1.
  rewrite HExt. unfold walkExtension.
  destruct (getModuleSymbolGraph W1' N) as [G' W2'] eqn:E2. simpl in G, W2. subst G W2.
  rewrite Hpriv, HUN.
  set (W3 := if shouldBeRecordedAsExtension Ext N then _ else W2').
  assert (H3 : is_Some (lookupGraph W3 G')
            /\ Nodes (deref W3 G') =
                 (if shouldBeRecordedAsExtension Ext N then {[Src]} else ∅)
                 ∪ Nodes (deref W2' G')
            /\ Edges (deref W3 G') =
                 (if shouldBeRecordedAsExtension Ext N
                  then {[mkEdge ExtensionTo Src (mkSymbol G' (getAddr N) None)]} else ∅)
                 ∪ Edges (deref W2' G')).
  { unfold W3, Src. destruct (shouldBeRecordedAsExtension Ext N).
    - split; [by do 2 apply lookupGraph_updateGraph_is_Some |].
      rewrite !deref_updateGraph by (try apply lookupGraph_updateGraph_is_Some; exact HG).
      simpl. split; reflexivity.
    - split; [exact HG |]. split; set_solver. }
  destruct H3 as (HG3 & HN3 & HE3).
  destruct (getInherited Ext) as [| e es] eqn:EI.
  - exists W3. split; [reflexivity |].
    rewrite (nodesOf_deref W3 G' HG3), (edgesOf_deref W3 G' HG3).
    split; [exact HN3 |].
    assert (Protos = []) as ->.
    { unfold expandConformances in Hexp. simpl in Hexp.
      destruct fuel; simpl in Hexp; congruence. }
    rewrite HE3. simpl. set_solver.
  - rewrite Hexp. fold Src.
    destruct (recordConformances_deref G' Src Ext Protos W3 HG3) as (HG4 & HN4 & HE4).
    eexists. split; [reflexivity |].
    destruct (negb (sameModulePtr (getModuleContext N) M)).
    + rewrite nodesOf_deref, edgesOf_deref
        by (apply lookupGraph_updateGraph_is_Some; exact HG4).
      rewrite deref_updateGraph by exact HG4. simpl.
      rewrite HN4, HE4, HN3, HE3. split; [reflexivity | set_solver].
    + rewrite (nodesOf_deref _ G' HG4), (edgesOf_deref _ G' HG4).
      rewrite HN4, HE4, HN3, HE3. split; [reflexivity | set_solver].
Qed.

Lemma expandLoop_step (fuel : nat) (L L' : Worklists) :
  pending L = true ->
  expandStep L = Some L' ->
  expandLoop (S fuel) L = expandLoop fuel L'.
Proof. intros Hp Hs. simpl. rewrite Hp, Hs. reflexivity. Qed.

Lemma expandLoop_done (fuel : nat) (L : Worklists) :
  pending L = false -> expandLoop fuel L = Returned L.
Proof. intros Hp. destruct fuel; simpl; rewrite Hp; reflexivity. Qed.

(** The expansion of [A & B] where [B] inherits [C]: four turns give
    [B], [C], [A]. *)
Lemma expandConformances_composite (Inherited : list TypeLoc) (A B C : Decl) (fuel : nat) :
  getKind A = Protocol -> getKind B = Protocol -> getKind C = Protocol ->
  Inherited = [mkTypeLoc (Some (CompositionType [NominalType A; NominalType B]))] ->
  getInherited A = [] ->
  getInherited B = [mkTypeLoc (Some (NominalType C))] ->
  getInherited C = [] ->
  4 <= fuel ->
  expandConformances fuel Inherited = Returned [B; C; A].
Proof.
  intros HkA HkB HkC -> HiA HiB HiC Hfuel.
  do 4 (destruct fuel as [| fuel]; [lia |]).
  assert (Hloop : expandLoop (S (S (S (S fuel))))
                    (mkWorklists [] [] [mkComposition [NominalType A; NominalType B]])
                  = Returned (mkWorklists [B; C; A] [] [])).
  { (* the composition, then B (whose clause names C), then C, then A *)
    do 4 (etransitivity;
          [ apply expandLoop_step;
            [ reflexivity
            | unfold expandStep; simpl; rewrite ?HiA, ?HiB, ?HiC; simpl;
              repeat (unfold HandleProtocolOrComposition at 1; simpl;
                      rewrite ?HkA, ?HkB, ?HkC; simpl);
              reflexivity ]
          | ]).
    apply expandLoop_done. reflexivity. }
  change (match expandLoop (S (S (S (S fuel))))
                  (mkWorklists [] [] [mkComposition [NominalType A; NominalType B]]) with
          | Returned L' => Returned (Protocols L')
          | Aborted => Aborted
          | OutOfFuel => OutOfFuel
          end = Returned [B; C; A]).
  rewrite Hloop. reflexivity.
Qed.

(** C2.  An extension states [A & B], where [B] inherits [C] and the three
    protocols inherit nothing else.  When its visit reaches the expansion
    (the extension and the extended nominal are available and the extension
    is not private), the expansion returns [B], [C], [A], that is the set
    {A, B, C}, and the graph of the extended nominal gains exactly three
    conforms-to edges: from the chosen source symbol to the main-graph
    symbols of [A], [B] and [C]. *)
Theorem composite_conformance_edges (W : Walker) (Ext N A B C : Decl) (fuel : nat) :
  let W1 := (getModuleSymbolGraph W Ext).2 in
  let G := (getModuleSymbolGraph W1 N).1 in
  let W2 := (getModuleSymbolGraph W1 N).2 in
  let Src :=
    if shouldBeRecordedAsExtension Ext N then mkSymbol G (getAddr Ext) None
    else mkSymbol G (getAddr N) None in
  let edgeTo (P : Decl) := mkEdge ConformsTo Src (mkSymbol MainGraphRef (getAddr P) None) in
  getKind A = Protocol -> getKind B = Protocol -> getKind C = Protocol ->
  getInherited Ext = [mkTypeLoc (Some (CompositionType [NominalType A; NominalType B]))] ->
  getInherited A = [] ->
  getInherited B = [mkTypeLoc (Some (NominalType C))] ->
  getInherited C = [] ->
  getAddr A <> getAddr B -> getAddr A <> getAddr C -> getAddr B <> getAddr C ->
  isUnavailableOrObsoleted Ext = false ->
  asExtensionDecl Ext = Some N ->
  isImplicitlyPrivate (deref W2 G) Ext = false ->
  isUnavailableOrObsoleted N = false ->
  4 <= fuel ->
  exists Protos W',
    expandConformances fuel (getInherited Ext) = Returned Protos
    /\ (forall P, In P Protos <-> P = A \/ P = B \/ P = C)
    /\ walkToDeclPre fuel W Ext = Returned (true, W')
    /\ filter (fun e => EdgeKind e = ConformsTo) (edgesOf W' G) =
         {[edgeTo A; edgeTo B; edgeTo C]}
         ∪ filter (fun e => EdgeKind e = ConformsTo) (edgesOf W G)
    /\ size ({[edgeTo A; edgeTo B; edgeTo C]} : gset Edge) = 3.
Proof.
  intros W1 G W2 Src edgeTo HkA HkB HkC HiE HiA HiB HiC HAB HAC HBC HU HExt Hpriv HUN Hfuel.
  assert (Hexp : expandConformances fuel (getInherited Ext) = Returned [B; C; A]).
  { apply expandConformances_composite; assumption. }
  destruct (walkToDeclPre_extension fuel W Ext N [B; C; A] HU HExt Hpriv HUN Hexp)
    as (W' & Hwalk & _ & HE).
  exists [B; C; A], W'. split; [exact Hexp |]. split.
  { intros P. simpl. intuition congruence. }
  split; [exact Hwalk |]. split.
  - subst edgeTo Src W2 G W1. cbv zeta beta in *.
    set (G := (getModuleSymbolGraph _ N).1) in *.
    set (Src := if shouldBeRecordedAsExtension Ext N then _ else _) in *.
    rewrite HE. simpl. unfold conformsToEdge.
    apply set_eq. intros e. rewrite !elem_of_union, !elem_of_filter, !elem_of_union.
    destruct (shouldBeRecordedAsExtension Ext N); set_solver.
  - assert (edgeTo A <> edgeTo B) by (unfold edgeTo; congruence).
    assert (edgeTo A <> edgeTo C) by (unfold edgeTo; congruence).
    assert (edgeTo B <> edgeTo C) by (unfold edgeTo; congruence).
    rewrite !size_union, !size_singleton by set_solver. reflexivity.
Qed.

(** A visit of an extension that returns has had its clause expanded. *)
Lemma walkToDeclPre_extension_returned (fuel : nat) (W : Walker) (Ext N : Decl)
    (b : bool) (W' : Walker) :
  asExtensionDecl Ext = Some N ->
  walkToDeclPre fuel W Ext = Returned (b, W') ->
  b = false \/ exists Protos, expandConformances fuel (getInherited Ext) = Returned Protos.
Proof.
  intros HExt. unfold walkToDeclPre.
  destruct (isUnavailableOrObsoleted Ext); [intros [= <- _]; auto |].
  assert (HK : isRecordedKind (getKind Ext) = true).
  { unfold asExtensionDecl in HExt. destruct (getKind Ext); try discriminate. reflexivity. }
  rewrite HK. simpl.
  destruct (getModuleSymbolGraph W Ext) as [SG W1]. rewrite HExt. unfold walkExtension.
  destruct (getModuleSymbolGraph W1 N) as [G W2].
  destruct (isImplicitlyPrivate (deref W2 G) Ext); [intros [= <- _]; auto |].
  destruct (isUnavailableOrObsoleted N); [intros [= <- _]; auto |].
  destruct (getInherited Ext) as [| e es].
  - intros _. right. exists []. unfold expandConformances. simpl.
    rewrite expandLoop_done by reflexivity. reflexivity.
  - destruct (expandConformances fuel (e :: es)) as [Protos | |]; try discriminate.
    intros _. right. exists Protos. reflexivity.
Qed.


(** *** More on graph resolution *)

Lemma getModuleSymbolGraph_name W D n :
  (getModuleSymbolGraph W D).1 = ExtendedGraphRef n ->
  n = getNameStr (owningModule D).1
  /\ areModulesEqual M (owningModule D).1 true = false
  /\ is_Some (ExtendedModuleGraphs (getModuleSymbolGraph W D).2 !! n).
Proof.
  unfold getModuleSymbolGraph. destruct (owningModule D) as [M' N]. simpl.
  destruct (areModulesEqual M M' true); [discriminate |].
  repeat case_match; simpl; try discriminate; intros [= <-];
    (split; [reflexivity |]; split; [reflexivity |]);
    first [ eexists; eassumption | rewrite lookup_insert_eq; eexists; reflexivity ].
Qed.

Lemma getModuleSymbolGraph_present W D n :
  (getModuleSymbolGraph W D).1 = ExtendedGraphRef n ->
  is_Some (ExtendedModuleGraphs W !! n) ->
  (getModuleSymbolGraph W D).2 = W.
Proof.
  unfold getModuleSymbolGraph. destruct (owningModule D) as [M' N]. simpl.
  repeat case_match; simpl; try discriminate; try reflexivity;
    intros [= <-] [SG HSG]; congruence.
Qed.

(** X1.  Resolution caches: asking again for the same declaration answers the
    same graph and creates nothing. *)
Theorem getModuleSymbolGraph_cached (W : Walker) (D : Decl) :
  getModuleSymbolGraph (getModuleSymbolGraph W D).2 D = getModuleSymbolGraph W D.
Proof.
  unfold getModuleSymbolGraph. destruct (owningModule D) as [M' N].
  repeat (case_match; simpl in *; try reflexivity; try congruence).
  all: repeat match goal with
         | H : context [<[_ := _]> _ !! _] |- _ => rewrite lookup_insert_eq in H
         end; congruence.
Qed.

(** X2.  The registry is keyed by the owner's name alone: two declarations whose
    owners bear the same name, one perhaps foreign and the other native,
    share one extension graph, and resolving the second adds nothing. *)
Theorem extension_graph_shared_by_name (W : Walker) (D1 D2 : Decl) (n1 n2 : string) :
  (getModuleSymbolGraph W D1).1 = ExtendedGraphRef n1 ->
  (getModuleSymbolGraph (getModuleSymbolGraph W D1).2 D2).1 = ExtendedGraphRef n2 ->
  areModulesEqual (owningModule D1).1 (owningModule D2).1 true = true ->
  n1 = n2
  /\ (getModuleSymbolGraph (getModuleSymbolGraph W D1).2 D2).2 =
     (getModuleSymbolGraph W D1).2.
Proof.
  intros H1 H2 Heq.
  destruct (getModuleSymbolGraph_name W D1 n1 H1) as (-> & _ & Hin).
  destruct (getModuleSymbolGraph_name _ D2 n2 H2) as (-> & _ & _).
  apply areModulesEqual_true_names in Heq.
  split; [exact Heq |].
  apply (getModuleSymbolGraph_present _ D2 _ H2). rewrite <- Heq. exact Hin.
Qed.

(** X3.  No extension graph is ever made for the module under inspection, nor
    for the declaring module recorded in the main graph. *)
Theorem extension_graph_not_for_inspected_module (W : Walker) (D : Decl) (n : string) :
  (getModuleSymbolGraph W D).1 = ExtendedGraphRef n ->
  n <> getNameStr M
  /\ (forall DM, DeclaringModule (MainGraph W) = Some DM -> n <> getNameStr DM).
Proof.
  unfold getModuleSymbolGraph. destruct (owningModule D) as [M' N]. simpl.
  destruct (areModulesEqual M M' true) eqn:E1; [discriminate |].
  destruct (DeclaringModule (MainGraph W)) as [DM |] eqn:EDM.
  - destruct (areModulesEqual DM M' true) eqn:E2; [discriminate |].
    intros Hn.
    assert (n = getNameStr M') as ->.
    { revert Hn. repeat case_match; simpl; try discriminate; congruence. }
    split.
    + intros Heq. unfold areModulesEqual in E1. rewrite <- Heq in E1.
      rewrite String.eqb_refl in E1. discriminate.
    + intros DM' [= <-] Heq. unfold areModulesEqual in E2. rewrite <- Heq in E2.
      rewrite String.eqb_refl in E2. discriminate.
  - intros Hn.
    assert (n = getNameStr M') as ->.
    { revert Hn. repeat case_match; simpl; try discriminate; congruence. }
    split; [| discriminate].
    intros Heq. unfold areModulesEqual in E1. rewrite <- Heq in E1.
    rewrite String.eqb_refl in E1. discriminate.
Qed.

(** X4.  Resolution records nothing: it leaves the main graph and every existing
    extension graph as they are, and the one graph it may create, under the
    owner's name, is empty. *)
Theorem getModuleSymbolGraph_records_nothing (W : Walker) (D : Decl) :
  let W' := (getModuleSymbolGraph W D).2 in
  MainGraph W' = MainGraph W
  /\ (forall G SG, lookupGraph W G = Some SG -> lookupGraph W' G = Some SG)
  /\ (forall G, nodesOf W' G = nodesOf W G /\ edgesOf W' G = edgesOf W G)
  /\ (forall n, n ∈ dom (ExtendedModuleGraphs W') ->
         n ∈ dom (ExtendedModuleGraphs W) \/ n = getNameStr (owningModule D).1).
Proof.
  intros W'. split; [apply getModuleSymbolGraph_MainGraph |].
  split; [intros G SG; apply getModuleSymbolGraph_preserves |].
  split; [intros G; apply getModuleSymbolGraph_contents |].
  subst W'. unfold getModuleSymbolGraph. destruct (owningModule D) as [M' N]. simpl.
  intros n. repeat case_match; simpl; auto.
  all: rewrite dom_insert_L; set_solver.
Qed.

(** X5.  A declaration that is re-exported by name, in the set of any module, is
    resolved to the main graph wherever it is written. *)
Theorem qualified_export_in_main_graph (W : Walker) (D : Decl)
    (QI : ModuleDecl * gset DeclAddr) :
  In QI QualifiedExportedImports ->
  getAddr D ∈ QI.2 ->
  getModuleSymbolGraph W D = (MainGraphRef, W).
Proof.
  intros HIn Hmem.
  assert (HQ : isQualifiedExportedImport D = true).
  { unfold isQualifiedExportedImport. apply existsb_exists. exists QI.
    split; [exact HIn |]. by apply bool_decide_eq_true. }
  unfold getModuleSymbolGraph. destruct (owningModule D) as [M' N].
  rewrite HQ, orb_true_r. repeat (case_match; try reflexivity).
Qed.

Lemma getModuleSymbolGraph_records_nothing_aux W D :
  (forall G, nodesOf (getModuleSymbolGraph W D).2 G = nodesOf W G
             /\ edgesOf (getModuleSymbolGraph W D).2 G = edgesOf W G)
  /\ dom (ExtendedModuleGraphs W) ⊆ dom (ExtendedModuleGraphs (getModuleSymbolGraph W D).2)
  /\ (forall n, n ∈ dom (ExtendedModuleGraphs (getModuleSymbolGraph W D).2) ->
         n ∈ dom (ExtendedModuleGraphs W) \/ n <> getNameStr M).
Proof.
  split; [intros G; apply getModuleSymbolGraph_contents |].
  unfold getModuleSymbolGraph. destruct (owningModule D) as [M' N]. simpl.
  destruct (areModulesEqual M M' true) eqn:E1; simpl; [split; [reflexivity | auto] |].
  assert (Hne : getNameStr M' <> getNameStr M).
  { intros Heq. unfold areModulesEqual in E1. rewrite Heq, String.eqb_refl in E1.
    discriminate. }
  repeat case_match; simpl; try (split; [reflexivity | auto]).
  all: rewrite dom_insert_L; split; [set_solver |];
    intros n Hn; apply elem_of_union in Hn as [Hn | Hn]; [| auto];
      apply elem_of_singleton in Hn; subst n; auto.
Qed.

(** *** Everything a visit does *)

Lemma lookupGraph_updateGraph W G f G' :
  lookupGraph (updateGraph G f W) G' =
  if decide (G = G') then f <$> lookupGraph W G' else lookupGraph W G'.
Proof.
  destruct G as [| n], G' as [| n']; simpl; try reflexivity.
  destruct (decide (n = n')) as [-> | Hne].
  - rewrite lookup_alter_eq. rewrite decide_True by reflexivity. reflexivity.
  - rewrite lookup_alter_ne by assumption. rewrite decide_False by congruence. reflexivity.
Qed.

Lemma recordConformances_ops G d Ext Protos W :
  is_Some (lookupGraph W G) ->
  rtc WalkerOp W (recordConformances G (mkSymbol G d None) Ext Protos W).
Proof.
  unfold recordConformances.
  revert W. induction Protos as [| P Ps IH]; intros W HG; simpl; [constructor |].
  eapply rtc_l; [apply (OpRecordConformsTo W G d (getAddr P) (Some (getAddr Ext)) HG) |].
  apply IH. by apply lookupGraph_updateGraph_is_Some.
Qed.

Lemma walkToDeclPre_ops fuel W D b W' :
  walkToDeclPre fuel W D = Returned (b, W') -> rtc WalkerOp W W'.
Proof.
  unfold walkToDeclPre.
  destruct (isUnavailableOrObsoleted D); [intros [= _ <-]; constructor |].
  destruct (negb (isRecordedKind (getKind D))); [intros [= _ <-]; constructor |].
  pose proof (OpResolve W D) as H1.
  pose proof (getModuleSymbolGraph_valid W D) as Hv1.
  destruct (getModuleSymbolGraph W D) as [SG W1]. simpl in *. intros H.
  eapply rtc_l; [exact H1 |]. clear H1.
  destruct (asExtensionDecl D) as [N |].
  - unfold walkExtension in H.
    pose proof (OpResolve W1 N) as H2.
    pose proof (getModuleSymbolGraph_valid W1 N) as Hv2.
    destruct (getModuleSymbolGraph W1 N) as [G W2]. simpl in *.
    eapply rtc_l; [exact H2 |]. clear H2.
    destruct (isImplicitlyPrivate (deref W2 G) D); [injection H as _ <-; constructor |].
    destruct (isUnavailableOrObsoleted N); [injection H as _ <-; constructor |].
    set (d := if shouldBeRecordedAsExtension D N then getAddr D else getAddr N).
    assert (HSrc : (if shouldBeRecordedAsExtension D N
                    then mkSymbol G (getAddr D) None
                    else mkSymbol G (getAddr N) None) = mkSymbol G d None).
    { unfold d. destruct (shouldBeRecordedAsExtension D N); reflexivity. }
    rewrite HSrc in H.
    set (W3 := if shouldBeRecordedAsExtension D N then _ else W2) in H.
    assert (H3 : rtc WalkerOp W2 W3 /\ is_Some (lookupGraph W3 G)).
    { unfold W3. destruct (shouldBeRecordedAsExtension D N); [| split; [constructor | exact Hv2]].
      split.
      - eapply rtc_l; [apply (OpRecordNode W2 G d Hv2) |].
        apply rtc_once. apply OpRecordExtensionTo.
        by apply lookupGraph_updateGraph_is_Some.
      - by do 2 apply lookupGraph_updateGraph_is_Some. }
    destruct H3 as [H3 Hv3]. etransitivity; [exact H3 |]. clearbody W3.
    destruct (getInherited D) as [| e es]; [injection H as _ <-; constructor |].
    destruct (expandConformances fuel (e :: es)) as [Protos | |]; try discriminate.
    injection H as _ <-.
    pose proof (recordConformances_ops G d D Protos W3 Hv3) as H4.
    destruct (recordConformances_deref G (mkSymbol G d None) D Protos W3 Hv3) as (Hv4 & _).
    etransitivity; [exact H4 |].
    destruct (negb (sameModulePtr (getModuleContext N) M)); [| constructor].
    apply rtc_once. by apply OpSynthesized.
  - injection H as H. unfold walkValueDecl in H.
    destruct (negb (canIncludeDeclAsNode (deref W1 SG) D)); [injection H as _ <-; constructor |].
    destruct ((getDeclContext D ≫= getAsDecl) ≫= asExtensionDecl) as [N |].
    + pose proof (OpResolve W1 N) as H2.
      pose proof (getModuleSymbolGraph_valid W1 N) as Hv2.
      assert (Hv1' : is_Some (lookupGraph (getModuleSymbolGraph W1 N).2 SG)).
      { destruct Hv1 as [g Hg]. exists g. by apply getModuleSymbolGraph_preserves. }
      destruct (getModuleSymbolGraph W1 N) as [G W2]. simpl in *.
      eapply rtc_l; [exact H2 |].
      destruct (negb (sameModulePtr (getModuleContext N) M));
        injection H as _ <-; apply rtc_once; by apply OpRecordNode.
    + injection H as _ <-. apply rtc_once. by apply OpRecordNode.
Qed.

Lemma visits_ops W W' : rtc visitStep W W' -> rtc WalkerOp W W'.
Proof.
  induction 1 as [| W W1 W' (fuel & D & b & Hv) _ IH]; [constructor |].
  etransitivity; [exact (walkToDeclPre_ops _ _ _ _ _ Hv) | exact IH].
Qed.

Lemma nodesOf_updateGraph W G f G' :
  nodesOf (updateGraph G f W) G' =
  if decide (G = G')
  then match lookupGraph W G' with Some SG => Nodes (f SG) | None => ∅ end
  else nodesOf W G'.
Proof.
  unfold nodesOf. rewrite lookupGraph_updateGraph.
  destruct (decide (G = G')); [| reflexivity]. by destruct (lookupGraph W G').
Qed.

Lemma edgesOf_updateGraph W G f G' :
  edgesOf (updateGraph G f W) G' =
  if decide (G = G')
  then match lookupGraph W G' with Some SG => Edges (f SG) | None => ∅ end
  else edgesOf W G'.
Proof.
  unfold edgesOf. rewrite lookupGraph_updateGraph.
  destruct (decide (G = G')); [| reflexivity]. by destruct (lookupGraph W G').
Qed.

Lemma dom_updateGraph W G f :
  dom (ExtendedModuleGraphs (updateGraph G f W)) = dom (ExtendedModuleGraphs W).
Proof. destruct G; simpl; [reflexivity | apply dom_alter_L]. Qed.

(** What one primitive effect changes, graph by graph. *)
Lemma WalkerOp_effect W W' :
  WalkerOp W W' ->
  (forall G, nodesOf W G ⊆ nodesOf W' G /\ edgesOf W G ⊆ edgesOf W' G)
  /\ dom (ExtendedModuleGraphs W) ⊆ dom (ExtendedModuleGraphs W')
  /\ (forall n, n ∈ dom (ExtendedModuleGraphs W') ->
         n ∈ dom (ExtendedModuleGraphs W) \/ n <> getNameStr M)
  /\ (SymbolsOwned W -> SymbolsOwned W').
Proof.
  intros Hop. destruct Hop as [W D | W G d HG | W G d t HG | W G d p ext HG | W G d HG].
  - destruct (getModuleSymbolGraph_records_nothing_aux W D) as (Hc & Hd).
    split; [intros G; destruct (Hc G) as [-> ->]; split; reflexivity |].
    split; [exact (proj1 Hd) |]. split; [exact (proj2 Hd) |].
    intros HO G. destruct (Hc G) as [-> ->]. apply HO.
  - split; [| split; [| split]].
    + intros G'. rewrite nodesOf_updateGraph, edgesOf_updateGraph.
      unfold nodesOf, edgesOf. destruct (decide (G = G')) as [<- |]; [| split; reflexivity].
      destruct (lookupGraph W G) as [g |]; simpl; split; set_solver.
    + rewrite dom_updateGraph. reflexivity.
    + intros n. rewrite dom_updateGraph. auto.
    + intros HO G'. specialize (HO G'). revert HO.
      rewrite nodesOf_updateGraph, edgesOf_updateGraph. unfold nodesOf, edgesOf.
      destruct (decide (G = G')) as [<- |]; [| auto].
      destruct (lookupGraph W G) as [g |]; simpl; [| auto]. intros [HN HE]. split; [| exact HE].
      intros s Hs. apply elem_of_union in Hs as [Hs | Hs]; [| auto].
      apply elem_of_singleton in Hs. subst s. auto.
  - split; [| split; [| split]].
    + intros G'. rewrite nodesOf_updateGraph, edgesOf_updateGraph.
      unfold nodesOf, edgesOf. destruct (decide (G = G')) as [<- |]; [| split; reflexivity].
      destruct (lookupGraph W G) as [g |]; simpl; split; set_solver.
    + rewrite dom_updateGraph. reflexivity.
    + intros n. rewrite dom_updateGraph. auto.
    + intros HO G'. specialize (HO G'). revert HO.
      rewrite nodesOf_updateGraph, edgesOf_updateGraph. unfold nodesOf, edgesOf.
      destruct (decide (G = G')) as [<- |]; [| auto].
      destruct (lookupGraph W G) as [g |]; simpl; [| auto]. intros [HN HE]. split; [exact HN |].
      intros e He. apply elem_of_union in He as [He | He]; [| auto].
      apply elem_of_singleton in He. subst e. auto.
  - split; [| split; [| split]].
    + intros G'. rewrite nodesOf_updateGraph, edgesOf_updateGraph.
      unfold nodesOf, edgesOf. destruct (decide (G = G')) as [<- |]; [| split; reflexivity].
      destruct (lookupGraph W G) as [g |]; simpl; split; set_solver.
    + rewrite dom_updateGraph. reflexivity.
    + intros n. rewrite dom_updateGraph. auto.
    + intros HO G'. specialize (HO G'). revert HO.
      rewrite nodesOf_updateGraph, edgesOf_updateGraph. unfold nodesOf, edgesOf.
      destruct (decide (G = G')) as [<- |]; [| auto].
      destruct (lookupGraph W G) as [g |]; simpl; [| auto]. intros [HN HE]. split; [exact HN |].
      intros e He. apply elem_of_union in He as [He | He]; [| auto].
      apply elem_of_singleton in He. subst e. auto.
  - split; [| split; [| split]].
    + intros G'. rewrite nodesOf_updateGraph, edgesOf_updateGraph.
      unfold nodesOf, edgesOf. destruct (decide (G = G')) as [<- |]; [| split; reflexivity].
      destruct (lookupGraph W G) as [g |]; simpl; split; set_solver.
    + rewrite dom_updateGraph. reflexivity.
    + intros n. rewrite dom_updateGraph. auto.
    + intros HO G'. specialize (HO G'). revert HO.
      rewrite nodesOf_updateGraph, edgesOf_updateGraph. unfold nodesOf, edgesOf.
      destruct (decide (G = G')) as [<- |]; [| auto].
      destruct (lookupGraph W G) as [g |]; simpl; auto.
Qed.

Lemma WalkerOps_effect W W' :
  rtc WalkerOp W W' ->
  (forall G, nodesOf W G ⊆ nodesOf W' G /\ edgesOf W G ⊆ edgesOf W' G)
  /\ dom (ExtendedModuleGraphs W) ⊆ dom (ExtendedModuleGraphs W')
  /\ (forall n, n ∈ dom (ExtendedModuleGraphs W') ->
         n ∈ dom (ExtendedModuleGraphs W) \/ n <> getNameStr M)
  /\ (SymbolsOwned W -> SymbolsOwned W').
Proof.
  induction 1 as [W | W W1 W' Hop _ IH].
  - split; [intros G; split; reflexivity |]. split; [reflexivity |]. auto.
  - destruct (WalkerOp_effect _ _ Hop) as (H1 & H2 & H3 & H4).
    destruct IH as (I1 & I2 & I3 & I4).
    split; [| split; [| split]].
    + intros G. destruct (H1 G), (I1 G). split; set_solver.
    + set_solver.
    + intros n Hn. destruct (I3 n Hn) as [Hn1 | ?]; [| auto]. apply (H3 n Hn1).
    + auto.
Qed.

Lemma requestsOf_updateGraph W G f G' :
  requestsOf (updateGraph G f W) G' =
  if decide (G = G')
  then match lookupGraph W G' with Some SG => SynthesizedMemberRequests (f SG) | None => [] end
  else requestsOf W G'.
Proof.
  unfold requestsOf. rewrite lookupGraph_updateGraph.
  destruct (decide (G = G')); [| reflexivity]. by destruct (lookupGraph W G').
Qed.

Lemma getModuleSymbolGraph_requests W D G :
  requestsOf (getModuleSymbolGraph W D).2 G = requestsOf W G.
Proof.
  unfold getModuleSymbolGraph. destruct (owningModule D) as [M' N].
  repeat case_match; simpl; try reflexivity;
    (unfold requestsOf; destruct G as [| n]; simpl; [reflexivity |];
     destruct (decide (getNameStr M' = n)) as [<- | Hne];
     [ rewrite lookup_insert_eq; simpl;
       match goal with H : _ !! _ = None |- _ => rewrite H end; reflexivity
     | rewrite lookup_insert_ne by assumption; reflexivity ]).
Qed.

Lemma recordConformances_other G Src Ext Protos W G' :
  is_Some (lookupGraph W G) ->
  nodesOf (recordConformances G Src Ext Protos W) G' = nodesOf W G'
  /\ requestsOf (recordConformances G Src Ext Protos W) G' = requestsOf W G'
  /\ edgesOf (recordConformances G Src Ext Protos W) G' =
       (if decide (G = G') then list_to_set (map (conformsToEdge Src) Protos) else ∅)
       ∪ edgesOf W G'.
Proof.
  unfold recordConformances.
  revert W. induction Protos as [| P Ps IH]; intros W HG; simpl.
  - split; [reflexivity |]. split; [reflexivity |]. destruct (decide (G = G')); set_solver.
  - set (W1 := updateGraph G _ W).
    assert (HG1 : is_Some (lookupGraph W1 G)) by (by apply lookupGraph_updateGraph_is_Some).
    destruct (IH W1 HG1) as (HN & HR & HE). rewrite HN, HR, HE. unfold W1.
    rewrite nodesOf_updateGraph, requestsOf_updateGraph, edgesOf_updateGraph.
    unfold nodesOf, requestsOf, edgesOf, conformsToEdge.
    destruct (decide (G = G')) as [<- |]; [| repeat split; reflexivity].
    destruct HG as [g Hg]. rewrite Hg. simpl. repeat split; set_solver.
Qed.

(** The whole effect of the visit of an extension that is not skipped, on
    any graph [G']: only the graph [G] of the extended nominal changes.  It
    gains the extension's node and extension-to edge when the extension is
    recorded as such, one conforms-to edge for each expanded protocol, and a
    request for synthesized members when the clause is not empty and the
    nominal's module is not the module under inspection. *)
Lemma walkToDeclPre_extension_everywhere (fuel : nat) (W : Walker) (Ext N : Decl)
    (Protos : list Decl) :
  let W1 := (getModuleSymbolGraph W Ext).2 in
  let G := (getModuleSymbolGraph W1 N).1 in
  let W2 := (getModuleSymbolGraph W1 N).2 in
  let Src :=
    if shouldBeRecordedAsExtension Ext N then mkSymbol G (getAddr Ext) None
    else mkSymbol G (getAddr N) None in
  isUnavailableOrObsoleted Ext = false ->
  asExtensionDecl Ext = Some N ->
  isImplicitlyPrivate (deref W2 G) Ext = false ->
  isUnavailableOrObsoleted N = false ->
  expandConformances fuel (getInherited Ext) = Returned Protos ->
  exists W',
    walkToDeclPre fuel W Ext = Returned (true, W')
    /\ forall G',
        nodesOf W' G' =
          (if decide (G = G')
           then if shouldBeRecordedAsExtension Ext N then {[Src]} else ∅
           else ∅) ∪ nodesOf W G'
        /\ edgesOf W' G' =
          (if decide (G = G')
           then list_to_set (map (conformsToEdge Src) Protos)
                ∪ (if shouldBeRecordedAsExtension Ext N
                   then {[mkEdge ExtensionTo Src (mkSymbol G (getAddr N) None)]} else ∅)
           else ∅) ∪ edgesOf W G'
        /\ requestsOf W' G' =
          requestsOf W G'
          ++ (if decide (G = G')
              then match getInherited Ext with
                   | [] => []
                   | _ => if sameModulePtr (getModuleContext N) M then [] else [Src]
                   end
              else []).
Proof.
  intros W1 G W2 Src HU HExt Hpriv HUN Hexp.
  assert (HK : isRecordedKind (getKind Ext) = true).
  { unfold asExtensionDecl in HExt. destruct (getKind Ext); try discriminate. reflexivity. }
  pose proof (getModuleSymbolGraph_valid W1 N) as HG. fold G W2 in HG.
  assert (Hbefore : forall G', nodesOf W2 G' = nodesOf W G' /\ edgesOf W2 G' = edgesOf W G'
                               /\ requestsOf W2 G' = requestsOf W G').
  { intros G'. unfold W2, W1.
    destruct (getModuleSymbolGraph_contents (getModuleSymbolGraph W Ext).2 N G') as [-> ->].
    destruct (getModuleSymbolGraph_contents W Ext G') as [-> ->].
    rewrite !getModuleSymbolGraph_requests. auto. }
  unfold walkToDeclPre. rewrite HU, HK. simpl.
  destruct (getModuleSymbolGraph W Ext) as [SG W1'] eqn:E1. simpl in W1. subst W1.
  rewrite HExt. unfold walkExtension.
  destruct (getModuleSymbolGraph W1' N) as [G0 W2'] eqn:E2. simpl in G, W2. subst G W2.
  rewrite Hpriv, HUN. fold Src.
  set (W3 := if shouldBeRecordedAsExtension Ext N then _ else W2').
  assert (H3 : is_Some (lookupGraph W3 G0)
            /\ forall G',
                 nodesOf W3 G' =
                   (if decide (G0 = G')
                    then if shouldBeRecordedAsExtension Ext N then {[Src]} else ∅
                    else ∅) ∪ nodesOf W G'
                 /\ edgesOf W3 G' =
                   (if decide (G0 = G')
                    then if shouldBeRecordedAsExtension Ext N
                         then {[mkEdge ExtensionTo Src (mkSymbol G0 (getAddr N) None)]} else ∅
                    else ∅) ∪ edgesOf W G'
                 /\ requestsOf W3 G' = requestsOf W G').
  { unfold W3. destruct (shouldBeRecordedAsExtension Ext N).
    - split; [by do 2 apply lookupGraph_updateGraph_is_Some |]. intros G'.
      destruct (Hbefore G') as (HbN & HbE & HbR). rewrite <- HbN, <- HbE, <- HbR.
      rewrite !nodesOf_updateGraph, !edgesOf_updateGraph, !requestsOf_updateGraph,
        !lookupGraph_updateGraph.
      unfold nodesOf, edgesOf, requestsOf.
      destruct (decide (G0 = G')) as [<- |]; [| repeat split; set_solver].
      destruct HG as [g Hg]. rewrite Hg. simpl. repeat split; set_solver.
    - split; [exact HG |]. intros G'. destruct (Hbefore G') as (-> & -> & ->).
      destruct (decide (G0 = G')); repeat split; set_solver. }
  destruct H3 as (HG3 & H3). clearbody W3.
  destruct (getInherited Ext) as [| e es] eqn:EI.
  - exists W3. split; [reflexivity |]. intros G'.
    destruct (H3 G') as (-> & -> & ->).
    assert (Protos = []) as ->.
    { unfold expandConformances in Hexp. simpl in Hexp.
      destruct fuel; simpl in Hexp; congruence. }
    simpl. destruct (decide (G0 = G')); rewrite ?app_nil_r; repeat split; set_solver.
  - rewrite Hexp.
    destruct (recordConformances_deref G0 Src Ext Protos W3 HG3) as (HG4 & _).
    eexists. split; [reflexivity |]. intros G'.
    destruct (recordConformances_other G0 Src Ext Protos W3 G' HG3) as (HN4 & HR4 & HE4).
    destruct (H3 G') as (HN3 & HE3 & HR3).
    destruct (sameModulePtr (getModuleContext N) M); simpl.
    + rewrite HN4, HE4, HR4, HN3, HE3, HR3.
      destruct (decide (G0 = G')); rewrite ?app_nil_r; repeat split; set_solver.
    + rewrite nodesOf_updateGraph, edgesOf_updateGraph, requestsOf_updateGraph.
      unfold nodesOf, edgesOf, requestsOf in *.
      destruct (decide (G0 = G')) as [<- |].
      * destruct HG4 as [g4 Hg4]. rewrite Hg4 in *. simpl.
        rewrite HN4, HE4, HR4, HN3, HE3, HR3. repeat split; set_solver.
      * rewrite HN4, HE4, HR4, HN3, HE3, HR3, app_nil_r. repeat split; set_solver.
Qed.

Lemma pruned_visit_effect (fuel : nat) (W W' : Walker) (D : Decl) :
  walkToDeclPre fuel W D = Returned (false, W') ->
  forall G,
    nodesOf W' G = nodesOf W G
    /\ edgesOf W' G = edgesOf W G
    /\ requestsOf W' G = requestsOf W G.
Proof.
  unfold walkToDeclPre.
  destruct (isUnavailableOrObsoleted D); [intros [= <-]; auto |].
  destruct (negb (isRecordedKind (getKind D))); [discriminate |].
  assert (H1 : forall G, nodesOf (getModuleSymbolGraph W D).2 G = nodesOf W G
                         /\ edgesOf (getModuleSymbolGraph W D).2 G = edgesOf W G
                         /\ requestsOf (getModuleSymbolGraph W D).2 G = requestsOf W G).
  { intros G. destruct (getModuleSymbolGraph_contents W D G) as [-> ->].
    rewrite getModuleSymbolGraph_requests. auto. }
  destruct (getModuleSymbolGraph W D) as [SG W1]. simpl in H1.
  destruct (asExtensionDecl D) as [N |].
  - unfold walkExtension.
    assert (H2 : forall G, nodesOf (getModuleSymbolGraph W1 N).2 G = nodesOf W G
                           /\ edgesOf (getModuleSymbolGraph W1 N).2 G = edgesOf W G
                           /\ requestsOf (getModuleSymbolGraph W1 N).2 G = requestsOf W G).
    { intros G. destruct (getModuleSymbolGraph_contents W1 N G) as [-> ->].
      rewrite getModuleSymbolGraph_requests. apply H1. }
    destruct (getModuleSymbolGraph W1 N) as [G0 W2]. simpl in H2.
    destruct (isImplicitlyPrivate (deref W2 G0) D); [intros [= <-]; exact H2 |].
    destruct (isUnavailableOrObsoleted N); [intros [= <-]; exact H2 |].
    destruct (getInherited D); [discriminate |].
    destruct (expandConformances fuel _); discriminate.
  - unfold walkValueDecl.
    destruct (negb (canIncludeDeclAsNode (deref W1 SG) D)); [intros [= <-]; exact H1 |].
    destruct ((getDeclContext D ≫= getAsDecl) ≫= asExtensionDecl) as [N |]; [| discriminate].
    destruct (getModuleSymbolGraph W1 N) as [G0 W2].
    destruct (negb (sameModulePtr (getModuleContext N) M)); discriminate.
Qed.

(** X7.  A visit that prunes the subtree has recorded nothing: whichever of the
    four tests answered [false] (the declaration's availability, the
    extension's privacy, the availability of the extended nominal, the
    graph's node policy), every graph holds the nodes, edges and requests it
    held before. *)
Theorem pruned_visit_records_nothing (fuel : nat) (W W' : Walker) (D : Decl) :
  walkToDeclPre fuel W D = Returned (false, W') ->
  forall G,
    nodesOf W' G = nodesOf W G
    /\ edgesOf W' G = edgesOf W G
    /\ requestsOf W' G = requestsOf W G.
Proof. apply pruned_visit_effect. Qed.

(** X8.  An accepted declaration of a recorded kind other than an extension is
    recorded as exactly one node and never as an edge.  The node goes to the
    graph of the extended nominal when the declaration is written in an
    extension of a nominal whose module is not the module under inspection,
    and to the declaration's own graph otherwise; the node policy is asked of
    the declaration's own graph in both cases. *)
Theorem value_decl_recorded_once (fuel : nat) (W : Walker) (D : Decl) :
  let SG := (getModuleSymbolGraph W D).1 in
  let W1 := (getModuleSymbolGraph W D).2 in
  let target :=
    match (getDeclContext D ≫= getAsDecl) ≫= asExtensionDecl with
    | Some N =>
        if sameModulePtr (getModuleContext N) M then SG
        else (getModuleSymbolGraph W1 N).1
    | None => SG
    end in
  isUnavailableOrObsoleted D = false ->
  isRecordedKind (getKind D) = true ->
  asExtensionDecl D = None ->
  canIncludeDeclAsNode (deref W1 SG) D = true ->
  exists W',
    walkToDeclPre fuel W D = Returned (true, W')
    /\ forall G,
        nodesOf W' G =
          (if decide (target = G) then {[mkSymbol target (getAddr D) None]} else ∅)
          ∪ nodesOf W G
        /\ edgesOf W' G = edgesOf W G
        /\ requestsOf W' G = requestsOf W G.
Proof.
  intros SG W1 target HU HK HE Hinc.
  pose proof (getModuleSymbolGraph_valid W D) as Hv1. fold SG W1 in Hv1.
  assert (H1 : forall G, nodesOf W1 G = nodesOf W G /\ edgesOf W1 G = edgesOf W G
                         /\ requestsOf W1 G = requestsOf W G).
  { intros G. unfold W1. destruct (getModuleSymbolGraph_contents W D G) as [-> ->].
    rewrite getModuleSymbolGraph_requests. auto. }
  unfold walkToDeclPre. rewrite HU, HK. simpl.
  destruct (getModuleSymbolGraph W D) as [SG0 W10]. simpl in SG, W1. subst SG W1.
  rewrite HE. unfold walkValueDecl. rewrite Hinc. simpl.
  assert (Hrec : forall Wx Gx,
             is_Some (lookupGraph Wx Gx) ->
             (forall G, nodesOf Wx G = nodesOf W G /\ edgesOf Wx G = edgesOf W G
                        /\ requestsOf Wx G = requestsOf W G) ->
             forall G,
               nodesOf (updateGraph Gx (recordNode (mkSymbol Gx (getAddr D) None)) Wx) G =
                 (if decide (Gx = G) then {[mkSymbol Gx (getAddr D) None]} else ∅)
                 ∪ nodesOf W G
               /\ edgesOf (updateGraph Gx (recordNode (mkSymbol Gx (getAddr D) None)) Wx) G
                  = edgesOf W G
               /\ requestsOf (updateGraph Gx (recordNode (mkSymbol Gx (getAddr D) None)) Wx) G
                  = requestsOf W G).
  { intros Wx Gx [g Hg] Hx G. destruct (Hx G) as (HxN & HxE & HxR).
    rewrite <- HxN, <- HxE, <- HxR.
    rewrite nodesOf_updateGraph, edgesOf_updateGraph, requestsOf_updateGraph.
    unfold nodesOf, edgesOf, requestsOf.
    destruct (decide (Gx = G)) as [<- |]; [| repeat split; set_solver].
    rewrite Hg. simpl. repeat split; set_solver. }
  destruct ((getDeclContext D ≫= getAsDecl) ≫= asExtensionDecl) as [N |].
  - pose proof (getModuleSymbolGraph_valid W10 N) as Hv2.
    assert (Hv1' : is_Some (lookupGraph (getModuleSymbolGraph W10 N).2 SG0)).
    { destruct Hv1 as [g Hg]. exists g. by apply getModuleSymbolGraph_preserves. }
    assert (H2 : forall G, nodesOf (getModuleSymbolGraph W10 N).2 G = nodesOf W G
                           /\ edgesOf (getModuleSymbolGraph W10 N).2 G = edgesOf W G
                           /\ requestsOf (getModuleSymbolGraph W10 N).2 G = requestsOf W G).
    { intros G. destruct (getModuleSymbolGraph_contents W10 N G) as [-> ->].
      rewrite getModuleSymbolGraph_requests. apply H1. }
    subst target.
    destruct (getModuleSymbolGraph W10 N) as [G0 W2]. simpl in *.
    destruct (sameModulePtr (getModuleContext N) M); simpl;
      (eexists; split; [reflexivity |]); apply Hrec; assumption.
  - subst target. eexists. split; [reflexivity |]. apply Hrec; assumption.
Qed.

(** X9.  An extension that is not recorded as an extension (the option is off,
    or its module bears the name of the nominal's module) adds no node to any
    graph; what it adds are conforms-to edges in the graph of the extended
    nominal, from the nominal's own symbol. *)
Theorem unrecorded_extension_adds_no_node (fuel : nat) (W W' : Walker) (Ext N : Decl)
    (b : bool) :
  let W1 := (getModuleSymbolGraph W Ext).2 in
  let G := (getModuleSymbolGraph W1 N).1 in
  asExtensionDecl Ext = Some N ->
  shouldBeRecordedAsExtension Ext N = false ->
  walkToDeclPre fuel W Ext = Returned (b, W') ->
  forall G',
    nodesOf W' G' = nodesOf W G'
    /\ forall e, e ∈ edgesOf W' G' -> e ∉ edgesOf W G' ->
         G' = G /\ EdgeKind e = ConformsTo
         /\ Source e = mkSymbol G (getAddr N) None
         /\ Graph (Target e) = MainGraphRef.
Proof.
  intros W1 G HExt Hrec Hret G'.
  destruct b.
  2:{ destruct (pruned_visit_effect fuel W W' Ext Hret G') as (-> & -> & _).
      split; [reflexivity | intros e He Hne; contradiction]. }
  destruct (walkToDeclPre_extension_returned fuel W Ext N true W' HExt Hret)
    as [[=] | [Protos Hexp]].
  assert (Hreach : isUnavailableOrObsoleted Ext = false
                   /\ isImplicitlyPrivate (deref (getModuleSymbolGraph W1 N).2 G) Ext = false
                   /\ isUnavailableOrObsoleted N = false).
  { revert Hret. unfold walkToDeclPre.
    destruct (isUnavailableOrObsoleted Ext); [discriminate |].
    assert (HK : isRecordedKind (getKind Ext) = true).
    { unfold asExtensionDecl in HExt. destruct (getKind Ext); try discriminate. reflexivity. }
    rewrite HK. simpl. subst G W1.
    destruct (getModuleSymbolGraph W Ext) as [SG W1]. rewrite HExt. unfold walkExtension.
    simpl. destruct (getModuleSymbolGraph W1 N) as [G W2]. simpl.
    destruct (isImplicitlyPrivate (deref W2 G) Ext); [discriminate |].
    destruct (isUnavailableOrObsoleted N); [discriminate |]. auto. }
  destruct Hreach as (HU & Hpriv & HUN).
  destruct (walkToDeclPre_extension_everywhere fuel W Ext N Protos HU HExt Hpriv HUN Hexp)
    as (W'' & Hwalk & Heff).
  rewrite Hwalk in Hret. injection Hret as <-.
  destruct (Heff G') as (HN & HE & _). rewrite Hrec in HN, HE. fold W1 G in HN, HE.
  split; [rewrite HN; destruct (decide (G = G')); set_solver |].
  intros e He Hne. rewrite HE in He.
  destruct (decide (G = G')) as [<- |]; [| set_solver].
  assert (He' : e ∈ (list_to_set (map (conformsToEdge (mkSymbol G (getAddr N) None)) Protos)
                     : gset Edge)) by set_solver.
  apply elem_of_list_to_set, list_elem_of_In, in_map_iff in He' as (P & <- & _).
  repeat split; reflexivity.
Qed.

(** *** The expansion computes the implied conformances *)

Lemma ImpliedBy_nominal d p :
  getKind d = Protocol ->
  ImpliedBy (NominalType d) p <->
  p = d \/ exists T, In (mkTypeLoc (Some T)) (getInherited d) /\ ImpliedBy T p.
Proof.
  intros Hk. split.
  - inversion 1; subst; eauto.
  - intros [-> | (T & HT & HI)]; [by constructor | by econstructor].
Qed.

Lemma ImpliedBy_composition ms p :
  ImpliedBy (CompositionType ms) p <-> exists T, In T ms /\ ImpliedBy T p.
Proof.
  split.
  - inversion 1; subst; eauto.
  - intros (T & HT & HI). by econstructor.
Qed.

Lemma HandleProtocolOrComposition_stands T L L' :
  HandleProtocolOrComposition T L = Some L' ->
  protocolsPending L ->
  protocolsPending L'
  /\ forall p, StandsFor L' p <-> StandsFor L p \/ ImpliedBy T p.
Proof.
  unfold HandleProtocolOrComposition, protocolsPending, StandsFor.
  destruct T as [d | ms |]; simpl; [| | discriminate].
  - destruct (getKind d) eqn:K; try discriminate. intros [= <-] HP. simpl. split.
    + apply Forall_app. split; [exact HP |]. constructor; [exact K | constructor].
    + intros p. split.
      * intros [H | [(d' & Hd & HI) | H]]; auto.
        apply in_app_or in Hd as [Hd | [<- | []]]; eauto 6.
      * intros [[H | [(d' & Hd & HI) | H]] | H]; auto.
        -- right. left. exists d'. split; [apply in_or_app |]; auto.
        -- right. left. exists d. split; [apply in_or_app; simpl |]; auto.
  - intros [= <-] HP. simpl. split; [exact HP |].
    intros p. split.
    + intros [H | [H | (c & Hc & HI)]]; auto.
      apply in_app_or in Hc as [Hc | [<- | []]]; eauto 6.
    + intros [[H | [H | (c & Hc & HI)]] | H]; auto.
      * right. right. exists c. split; [apply in_or_app |]; auto.
      * right. right. exists (mkComposition ms). split; [apply in_or_app; simpl |]; auto.
Qed.

Lemma handleMembers_stands Members L L' :
  handleMembers Members L = Some L' ->
  protocolsPending L ->
  protocolsPending L'
  /\ forall p, StandsFor L' p <-> StandsFor L p \/ exists T, In T Members /\ ImpliedBy T p.
Proof.
  revert L. induction Members as [| T rest IH]; intros L; simpl.
  - intros [= <-] HP. split; [exact HP |]. intros p. split; [auto |].
    intros [H | (T & [] & _)]. exact H.
  - destruct (HandleProtocolOrComposition T L) as [L1 |] eqn:E; [| discriminate].
    intros Hrest HP.
    destruct (HandleProtocolOrComposition_stands T L L1 E HP) as (HP1 & H1).
    destruct (IH L1 Hrest HP1) as (HP' & H'). split; [exact HP' |].
    intros p. rewrite H', H1. split.
    + intros [[H | H] | (T' & HT' & HI)]; eauto 6.
    + intros [H | (T' & [<- | HT'] & HI)]; eauto 6.
Qed.

Lemma handleInherited_stands Inherited L L' :
  handleInherited Inherited L = Some L' ->
  protocolsPending L ->
  protocolsPending L'
  /\ forall p, StandsFor L' p <->
       StandsFor L p \/ exists T, In (mkTypeLoc (Some T)) Inherited /\ ImpliedBy T p.
Proof.
  revert L. induction Inherited as [| [[T |]] rest IH]; intros L; simpl.
  - intros [= <-] HP. split; [exact HP |]. intros p. split; [auto |].
    intros [H | (T & [] & _)]. exact H.
  - destruct (HandleProtocolOrComposition T L) as [L1 |] eqn:E; [| discriminate].
    intros Hrest HP.
    destruct (HandleProtocolOrComposition_stands T L L1 E HP) as (HP1 & H1).
    destruct (IH L1 Hrest HP1) as (HP' & H'). split; [exact HP' |].
    intros p. rewrite H', H1. split.
    + intros [[H | H] | (T' & HT' & HI)]; eauto 6.
    + intros [H | (T' & [[= <-] | HT'] & HI)]; eauto 6.
  - intros Hrest HP. destruct (IH L Hrest HP) as (HP' & H'). split; [exact HP' |].
    intros p. rewrite H'. split.
    + intros [H | (T' & HT' & HI)]; eauto 6.
    + intros [H | (T' & [[=] | HT'] & HI)]; eauto 6.
Qed.

(** A turn of the loop keeps what the worklists stand for. *)
Lemma expandStep_stands L L' :
  expandStep L = Some L' ->
  protocolsPending L ->
  protocolsPending L' /\ forall p, StandsFor L' p <-> StandsFor L p.
Proof.
  unfold expandStep.
  destruct (pop_back_val (UnexpandedCompositions L)) as [[Comp rest] |] eqn:EC.
  - apply pop_back_val_Some in EC. intros Hm HP.
    destruct (handleMembers_stands _ _ _ Hm HP) as (HP' & H'). split; [exact HP' |].
    intros p. rewrite H'. unfold StandsFor. simpl. rewrite EC.
    setoid_rewrite in_app_iff. setoid_rewrite <- ImpliedBy_composition. simpl.
    split.
    + intros [[H | [H | (c & Hc & HI)]] | H]; eauto 8.
    + intros [H | [H | (c & [Hc | [<- | []]] & HI)]]; eauto 8.
  - apply pop_back_val_None in EC.
    destruct (pop_back_val (UnexpandedProtocols L)) as [[Proto rest] |] eqn:EP.
    + apply pop_back_val_Some in EP.
      destruct (handleInherited _ _) as [L1 |] eqn:Eh; [| discriminate].
      intros [= <-] HP. unfold protocolsPending in HP. rewrite EP in HP.
      apply Forall_app in HP as [Hrest HProto]. inversion HProto as [| ? ? HK _]; subst.
      destruct (handleInherited_stands _ _ _ Eh Hrest) as (HP1 & H1).
      split; [exact HP1 |]. intros p.
      assert (Hs : StandsFor
                     (mkWorklists (Protocols L1 ++ [Proto]) (UnexpandedProtocols L1)
                                  (UnexpandedCompositions L1)) p
                   <-> StandsFor L1 p \/ p = Proto).
      { unfold StandsFor. simpl. rewrite in_app_iff. simpl. split.
        - intros [[H | [-> | []]] | [H | H]]; auto.
        - intros [[H | [H | H]] | ->]; auto. }
      rewrite Hs, H1. unfold StandsFor at 2. rewrite EP.
      setoid_rewrite in_app_iff. simpl.
      pose proof (ImpliedBy_nominal Proto p HK) as Hn.
      unfold StandsFor. simpl. split.
      * intros [[H | H] | ->].
        -- destruct H as [H | [H | H]]; eauto 8.
           destruct H as (d & Hd & HI). right. left. eauto.
        -- right. left. exists Proto. split; [auto |]. apply Hn. auto.
        -- right. left. exists Proto. split; [auto |]. apply Hn. auto.
      * intros [H | [(d & [Hd | [<- | []]] & HI) | H]]; eauto 8.
        apply Hn in HI as [-> | HI]; auto.
    + intros [= <-] HP. split; [exact HP | reflexivity].
Qed.

Lemma expandLoop_stands fuel :
  forall L L',
    expandLoop fuel L = Returned L' ->
    protocolsPending L ->
    forall p, In p (Protocols L') <-> StandsFor L p.
Proof.
  assert (Hdone : forall L, pending L = false ->
                            forall p, In p (Protocols L) <-> StandsFor L p).
  { intros L Hpend p. unfold pending in Hpend. apply orb_false_iff in Hpend as [H1 H2].
    apply negb_false_iff, bool_decide_eq_true in H1, H2.
    unfold StandsFor. rewrite H1, H2. split; [auto |].
    intros [H | [(d & [] & _) | (c & [] & _)]]. exact H. }
  induction fuel as [| fuel IH]; intros L L'; simpl.
  - destruct (pending L) eqn:Hpend; [discriminate |]. intros [= <-] _. by apply Hdone.
  - destruct (pending L) eqn:Hpend; [| intros [= <-] _; by apply Hdone].
    destruct (expandStep L) as [L1 |] eqn:Es; [| discriminate].
    intros Hloop HP. destruct (expandStep_stands L L1 Es HP) as (HP1 & H1).
    intros p. rewrite (IH L1 L' Hloop HP1 p). apply H1.
Qed.

Lemma expandConformances_implied fuel Inherited Protos :
  expandConformances fuel Inherited = Returned Protos ->
  forall p, In p Protos <->
            exists T, In (mkTypeLoc (Some T)) Inherited /\ ImpliedBy T p.
Proof.
  unfold expandConformances.
  destruct (handleInherited Inherited (mkWorklists [] [] [])) as [L |] eqn:Eh;
    [| discriminate].
  destruct (handleInherited_stands _ _ _ Eh) as (HP & Hs); [constructor |].
  destruct (expandLoop fuel L) as [L' | |] eqn:El; try discriminate.
  intros [= <-] p. rewrite (expandLoop_stands fuel L L' El HP p), Hs.
  unfold StandsFor. simpl. split; [| auto].
  intros [[[] | [(d & [] & _) | (c & [] & _)]] | H]. exact H.
Qed.

(** X10.  On well-formed acyclic clauses the expansion returns, and whenever it
    returns its result lists exactly the protocols the clause implies: each
    stated protocol, each member of a stated composition, and all they
    inherit. *)
Theorem expansion_is_closure (rank : Decl -> nat) (Inherited : list TypeLoc) :
  Acyclic rank ->
  ProtocolsInheritProtocols ->
  (forall T, In (mkTypeLoc (Some T)) Inherited -> isProtocolOrComposition T = true) ->
  (exists fuel Protos, expandConformances fuel Inherited = Returned Protos)
  /\ (forall fuel Protos,
        expandConformances fuel Inherited = Returned Protos ->
        forall p, In p Protos <->
                  exists T, In (mkTypeLoc (Some T)) Inherited /\ ImpliedBy T p).
Proof.
  intros HA HP HI. split.
  - exact (expandConformances_returns rank Inherited HA HP HI).
  - intros fuel Protos. apply expandConformances_implied.
Qed.

(** *** The loop ends on every acyclic graph *)

Section Ending.

Variable rank : Decl -> nat.
Hypothesis rank_decreases : Acyclic rank.

Ltac sum_turns :=
  unfold turnsLeft in *;
  cbn [UnexpandedProtocols UnexpandedCompositions Protocols] in *;
  repeat rewrite map_app, list_sum_app;
  cbn [map list_sum fold_right].

Lemma HandleProtocolOrComposition_turns T L L' :
  HandleProtocolOrComposition T L = Some L' ->
  turnsLeft rank L' = turnsLeft rank L + tyWeight (turns rank) T.
Proof.
  unfold HandleProtocolOrComposition.
  destruct T as [d | ms |]; simpl; [| | discriminate].
  - destruct (getKind d) eqn:K; try discriminate. intros [= <-].
    sum_turns. lia.
  - intros [= <-]. sum_turns. unfold compositionTurns at 2. cbn [getMembers]. lia.
Qed.

Lemma handleMembers_turns Members L L' :
  handleMembers Members L = Some L' ->
  turnsLeft rank L' = turnsLeft rank L + list_sum (map (tyWeight (turns rank)) Members).
Proof.
  revert L. induction Members as [| T rest IH]; intros L; simpl.
  - intros [= <-]. lia.
  - destruct (HandleProtocolOrComposition T L) as [L1 |] eqn:E; [| discriminate].
    intros Hrest. rewrite (IH L1 Hrest), (HandleProtocolOrComposition_turns T L L1 E). lia.
Qed.

Lemma handleInherited_turns Inherited L L' :
  handleInherited Inherited L = Some L' ->
  turnsLeft rank L' = turnsLeft rank L + entriesWeight (turns rank) Inherited.
Proof.
  unfold entriesWeight.
  revert L. induction Inherited as [| [[T |]] rest IH]; intros L; simpl.
  - intros [= <-]. lia.
  - destruct (HandleProtocolOrComposition T L) as [L1 |] eqn:E; [| discriminate].
    intros Hrest. rewrite (IH L1 Hrest), (HandleProtocolOrComposition_turns T L L1 E).
    cbn [entryWeight getType]. lia.
  - intros Hrest. rewrite (IH L Hrest). cbn [entryWeight getType]. lia.
Qed.

(** A turn that does not abort lowers [turnsLeft]. *)
Lemma expandStep_turns L L' :
  pending L = true ->
  protocolsPending L ->
  expandStep L = Some L' ->
  protocolsPending L' /\ turnsLeft rank L' < turnsLeft rank L.
Proof.
  intros Hpend HP Hs.
  split; [exact (proj1 (expandStep_stands L L' Hs HP)) |].
  revert Hs. unfold expandStep.
  destruct (pop_back_val (UnexpandedCompositions L)) as [[Comp rest] |] eqn:EC.
  - apply pop_back_val_Some in EC. intros Hm.
    rewrite (handleMembers_turns _ _ _ Hm). unfold turnsLeft.
    cbn [UnexpandedProtocols UnexpandedCompositions]. rewrite EC. sum_turns.
    unfold compositionTurns at 3. lia.
  - apply pop_back_val_None in EC.
    destruct (pop_back_val (UnexpandedProtocols L)) as [[Proto rest] |] eqn:EP.
    + apply pop_back_val_Some in EP.
      destruct (handleInherited _ _) as [L1 |] eqn:Eh; [| discriminate].
      intros [= <-]. unfold protocolsPending in HP. rewrite EP in HP.
      apply Forall_app in HP as [_ HProto]. inversion HProto as [| ? ? HK _]; subst.
      pose proof (handleInherited_turns _ _ _ Eh) as Hm.
      pose proof (turns_clause rank rank_decreases Proto HK) as Hc.
      unfold turnsLeft in *. cbn [UnexpandedProtocols UnexpandedCompositions] in *.
      rewrite Hm, EP. sum_turns. lia.
    + apply pop_back_val_None in EP. unfold pending in Hpend.
      rewrite EC, EP in Hpend. discriminate.
Qed.

Lemma expandLoop_ends_within (n : nat) :
  forall L,
    turnsLeft rank L <= n ->
    protocolsPending L ->
    exists k, k <= n /\
      (expandLoop k L = Aborted
       \/ exists L', expandLoop k L = Returned L'
                     /\ UnexpandedProtocols L' = [] /\ UnexpandedCompositions L' = []).
Proof.
  assert (Hdone : forall L, pending L = false ->
            exists L', expandLoop 0 L = Returned L'
                       /\ UnexpandedProtocols L' = [] /\ UnexpandedCompositions L' = []).
  { intros L Hpend. exists L. simpl. rewrite Hpend. split; [reflexivity |].
    unfold pending in Hpend. apply orb_false_iff in Hpend as [H1 H2].
    apply negb_false_iff, bool_decide_eq_true in H1, H2. auto. }
  induction n as [| n IH]; intros L Hle HP.
  - destruct (pending L) eqn:Hpend; [| exists 0; split; [lia | right; by apply Hdone]].
    exists 1. destruct (expandStep L) as [L1 |] eqn:Es.
    + destruct (expandStep_turns L L1 Hpend HP Es). lia.
    + split; [| left; simpl; rewrite Hpend, Es; reflexivity].
      exfalso. revert Es. unfold expandStep.
      destruct (pop_back_val (UnexpandedCompositions L)) as [[Comp rest] |] eqn:EC.
      * apply pop_back_val_Some in EC. unfold turnsLeft in Hle.
        rewrite EC, map_app, list_sum_app in Hle.
        cbn [map list_sum fold_right] in Hle. unfold compositionTurns in Hle. lia.
      * apply pop_back_val_None in EC.
        destruct (pop_back_val (UnexpandedProtocols L)) as [[Proto rest'] |] eqn:EP.
        -- apply pop_back_val_Some in EP. unfold turnsLeft in Hle.
           rewrite EP, map_app, list_sum_app in Hle.
           cbn [map list_sum fold_right] in Hle. unfold turns in Hle at 2.
           cbn [protoWeight] in Hle. lia.
        -- discriminate.
  - destruct (pending L) eqn:Hpend; [| exists 0; split; [lia | right; by apply Hdone]].
    destruct (expandStep L) as [L1 |] eqn:Es.
    + destruct (expandStep_turns L L1 Hpend HP Es) as [HP1 Hlt].
      destruct (IH L1) as (k & Hk & Hend); [lia | exact HP1 |].
      exists (S k). split; [lia |]. simpl. rewrite Hpend, Es. exact Hend.
    + exists 1. split; [lia |]. left. simpl. rewrite Hpend, Es. reflexivity.
Qed.

End Ending.

Lemma expansion_ends_aux (rank : Decl -> nat) (Inherited : list TypeLoc) :
  Acyclic rank ->
  exists fuel,
    expandConformances fuel Inherited = Aborted
    \/ exists Protos, expandConformances fuel Inherited = Returned Protos.
Proof.
  intros HA. unfold expandConformances.
  destruct (handleInherited Inherited (mkWorklists [] [] [])) as [L |] eqn:Eh;
    [| exists 0; auto].
  destruct (handleInherited_stands _ _ _ Eh) as (HP & _); [constructor |].
  destruct (expandLoop_ends_within rank HA (turnsLeft rank L) L (le_n _) HP)
    as (k & _ & [Ha | (L' & Hr & _)]); exists k.
  - rewrite Ha. auto.
  - rewrite Hr. eauto.
Qed.


(** *** When the expansion aborts *)

Lemma HasDefect_protocol d :
  getKind d = Protocol ->
  HasDefect (NominalType d) <->
  exists T, In (mkTypeLoc (Some T)) (getInherited d) /\ HasDefect T.
Proof.
  intros Hk. split.
  - inversion 1 as [T Hp _ | |]; subst; eauto.
    simpl in Hp. rewrite Hk in Hp. discriminate.
  - intros (T & HT & HD). by econstructor.
Qed.

Lemma HasDefect_composition ms :
  HasDefect (CompositionType ms) <-> exists T, In T ms /\ HasDefect T.
Proof.
  split.
  - inversion 1 as [T _ Hc | |]; subst; eauto. discriminate.
  - intros (T & HT & HD). by econstructor.
Qed.

Lemma HandleProtocolOrComposition_defect T L L' :
  HandleProtocolOrComposition T L = Some L' ->
  DefectPending L' <-> DefectPending L \/ HasDefect T.
Proof.
  unfold HandleProtocolOrComposition, DefectPending.
  destruct T as [d | ms |]; simpl; [| | discriminate].
  - destruct (getKind d) eqn:K; try discriminate. intros [= <-]. simpl.
    setoid_rewrite in_app_iff. simpl. split.
    + intros [(d' & [Hd | [<- | []]] & HD) | H]; eauto 6.
    + intros [[(d' & Hd & HD) | H] | H]; eauto 8.
  - intros [= <-]. simpl. setoid_rewrite in_app_iff. simpl. split.
    + intros [H | (c & [Hc | [<- | []]] & HD)]; eauto 6.
    + intros [[H | (c & Hc & HD)] | H]; eauto 8.
Qed.

Lemma handleMembers_defect_iff Members L :
  match handleMembers Members L with
  | Some L' => DefectPending L' <-> DefectPending L \/ exists T, In T Members /\ HasDefect T
  | None => exists T, In T Members /\ HasDefect T
  end.
Proof.
  revert L. induction Members as [| T rest IH]; intros L; simpl.
  - split; [auto |]. intros [H | (T & [] & _)]. exact H.
  - destruct (HandleProtocolOrComposition T L) as [L1 |] eqn:E.
    + pose proof (HandleProtocolOrComposition_defect T L L1 E) as H1.
      specialize (IH L1). destruct (handleMembers rest L1) as [L' |].
      * rewrite IH, H1. split.
        -- intros [[H | H] | (T' & HT' & HD)]; eauto 6.
        -- intros [H | (T' & [<- | HT'] & HD)]; eauto 6.
      * destruct IH as (T' & HT' & HD). eauto.
    + apply HandleProtocolOrComposition_None in E as [E1 E2].
      exists T. split; [auto |]. by constructor.
Qed.

Lemma handleInherited_defect_iff Inherited L :
  match handleInherited Inherited L with
  | Some L' =>
      DefectPending L' <->
      DefectPending L \/ exists T, In (mkTypeLoc (Some T)) Inherited /\ HasDefect T
  | None => exists T, In (mkTypeLoc (Some T)) Inherited /\ HasDefect T
  end.
Proof.
  revert L. induction Inherited as [| [[T |]] rest IH]; intros L; simpl.
  - split; [auto |]. intros [H | (T & [] & _)]. exact H.
  - destruct (HandleProtocolOrComposition T L) as [L1 |] eqn:E.
    + pose proof (HandleProtocolOrComposition_defect T L L1 E) as H1.
      specialize (IH L1). destruct (handleInherited rest L1) as [L' |].
      * rewrite IH, H1. split.
        -- intros [[H | H] | (T' & HT' & HD)]; eauto 6.
        -- intros [H | (T' & [[= <-] | HT'] & HD)]; eauto 6.
      * destruct IH as (T' & HT' & HD). eauto.
    + apply HandleProtocolOrComposition_None in E as [E1 E2].
      exists T. split; [auto |]. by constructor.
  - specialize (IH L). destruct (handleInherited rest L) as [L' |].
    + rewrite IH. split.
      * intros [H | (T' & HT' & HD)]; eauto 6.
      * intros [H | (T' & [[=] | HT'] & HD)]; eauto 6.
    + destruct IH as (T' & HT' & HD). eauto.
Qed.

(** A turn that goes through keeps what defects are pending; a turn that
    aborts had one pending. *)
Lemma expandStep_defect L :
  pending L = true ->
  protocolsPending L ->
  match expandStep L with
  | Some L' => DefectPending L' <-> DefectPending L
  | None => DefectPending L
  end.
Proof.
  intros Hpend HP. unfold expandStep.
  destruct (pop_back_val (UnexpandedCompositions L)) as [[Comp rest] |] eqn:EC.
  - apply pop_back_val_Some in EC.
    pose proof (handleMembers_defect_iff (getMembers Comp)
                  (mkWorklists (Protocols L) (UnexpandedProtocols L) rest)) as Hm.
    assert (HL : DefectPending L <->
                 DefectPending (mkWorklists (Protocols L) (UnexpandedProtocols L) rest)
                 \/ exists T, In T (getMembers Comp) /\ HasDefect T).
    { unfold DefectPending. simpl. rewrite EC. setoid_rewrite in_app_iff. simpl.
      rewrite <- HasDefect_composition. split.
      - intros [H | (c & [Hc | [<- | []]] & HD)]; eauto 6.
      - intros [[H | (c & Hc & HD)] | H]; eauto 8. }
    destruct (handleMembers _ _) as [L' |]; [by rewrite Hm, HL | apply HL; auto].
  - apply pop_back_val_None in EC.
    destruct (pop_back_val (UnexpandedProtocols L)) as [[Proto rest] |] eqn:EP.
    + apply pop_back_val_Some in EP.
      unfold protocolsPending in HP. rewrite EP in HP.
      apply Forall_app in HP as [_ HProto]. inversion HProto as [| ? ? HK _]; subst.
      pose proof (handleInherited_defect_iff (getInherited Proto)
                    (mkWorklists (Protocols L) rest (UnexpandedCompositions L))) as Hm.
      assert (HL : DefectPending L <->
                   DefectPending (mkWorklists (Protocols L) rest (UnexpandedCompositions L))
                   \/ exists T, In (mkTypeLoc (Some T)) (getInherited Proto) /\ HasDefect T).
      { unfold DefectPending. simpl. rewrite EP. setoid_rewrite in_app_iff. simpl.
        rewrite <- (HasDefect_protocol Proto HK). split.
        - intros [(d & [Hd | [<- | []]] & HD) | H]; eauto 6.
        - intros [[(d & Hd & HD) | H] | H]; eauto 8. }
      destruct (handleInherited _ _) as [L' |]; [| apply HL; auto].
      rewrite HL, <- Hm. unfold DefectPending. simpl. reflexivity.
    + apply pop_back_val_None in EP. unfold pending in Hpend.
      rewrite EC, EP in Hpend. discriminate.
Qed.

Lemma expandLoop_defect fuel :
  forall L,
    protocolsPending L ->
    match expandLoop fuel L with
    | Returned _ => ~ DefectPending L
    | Aborted => DefectPending L
    | OutOfFuel => True
    end.
Proof.
  assert (Hdone : forall L, pending L = false -> ~ DefectPending L).
  { intros L Hpend. unfold pending in Hpend. apply orb_false_iff in Hpend as [H1 H2].
    apply negb_false_iff, bool_decide_eq_true in H1, H2.
    unfold DefectPending. rewrite H1, H2. intros [(d & [] & _) | (c & [] & _)]. }
  induction fuel as [| fuel IH]; intros L HP; simpl.
  - destruct (pending L) eqn:Hpend; [exact I | by apply Hdone].
  - destruct (pending L) eqn:Hpend; [| by apply Hdone].
    pose proof (expandStep_defect L Hpend HP) as Hs.
    destruct (expandStep L) as [L1 |] eqn:Es; [| exact Hs].
    pose proof (proj1 (expandStep_stands L L1 Es HP)) as HP1.
    specialize (IH L1 HP1). destruct (expandLoop fuel L1); [| | exact I]; by rewrite <- Hs.
Qed.

Lemma expandConformances_defect fuel Inherited :
  match expandConformances fuel Inherited with
  | Returned _ => ~ exists T, In (mkTypeLoc (Some T)) Inherited /\ HasDefect T
  | Aborted => exists T, In (mkTypeLoc (Some T)) Inherited /\ HasDefect T
  | OutOfFuel => True
  end.
Proof.
  unfold expandConformances.
  pose proof (handleInherited_defect_iff Inherited (mkWorklists [] [] [])) as Hh.
  destruct (handleInherited Inherited (mkWorklists [] [] [])) as [L |] eqn:Eh; [| exact Hh].
  destruct (handleInherited_stands _ _ _ Eh) as (HP & _); [constructor |].
  assert (He : DefectPending L <->
               exists T, In (mkTypeLoc (Some T)) Inherited /\ HasDefect T).
  { rewrite Hh. unfold DefectPending. simpl. split; [| auto].
    intros [[(d & [] & _) | (c & [] & _)] | H]. exact H. }
  pose proof (expandLoop_defect fuel L HP) as Hl.
  destruct (expandLoop fuel L); [| | exact I]; by rewrite <- He.
Qed.

(** X12.  The expansion aborts only when the clause leads to a type that is
    neither a protocol nor a composition, and it never returns when the
    clause does; on an acyclic inheritance graph it then does abort. *)
Theorem abort_iff_defect (rank : Decl -> nat) (Inherited : list TypeLoc) :
  Acyclic rank ->
  (forall fuel,
      expandConformances fuel Inherited = Aborted ->
      exists T, In (mkTypeLoc (Some T)) Inherited /\ HasDefect T)
  /\ ((exists T, In (mkTypeLoc (Some T)) Inherited /\ HasDefect T) ->
      (forall fuel Protos, expandConformances fuel Inherited <> Returned Protos)
      /\ exists fuel, expandConformances fuel Inherited = Aborted).
Proof.
  intros HA. split.
  - intros fuel Ha. pose proof (expandConformances_defect fuel Inherited) as H.
    rewrite Ha in H. exact H.
  - intros HD.
    assert (Hnever : forall fuel Protos,
               expandConformances fuel Inherited <> Returned Protos).
    { intros fuel Protos Hr. pose proof (expandConformances_defect fuel Inherited) as H.
      rewrite Hr in H. contradiction. }
    split; [exact Hnever |].
    destruct (expansion_ends_aux rank Inherited HA) as (fuel & [Ha | (Protos & Hr)]).
    + eauto.
    + destruct (Hnever fuel Protos Hr).
Qed.

(** *** What a visit of an extension leaves behind *)

Lemma walkToDeclPre_extension_true (fuel : nat) (W W' : Walker) (Ext N : Decl) :
  asExtensionDecl Ext = Some N ->
  walkToDeclPre fuel W Ext = Returned (true, W') ->
  isUnavailableOrObsoleted Ext = false
  /\ isImplicitlyPrivate
       (deref (getModuleSymbolGraph (getModuleSymbolGraph W Ext).2 N).2
              (getModuleSymbolGraph (getModuleSymbolGraph W Ext).2 N).1) Ext = false
  /\ isUnavailableOrObsoleted N = false
  /\ exists Protos, expandConformances fuel (getInherited Ext) = Returned Protos.
Proof.
  intros HExt Hret.
  destruct (walkToDeclPre_extension_returned fuel W Ext N true W' HExt Hret)
    as [[=] | HP].
  revert Hret. unfold walkToDeclPre.
  destruct (isUnavailableOrObsoleted Ext); [discriminate |].
  assert (HK : isRecordedKind (getKind Ext) = true).
  { unfold asExtensionDecl in HExt. destruct (getKind Ext); try discriminate. reflexivity. }
  rewrite HK. simpl.
  destruct (getModuleSymbolGraph W Ext) as [SG W1]. rewrite HExt. unfold walkExtension.
  simpl. destruct (getModuleSymbolGraph W1 N) as [G W2]. simpl.
  destruct (isImplicitlyPrivate (deref W2 G) Ext); [discriminate |].
  destruct (isUnavailableOrObsoleted N); [discriminate |]. auto.
Qed.

(** X13.  The conforms-to edges an extension's visit adds are exactly those from
    the chosen source symbol to the main-graph symbol of each protocol its
    clause implies, directly or through compositions and inheritance; they
    are added to the graph of the extended nominal. *)
Theorem extension_conformance_edges (fuel : nat) (W W' : Walker) (Ext N : Decl) :
  let W1 := (getModuleSymbolGraph W Ext).2 in
  let G := (getModuleSymbolGraph W1 N).1 in
  let Src :=
    if shouldBeRecordedAsExtension Ext N then mkSymbol G (getAddr Ext) None
    else mkSymbol G (getAddr N) None in
  asExtensionDecl Ext = Some N ->
  walkToDeclPre fuel W Ext = Returned (true, W') ->
  forall G' e,
    EdgeKind e = ConformsTo ->
    (e ∈ edgesOf W' G' <->
     e ∈ edgesOf W G'
     \/ (G' = G /\ Source e = Src /\
         exists T p, In (mkTypeLoc (Some T)) (getInherited Ext) /\ ImpliedBy T p
                     /\ Target e = mkSymbol MainGraphRef (getAddr p) None)).
Proof.
  intros W1 G Src HExt Hret G' e Hk.
  destruct (walkToDeclPre_extension_true fuel W W' Ext N HExt Hret)
    as (HU & Hpriv & HUN & Protos & Hexp).
  destruct (walkToDeclPre_extension_everywhere fuel W Ext N Protos HU HExt Hpriv HUN Hexp)
    as (W'' & Hwalk & Heff).
  rewrite Hwalk in Hret. injection Hret as <-.
  destruct (Heff G') as (_ & HE & _). fold W1 G Src in HE. rewrite HE.
  pose proof (expandConformances_implied fuel _ Protos Hexp) as Himp.
  destruct (decide (G = G')) as [<- | Hne].
  - rewrite !elem_of_union, elem_of_list_to_set, list_elem_of_In, in_map_iff. split.
    + intros [[(p & <- & Hp) | He] | He]; auto.
      * right. split; [reflexivity |]. split; [reflexivity |].
        apply Himp in Hp as (T & HT & HI). exists T, p. auto.
      * exfalso. destruct (shouldBeRecordedAsExtension Ext N); [| set_solver].
        apply elem_of_singleton in He. subst e. discriminate.
    + intros [He | (_ & HS & T & p & HT & HI & Ht)]; auto.
      left. left. exists p. split.
      * destruct e as [k s t]. simpl in *. subst. reflexivity.
      * apply Himp. eauto.
  - split.
    + intros He. left. set_solver.
    + intros [He | (-> & _)]; [set_solver | contradiction].
Qed.

(** X14.  Synthesized members are requested once, for the chosen source symbol
    and in the graph of the extended nominal, when the extension states a
    clause and the nominal's module is not the module under inspection (as
    pointers); in every other case no request is made. *)
Theorem extension_synthesized_request (fuel : nat) (W W' : Walker) (Ext N : Decl) :
  let W1 := (getModuleSymbolGraph W Ext).2 in
  let G := (getModuleSymbolGraph W1 N).1 in
  let Src :=
    if shouldBeRecordedAsExtension Ext N then mkSymbol G (getAddr Ext) None
    else mkSymbol G (getAddr N) None in
  asExtensionDecl Ext = Some N ->
  walkToDeclPre fuel W Ext = Returned (true, W') ->
  forall G',
    requestsOf W' G' =
    requestsOf W G'
    ++ (if decide (G = G')
        then match getInherited Ext with
             | [] => []
             | _ => if sameModulePtr (getModuleContext N) M then [] else [Src]
             end
        else []).
Proof.
  intros W1 G Src HExt Hret G'.
  destruct (walkToDeclPre_extension_true fuel W W' Ext N HExt Hret)
    as (HU & Hpriv & HUN & Protos & Hexp).
  destruct (walkToDeclPre_extension_everywhere fuel W Ext N Protos HU HExt Hpriv HUN Hexp)
    as (W'' & Hwalk & Heff).
  rewrite Hwalk in Hret. injection Hret as <-.
  destruct (Heff G') as (_ & _ & HR). exact HR.
Qed.

(** *** What visits keep *)

Lemma newWalker_SymbolsOwned DM : SymbolsOwned (newWalker DM).
Proof.
  intros G. unfold nodesOf, edgesOf, newWalker.
  destruct G as [| n]; simpl; [| rewrite lookup_empty]; split; set_solver.
Qed.

(** X15.  Visits only add: after any sequence of visits every graph still holds
    the nodes and edges it held, and every extension graph is still there. *)
Theorem visits_only_add (W W' : Walker) :
  rtc visitStep W W' ->
  (forall G, nodesOf W G ⊆ nodesOf W' G /\ edgesOf W G ⊆ edgesOf W' G)
  /\ dom (ExtendedModuleGraphs W) ⊆ dom (ExtendedModuleGraphs W').
Proof.
  intros Hv. destruct (WalkerOps_effect _ _ (visits_ops _ _ Hv)) as (H1 & H2 & _).
  auto.
Qed.

(** X16.  Symbols stay with their graph: starting from the walker the constructor
    builds, after any sequence of visits every node of a graph is a symbol
    of that graph without synthesizing base type, every edge starts in its
    graph, an extension-to edge ends in the same graph and a conforms-to
    edge in the main graph. *)
Theorem visits_keep_symbols_owned (DM : option ModuleDecl) (W' : Walker) :
  rtc visitStep (newWalker DM) W' -> SymbolsOwned W'.
Proof.
  intros Hv. destruct (WalkerOps_effect _ _ (visits_ops _ _ Hv)) as (_ & _ & _ & H4).
  apply H4, newWalker_SymbolsOwned.
Qed.

(** X17.  No sequence of visits makes an extension graph under the name of the
    module under inspection. *)
Theorem visits_make_no_graph_for_inspected_module (W W' : Walker) :
  getNameStr M ∉ dom (ExtendedModuleGraphs W) ->
  rtc visitStep W W' ->
  getNameStr M ∉ dom (ExtendedModuleGraphs W').
Proof.
  intros Hnot Hv Hin.
  destruct (WalkerOps_effect _ _ (visits_ops _ _ Hv)) as (_ & _ & H3 & _).
  destruct (H3 _ Hin) as [H | H]; [contradiction | by apply H].
Qed.

(** The traversal is a sequence of visits. *)
Lemma walk_visits fuel :
  forall T W W', walk fuel W T = Returned W' -> rtc visitStep W W'.
Proof.
  fix IH 1. intros [D Members] W W'. rewrite walk_unfold.
  destruct (walkToDeclPre fuel W D) as [[[|] W1] | |] eqn:Ev; try discriminate.
  - intros Hall. eapply rtc_l; [exists fuel, D, true; exact Ev |].
    clear Ev. revert W1 Hall.
    induction Members as [| T Ms IHm]; intros W1; simpl.
    + intros [= <-]. constructor.
    + destruct (walk fuel W1 T) as [W2 | |] eqn:Ew; try discriminate.
      intros Hall. etransitivity; [exact (IH T W1 W2 Ew) | exact (IHm W2 Hall)].
  - intros [= <-]. apply rtc_once. exists fuel, D, false. exact Ev.
Qed.

(** The main graph is answered exactly when one of the checks passes. *)
Lemma getModuleSymbolGraph_main_iff W D :
  (getModuleSymbolGraph W D).1 = MainGraphRef <->
  areModulesEqual M (owningModule D).1 true
  || match DeclaringModule (MainGraph W) with
     | Some DM => areModulesEqual DM (owningModule D).1 true
     | None => false
     end
  || (isExportedImportedModule (owningModule D).1 || isQualifiedExportedImport D)
  || match (owningModule D).2 with
     | Some N => isFromExportedImportedModule N
     | None => isConsideredExportedImported D
     end = true.
Proof.
  unfold getModuleSymbolGraph. destruct (owningModule D) as [M' Hint]. simpl.
  destruct (areModulesEqual M M' true); simpl; [split; reflexivity |].
  destruct (match DeclaringModule (MainGraph W) with
            | Some DM => areModulesEqual DM M' true | None => false end); simpl; [split; reflexivity |].
  destruct (isExportedImportedModule M' || isQualifiedExportedImport D); simpl; [split; reflexivity |].
  destruct (match Hint with
            | Some N => isFromExportedImportedModule N
            | None => isConsideredExportedImported D end); simpl; [split; reflexivity |].
  destruct (ExtendedModuleGraphs W !! getNameStr M'); simpl; split; discriminate.
Qed.

End SymbolGraphASTWalker.

(** *** Re-export sets *)

Lemma existsb_incl {A} (f : A -> bool) (l l' : list A) :
  (forall x, In x l -> In x l') -> existsb f l = true -> existsb f l' = true.
Proof.
  intros Hincl H. apply existsb_exists in H as (x & Hx & Hf).
  apply existsb_exists. eauto.
Qed.

(** X6.  Re-exporting more never takes a declaration out of the main graph: when
    the sets of re-exported modules and of re-exported declarations grow, a
    declaration that was resolved to the main graph still is, and with no
    re-export at all only the module under inspection and its declaring
    module are. *)
Theorem reexports_are_monotone (M : ModuleDecl)
    (Modules Modules' : list ModuleDecl)
    (Qualified Qualified' : list (ModuleDecl * gset DeclAddr))
    (W : Walker) (D : Decl) :
  (forall MD, In MD Modules -> In MD Modules') ->
  (forall QI, In QI Qualified -> In QI Qualified') ->
  ((getModuleSymbolGraph M Modules Qualified W D).1 = MainGraphRef ->
   getModuleSymbolGraph M Modules' Qualified' W D = (MainGraphRef, W))
  /\ ((getModuleSymbolGraph M [] [] W D).1 = MainGraphRef <->
      areModulesEqual M (owningModule D).1 true = true
      \/ exists DM, DeclaringModule (MainGraph W) = Some DM
                    /\ areModulesEqual DM (owningModule D).1 true = true).
Proof.
  intros HM HQ.
  assert (Hmod : forall m, isExportedImportedModule Modules m = true ->
                           isExportedImportedModule Modules' m = true).
  { intros m. apply existsb_incl, HM. }
  assert (Hq : forall d, isQualifiedExportedImport Qualified d = true ->
                         isQualifiedExportedImport Qualified' d = true).
  { intros d. apply existsb_incl, HQ. }
  assert (Hfrom : forall d, isFromExportedImportedModule Modules Qualified d = true ->
                            isFromExportedImportedModule Modules' Qualified' d = true).
  { intros d. unfold isFromExportedImportedModule.
    rewrite !orb_true_iff. intros [H | H]; auto. }
  assert (Hcons : forall d, isConsideredExportedImported Modules Qualified d = true ->
                            isConsideredExportedImported Modules' Qualified' d = true).
  { intros d. unfold isConsideredExportedImported.
    destruct (isFromExportedImportedModule Modules Qualified d) eqn:E1.
    { rewrite (Hfrom d E1). reflexivity. }
    destruct (isFromExportedImportedModule Modules' Qualified' d); [reflexivity |].
    destruct (getDeclContext d) as [DC |]; simpl; [| discriminate].
    destruct (getAsDecl DC) as [VD |].
    - destruct (isValueDecl (getKind VD)); simpl.
      + destruct (isFromExportedImportedModule Modules Qualified VD) eqn:E2.
        { rewrite (Hfrom VD E2). reflexivity. }
        destruct (isFromExportedImportedModule Modules' Qualified' VD); [reflexivity |].
        destruct (findExtendedNominal DC); [apply Hfrom | discriminate].
      + destruct (findExtendedNominal DC); [apply Hfrom | discriminate].
    - destruct (findExtendedNominal DC); [apply Hfrom | discriminate]. }
  split.
  - intros Hmain.
    assert (Hmain' : (getModuleSymbolGraph M Modules' Qualified' W D).1 = MainGraphRef).
    { apply getModuleSymbolGraph_main_iff. apply getModuleSymbolGraph_main_iff in Hmain.
      rewrite !orb_true_iff in *.
      destruct Hmain as [[[H | H] | [H | H]] | H]; auto.
      right. destruct ((owningModule D).2); auto. }
    revert Hmain'. unfold getModuleSymbolGraph. destruct (owningModule D) as [M' N].
    repeat case_match; simpl; try reflexivity; discriminate.
  - rewrite getModuleSymbolGraph_main_iff. simpl.
    assert (Hno : match (owningModule D).2 with
                  | Some N => isFromExportedImportedModule [] [] N
                  | None => isConsideredExportedImported [] [] D
                  end = false).
    { destruct ((owningModule D).2); [reflexivity |].
      unfold isConsideredExportedImported. simpl.
      destruct (getDeclContext D) as [DC |]; simpl; [| reflexivity].
      destruct (getAsDecl DC) as [VD |].
      - rewrite andb_false_r. by destruct (findExtendedNominal DC).
      - by destruct (findExtendedNominal DC). }
    rewrite Hno, !orb_false_r.
    destruct (DeclaringModule (MainGraph W)) as [DM |].
    + rewrite orb_true_iff. split.
      * intros [H | H]; eauto.
      * intros [H | (DM' & [= <-] & H)]; auto.
    + rewrite orb_false_r. split; [auto |].
      intros [H | (DM' & [=] & _)]. exact H.
Qed.

(** ** Closed examples on the sample module *)

Local Abbreviation sample_graph :=
  (getModuleSymbolGraph Sample.LocalModule Sample.ExportedImportedModules
     Sample.QualifiedExportedImports).
Local Abbreviation sample_visit :=
  (walkToDeclPre Sample.Options Sample.LocalModule Sample.ExportedImportedModules
     Sample.QualifiedExportedImports Sample.getInherited
     Sample.isImplicitlyPrivate Sample.canIncludeDeclAsNode).
Local Abbreviation sample_walk :=
  (walk Sample.Options Sample.LocalModule Sample.ExportedImportedModules
     Sample.QualifiedExportedImports Sample.getInherited
     Sample.isImplicitlyPrivate Sample.canIncludeDeclAsNode).
Local Abbreviation Foreign := (ExtendedGraphRef "Foreign").

Example Walker0_is_new : Sample.Walker0 = newWalker Sample.LocalModule None.
Proof. reflexivity. Qed.

Example areModulesEqual_underlying :
  areModulesEqual Sample.ForeignModule (mkModule 9 "Foreign" true) true = true
  /\ areModulesEqual Sample.ForeignModule (mkModule 9 "Foreign" true) false = false
  /\ areModulesEqual Sample.ForeignModule Sample.LocalModule true = false.
Proof. repeat split. Qed.

(** [A] is local, [Imported] is re-exported, [T] goes to the graph kept
    under ["Foreign"]. *)
Lemma getModuleSymbolGraph_order_witness :
  sample_graph Sample.Walker0 Sample.A = (MainGraphRef, Sample.Walker0)
  /\ sample_graph Sample.Walker0 Sample.Imported = (MainGraphRef, Sample.Walker0)
  /\ (sample_graph Sample.Walker0 Sample.T).1 = Foreign.
Proof.
  split; [| split].
  - exact (proj1 (getModuleSymbolGraph_order Sample.LocalModule
                    Sample.ExportedImportedModules Sample.QualifiedExportedImports
                    Sample.Walker0 Sample.A) eq_refl).
  - exact (proj1 (proj2 (getModuleSymbolGraph_order Sample.LocalModule
                    Sample.ExportedImportedModules Sample.QualifiedExportedImports
                    Sample.Walker0 Sample.Imported)) eq_refl eq_refl).
  - exact (proj1 (proj2 (proj2 (getModuleSymbolGraph_order Sample.LocalModule
                    Sample.ExportedImportedModules Sample.QualifiedExportedImports
                    Sample.Walker0 Sample.T)) eq_refl eq_refl)).
Defined.

Lemma reexported_module_in_main_graph_witness :
  In Sample.VendoredModule Sample.ExportedImportedModules
  /\ sample_graph Sample.Walker0 Sample.Imported = (MainGraphRef, Sample.Walker0).
Proof.
  split; [left; reflexivity |].
  apply (reexported_module_in_main_graph _ _ _ _ _ Sample.VendoredModule);
    [left; reflexivity | reflexivity].
Defined.

(** The owning module is where the climb of lines 54-65 ends, not the module
    a declaration is written in: a member that [Vendored] adds to [U] of
    [Other] is owned by [Other], and goes to the graph kept under that
    name although [Vendored] is re-exported. *)
Example member_of_foreign_extension :
  getModuleContext Sample.VendoredMember = Sample.VendoredModule
  /\ owningModule Sample.VendoredMember = (Sample.OtherModule, Some Sample.U)
  /\ (sample_graph Sample.Walker0 Sample.VendoredMember).1 = ExtendedGraphRef "Other".
Proof. repeat split. Qed.


Lemma unavailable_without_platform_is_walked_witness :
  getUnavailable Sample.Never = Some (mkAvailableAttr none Unavailable)
  /\ isUnavailableOrObsoleted Sample.Never = false
  /\ exists G W',
       sample_visit 0 Sample.Walker0 Sample.Never = Returned (true, W')
       /\ mkSymbol G (getAddr Sample.Never) None ∈ Nodes (deref W' G).
Proof.
  split; [reflexivity |].
  destruct (unavailable_without_platform_is_walked Sample.Options Sample.LocalModule
              Sample.ExportedImportedModules Sample.QualifiedExportedImports
              Sample.getInherited Sample.isImplicitlyPrivate Sample.canIncludeDeclAsNode
              Sample.Never (mkAvailableAttr none Unavailable) eq_refl eq_refl)
    as (H1 & _ & H3).
  split; [exact H1 |].
  destruct (H3 0 Sample.Walker0 [] eq_refl eq_refl eq_refl) as (G & W' & Hv & HN & _).
  exists G, W'. split; assumption.
Defined.

Example Never_is_a_node :
  sample_visit 0 Sample.Walker0 Sample.Never =
  Returned (true, mkWalker (recordNode (mkSymbol MainGraphRef 32 None)
                              (MainGraph Sample.Walker0)) ∅).
Proof. reflexivity. Qed.

(** The sample clauses are acyclic and name protocols only. *)
Lemma Sample_acyclic : Acyclic Sample.getInherited Sample.rank.
Proof.
  intros p T q _ HIn Hq. unfold Sample.getInherited, Sample.rank in *.
  destruct (Nat.eqb (getAddr p) 20).
  - destruct HIn as [[= <-] | []]. simpl in Hq.
    destruct Hq as [<- | [<- | []]]; simpl; lia.
  - destruct (Nat.eqb (getAddr p) 12); [| destruct HIn].
    destruct HIn as [[= <-] | []]. simpl in Hq.
    destruct Hq as [<- | []]. simpl. lia.
Qed.

Lemma Sample_protocols_only : ProtocolsInheritProtocols Sample.getInherited.
Proof.
  intros p T _ HIn. unfold Sample.getInherited in *.
  destruct (Nat.eqb (getAddr p) 20).
  - destruct HIn as [[= <-] | []]. reflexivity.
  - destruct (Nat.eqb (getAddr p) 12); [| destruct HIn].
    destruct HIn as [[= <-] | []]. reflexivity.
Qed.

(** The pending lists after the clause of [Ext] has been read. *)
Local Abbreviation Seeded :=
  (mkWorklists [] [] [mkComposition [NominalType Sample.A; NominalType Sample.B]]).

Lemma expandLoop_terminates_witness :
  wellFormedWorklists Seeded
  /\ exists (n : nat) (L' : Worklists),
       n <= turnsLeft Sample.getInherited Sample.rank Seeded
       /\ expandLoop Sample.getInherited n Seeded = Returned L'
       /\ UnexpandedProtocols L' = []
       /\ UnexpandedCompositions L' = [].
Proof.
  assert (HL : wellFormedWorklists Seeded).
  { split; repeat constructor. }
  split; [exact HL |].
  exact (expandLoop_terminates Sample.getInherited Sample.rank Seeded
           Sample_acyclic Sample_protocols_only HL).
Defined.

(** Four turns are what the sample takes, and what [turnsLeft] promises. *)
Example expandLoop_sample :
  expandLoop Sample.getInherited 4 Seeded
    = Returned (mkWorklists [Sample.B; Sample.C; Sample.A] [] [])
  /\ expandLoop Sample.getInherited 3 Seeded = OutOfFuel
  /\ turnsLeft Sample.getInherited Sample.rank Seeded = 4.
Proof. repeat split. Qed.

(** Without acyclicity the loop need not end: on [protocol Loop : Loop] no
    number of turns is enough. *)
Lemma expandLoop_cyclic (fuel : nat) (Protos : list Decl) :
  expandLoop Sample.getInheritedCyclic fuel (mkWorklists Protos [Sample.Loop] [])
  = OutOfFuel.
Proof.
  revert Protos. induction fuel as [| fuel IH]; intros Protos; [reflexivity |].
  rewrite (expandLoop_step _ _ _ (mkWorklists (Protos ++ [Sample.Loop]) [Sample.Loop] []));
    [apply IH | reflexivity | reflexivity].
Qed.

Lemma composite_conformance_edges_witness :
  let Src := mkSymbol Foreign (getAddr Sample.Ext) None in
  let edgeTo (P : Decl) := mkEdge ConformsTo Src (mkSymbol MainGraphRef (getAddr P) None) in
  exists Protos W',
    expandConformances Sample.getInherited 4 (Sample.getInherited Sample.Ext)
      = Returned Protos
    /\ (forall P, In P Protos <-> P = Sample.A \/ P = Sample.B \/ P = Sample.C)
    /\ sample_visit 4 Sample.Walker0 Sample.Ext = Returned (true, W')
    /\ filter (fun e => EdgeKind e = ConformsTo) (edgesOf W' Foreign) =
         {[edgeTo Sample.A; edgeTo Sample.B; edgeTo Sample.C]}
         ∪ filter (fun e => EdgeKind e = ConformsTo) (edgesOf Sample.Walker0 Foreign)
    /\ size ({[edgeTo Sample.A; edgeTo Sample.B; edgeTo Sample.C]} : gset Edge) = 3.
Proof.
  exact (composite_conformance_edges Sample.Options Sample.LocalModule
           Sample.ExportedImportedModules Sample.QualifiedExportedImports
           Sample.getInherited Sample.isImplicitlyPrivate Sample.canIncludeDeclAsNode
           Sample.Walker0 Sample.Ext Sample.T Sample.A Sample.B Sample.C 4
           eq_refl eq_refl eq_refl eq_refl eq_refl eq_refl eq_refl
           ltac:(discriminate) ltac:(discriminate) ltac:(discriminate)
           eq_refl eq_refl eq_refl eq_refl (le_n 4)).
Defined.


(** The graphs after the visit of [Ext]: the graph kept under ["Foreign"]
    holds the extension's node, its extension-to edge and the three
    conforms-to edges; the main graph is untouched. *)
Example visit_of_Ext :
  let Src := mkSymbol Foreign 20 None in
  exists W',
    sample_visit 4 Sample.Walker0 Sample.Ext = Returned (true, W')
    /\ MainGraph W' = MainGraph Sample.Walker0
    /\ dom (ExtendedModuleGraphs W') = {["Foreign"]}
    /\ nodesOf W' Foreign = {[Src]}
    /\ edgesOf W' Foreign =
         {[mkEdge ExtensionTo Src (mkSymbol Foreign 10 None);
           mkEdge ConformsTo Src (mkSymbol MainGraphRef 11 None);
           mkEdge ConformsTo Src (mkSymbol MainGraphRef 12 None);
           mkEdge ConformsTo Src (mkSymbol MainGraphRef 13 None)]}.
Proof.
  intros Src. eexists. split; [reflexivity |]. split; [reflexivity |].
  split; [| split]; apply set_eq; intros x; vm_compute; set_solver.
Qed.

Local Abbreviation bad_visit :=
  (walkToDeclPre Sample.Options Sample.LocalModule Sample.ExportedImportedModules
     Sample.QualifiedExportedImports Sample.getInheritedBad
     Sample.isImplicitlyPrivate Sample.canIncludeDeclAsNode).

Lemma defect_type_aborts_witness :
  asProtocolDecl (getAnyNominal (NominalType Sample.T)) = None
  /\ getAsProtocolCompositionType (NominalType Sample.T) = None
  /\ HandleProtocolOrComposition (NominalType Sample.T) (mkWorklists [] [] []) = None
  /\ bad_visit 9 Sample.Walker0 Sample.BadExt = Aborted.
Proof.
  split; [reflexivity |]. split; [reflexivity |].
  destruct (defect_type_aborts Sample.Options Sample.LocalModule
              Sample.ExportedImportedModules Sample.QualifiedExportedImports
              Sample.getInheritedBad Sample.isImplicitlyPrivate
              Sample.canIncludeDeclAsNode (NominalType Sample.T) eq_refl eq_refl)
    as (H1 & _ & _ & _ & H5).
  split; [apply H1 |].
  apply (H5 9 Sample.Walker0 Sample.BadExt Sample.T eq_refl eq_refl eq_refl eq_refl).
  left. reflexivity.
Defined.

Lemma null_inherited_type_is_skipped_witness :
  expandConformances Sample.getInherited 4
    (mkTypeLoc None :: Sample.getInherited Sample.Ext)
  = expandConformances Sample.getInherited 4 (Sample.getInherited Sample.Ext)
  /\ expandStep Sample.getInheritedNull (mkWorklists [] [Sample.A; Sample.B] [])
     = expandStep Sample.getInherited (mkWorklists [] [Sample.A; Sample.B] []).
Proof.
  split.
  - exact (proj1 (proj2 (proj2 (null_inherited_type_is_skipped Sample.getInherited)))
             4 [] (Sample.getInherited Sample.Ext)).
  - etransitivity.
    + exact (proj2 (proj2 (proj2 (null_inherited_type_is_skipped Sample.getInheritedNull)))
               (mkWorklists [] [Sample.A; Sample.B] []) Sample.B [Sample.A] []
               [mkTypeLoc (Some (NominalType Sample.C))] eq_refl eq_refl eq_refl).
    + reflexivity.
Defined.

Example null_entries_expand_alike :
  expandConformances Sample.getInheritedNull 4 (Sample.getInheritedNull Sample.Ext)
  = Returned [Sample.B; Sample.C; Sample.A].
Proof. reflexivity. Qed.

(** *** The registry of extension graphs, on the sample *)

(** [T] of the native [Foreign] and [ClangT] of the C module of the same
    name share the graph kept under ["Foreign"]. *)
Lemma extension_graph_shared_by_name_witness :
  (sample_graph Sample.Walker0 Sample.T).1 = Foreign
  /\ areModulesEqual Sample.ForeignModule Sample.ClangForeignModule false = false
  /\ "Foreign" = "Foreign"
  /\ (sample_graph (sample_graph Sample.Walker0 Sample.T).2 Sample.ClangT).2
     = (sample_graph Sample.Walker0 Sample.T).2.
Proof.
  split; [reflexivity |]. split; [reflexivity |].
  exact (extension_graph_shared_by_name Sample.LocalModule
           Sample.ExportedImportedModules Sample.QualifiedExportedImports
           Sample.Walker0 Sample.T Sample.ClangT "Foreign" "Foreign"
           eq_refl eq_refl eq_refl).
Defined.

Lemma extension_graph_not_for_inspected_module_witness :
  (sample_graph Sample.Walker0 Sample.T).1 = Foreign
  /\ "Foreign" <> getNameStr Sample.LocalModule
  /\ (forall DM, DeclaringModule (MainGraph Sample.Walker0) = Some DM ->
        "Foreign" <> getNameStr DM).
Proof.
  split; [reflexivity |].
  exact (extension_graph_not_for_inspected_module Sample.LocalModule
           Sample.ExportedImportedModules Sample.QualifiedExportedImports
           Sample.Walker0 Sample.T "Foreign" eq_refl).
Defined.

(** Re-exported by name, [T] of [Foreign] is resolved to the main graph. *)
Lemma qualified_export_in_main_graph_witness :
  (sample_graph Sample.Walker0 Sample.T).1 = Foreign
  /\ getModuleSymbolGraph Sample.LocalModule Sample.ExportedImportedModules
       Sample.QualifiedT Sample.Walker0 Sample.T = (MainGraphRef, Sample.Walker0).
Proof.
  split; [reflexivity |].
  apply (qualified_export_in_main_graph Sample.LocalModule
           Sample.ExportedImportedModules Sample.QualifiedT
           Sample.Walker0 Sample.T (Sample.ForeignModule, {[10]})).
  - left. reflexivity.
  - apply elem_of_singleton. reflexivity.
Defined.

Lemma reexports_are_monotone_witness :
  (sample_graph Sample.Walker0 Sample.Imported).1 = MainGraphRef
  /\ getModuleSymbolGraph Sample.LocalModule
       (Sample.OtherModule :: Sample.ExportedImportedModules) Sample.QualifiedT
       Sample.Walker0 Sample.Imported = (MainGraphRef, Sample.Walker0).
Proof.
  split; [reflexivity |].
  apply (reexports_are_monotone Sample.LocalModule
           Sample.ExportedImportedModules
           (Sample.OtherModule :: Sample.ExportedImportedModules)
           Sample.QualifiedExportedImports Sample.QualifiedT
           Sample.Walker0 Sample.Imported).
  - intros MD HIn. right. exact HIn.
  - intros QI [].
  - reflexivity.
Defined.

(** *** Visits, on the sample *)

Lemma pruned_visit_records_nothing_witness :
  sample_visit 0 Sample.Walker0 Sample.Old = Returned (false, Sample.Walker0)
  /\ forall G,
       nodesOf Sample.Walker0 G = nodesOf Sample.Walker0 G
       /\ edgesOf Sample.Walker0 G = edgesOf Sample.Walker0 G
       /\ requestsOf Sample.Walker0 G = requestsOf Sample.Walker0 G.
Proof.
  split; [reflexivity |].
  exact (pruned_visit_records_nothing Sample.Options Sample.LocalModule
           Sample.ExportedImportedModules Sample.QualifiedExportedImports
           Sample.getInherited Sample.isImplicitlyPrivate Sample.canIncludeDeclAsNode
           0 Sample.Walker0 Sample.Walker0 Sample.Old eq_refl).
Defined.

(** The function written in [Ext] becomes one node of the graph kept under
    ["Foreign"]. *)
Lemma value_decl_recorded_once_witness :
  exists W',
    sample_visit 0 Sample.Walker0 Sample.ExtMember = Returned (true, W')
    /\ forall G,
        nodesOf W' G =
          (if decide (Foreign = G) then {[mkSymbol Foreign 22 None]} else ∅)
          ∪ nodesOf Sample.Walker0 G
        /\ edgesOf W' G = edgesOf Sample.Walker0 G
        /\ requestsOf W' G = requestsOf Sample.Walker0 G.
Proof.
  exact (value_decl_recorded_once Sample.Options Sample.LocalModule
           Sample.ExportedImportedModules Sample.QualifiedExportedImports
           Sample.getInherited Sample.isImplicitlyPrivate Sample.canIncludeDeclAsNode
           0 Sample.Walker0 Sample.ExtMember eq_refl eq_refl eq_refl eq_refl).
Defined.

Local Abbreviation plain_visit :=
  (walkToDeclPre Sample.OptionsOff Sample.LocalModule Sample.ExportedImportedModules
     Sample.QualifiedExportedImports Sample.getInherited
     Sample.isImplicitlyPrivate Sample.canIncludeDeclAsNode).

(** With the option off, the visit of [Ext] adds edges from the symbol of
    [T] and no node. *)
Lemma unrecorded_extension_adds_no_node_witness :
  shouldBeRecordedAsExtension Sample.OptionsOff Sample.Ext Sample.T = false
  /\ exists W',
       plain_visit 4 Sample.Walker0 Sample.Ext = Returned (true, W')
       /\ forall G',
            nodesOf W' G' = nodesOf Sample.Walker0 G'
            /\ forall e, e ∈ edgesOf W' G' -> e ∉ edgesOf Sample.Walker0 G' ->
                 G' = Foreign /\ EdgeKind e = ConformsTo
                 /\ Source e = mkSymbol Foreign 10 None
                 /\ Graph (Target e) = MainGraphRef.
Proof.
  split; [reflexivity |]. eexists. split; [reflexivity |].
  exact (unrecorded_extension_adds_no_node Sample.OptionsOff Sample.LocalModule
           Sample.ExportedImportedModules Sample.QualifiedExportedImports
           Sample.getInherited Sample.isImplicitlyPrivate Sample.canIncludeDeclAsNode
           4 Sample.Walker0 _ Sample.Ext Sample.T true eq_refl eq_refl eq_refl).
Defined.

Lemma extension_conformance_edges_witness :
  exists W',
    sample_visit 4 Sample.Walker0 Sample.Ext = Returned (true, W')
    /\ forall G' e,
         EdgeKind e = ConformsTo ->
         (e ∈ edgesOf W' G' <->
          e ∈ edgesOf Sample.Walker0 G'
          \/ (G' = Foreign /\ Source e = mkSymbol Foreign 20 None /\
              exists T p,
                In (mkTypeLoc (Some T)) (Sample.getInherited Sample.Ext)
                /\ ImpliedBy Sample.getInherited T p
                /\ Target e = mkSymbol MainGraphRef (getAddr p) None)).
Proof.
  eexists. split; [reflexivity |].
  exact (extension_conformance_edges Sample.Options Sample.LocalModule
           Sample.ExportedImportedModules Sample.QualifiedExportedImports
           Sample.getInherited Sample.isImplicitlyPrivate Sample.canIncludeDeclAsNode
           4 Sample.Walker0 _ Sample.Ext Sample.T eq_refl eq_refl).
Defined.

Lemma extension_synthesized_request_witness :
  exists W',
    sample_visit 4 Sample.Walker0 Sample.Ext = Returned (true, W')
    /\ forall G',
         requestsOf W' G' =
         requestsOf Sample.Walker0 G'
         ++ (if decide (Foreign = G') then [mkSymbol Foreign 20 None] else []).
Proof.
  eexists. split; [reflexivity |].
  exact (extension_synthesized_request Sample.Options Sample.LocalModule
           Sample.ExportedImportedModules Sample.QualifiedExportedImports
           Sample.getInherited Sample.isImplicitlyPrivate Sample.canIncludeDeclAsNode
           4 Sample.Walker0 _ Sample.Ext Sample.T eq_refl eq_refl).
Defined.

Local Abbreviation sample_step :=
  (visitStep Sample.Options Sample.LocalModule Sample.ExportedImportedModules
     Sample.QualifiedExportedImports Sample.getInherited
     Sample.isImplicitlyPrivate Sample.canIncludeDeclAsNode).

(** The visits of [Ext] and then of [ExtMember], as a sequence. *)
Lemma Sample_visits :
  exists W1 W2,
    sample_visit 4 Sample.Walker0 Sample.Ext = Returned (true, W1)
    /\ sample_visit 0 W1 Sample.ExtMember = Returned (true, W2)
    /\ rtc sample_step Sample.Walker0 W2.
Proof.
  eexists. eexists. split; [reflexivity |]. split; [reflexivity |].
  eapply rtc_l; [exists 4, Sample.Ext, true; reflexivity |].
  apply rtc_once. exists 0, Sample.ExtMember, true. reflexivity.
Defined.

Lemma visits_only_add_witness :
  exists W',
    rtc sample_step Sample.Walker0 W'
    /\ (forall G, nodesOf Sample.Walker0 G ⊆ nodesOf W' G
                  /\ edgesOf Sample.Walker0 G ⊆ edgesOf W' G)
    /\ dom (ExtendedModuleGraphs Sample.Walker0) ⊆ dom (ExtendedModuleGraphs W').
Proof.
  destruct Sample_visits as (W1 & W2 & _ & _ & Hv).
  exists W2. split; [exact Hv |].
  exact (visits_only_add Sample.Options Sample.LocalModule
           Sample.ExportedImportedModules Sample.QualifiedExportedImports
           Sample.getInherited Sample.isImplicitlyPrivate Sample.canIncludeDeclAsNode
           Sample.Walker0 W2 Hv).
Defined.

Lemma visits_keep_symbols_owned_witness :
  exists W',
    rtc sample_step (newWalker Sample.LocalModule None) W' /\ SymbolsOwned W'.
Proof.
  destruct Sample_visits as (W1 & W2 & _ & _ & Hv).
  exists W2. split; [exact Hv |].
  exact (visits_keep_symbols_owned Sample.Options Sample.LocalModule
           Sample.ExportedImportedModules Sample.QualifiedExportedImports
           Sample.getInherited Sample.isImplicitlyPrivate Sample.canIncludeDeclAsNode
           None W2 Hv).
Defined.

Lemma visits_make_no_graph_for_inspected_module_witness :
  exists W',
    rtc sample_step Sample.Walker0 W'
    /\ ("Local" ∉ dom (ExtendedModuleGraphs Sample.Walker0))
    /\ ("Local" ∉ dom (ExtendedModuleGraphs W')).
Proof.
  destruct Sample_visits as (W1 & W2 & _ & _ & Hv).
  assert (Hnot : "Local" ∉ dom (ExtendedModuleGraphs Sample.Walker0)).
  { simpl. rewrite dom_empty_L. apply not_elem_of_empty. }
  exists W2. split; [exact Hv |]. split; [exact Hnot |].
  exact (visits_make_no_graph_for_inspected_module Sample.Options Sample.LocalModule
           Sample.ExportedImportedModules Sample.QualifiedExportedImports
           Sample.getInherited Sample.isImplicitlyPrivate Sample.canIncludeDeclAsNode
           Sample.Walker0 W2 Hnot Hv).
Defined.

(** *** The expansion, on the sample *)

Lemma Sample_clause_of_Ext (T : Ty) :
  In (mkTypeLoc (Some T)) (Sample.getInherited Sample.Ext) ->
  isProtocolOrComposition T = true.
Proof. intros [[= <-] | []]. reflexivity. Qed.

Lemma expansion_is_closure_witness :
  (exists fuel Protos,
      expandConformances Sample.getInherited fuel (Sample.getInherited Sample.Ext)
      = Returned Protos)
  /\ (forall fuel Protos,
        expandConformances Sample.getInherited fuel (Sample.getInherited Sample.Ext)
        = Returned Protos ->
        forall p, In p Protos <->
                  exists T, In (mkTypeLoc (Some T)) (Sample.getInherited Sample.Ext)
                            /\ ImpliedBy Sample.getInherited T p).
Proof.
  exact (expansion_is_closure Sample.getInherited Sample.rank
           (Sample.getInherited Sample.Ext)
           Sample_acyclic Sample_protocols_only Sample_clause_of_Ext).
Defined.


(** The clause [T], a struct, leads to a defect; its expansion aborts. *)
Lemma abort_iff_defect_witness :
  HasDefect Sample.getInherited (NominalType Sample.T)
  /\ (forall fuel Protos,
        expandConformances Sample.getInherited fuel
          [mkTypeLoc (Some (NominalType Sample.T))] <> Returned Protos)
  /\ exists fuel,
       expandConformances Sample.getInherited fuel
         [mkTypeLoc (Some (NominalType Sample.T))] = Aborted.
Proof.
  assert (HD : HasDefect Sample.getInherited (NominalType Sample.T)).
  { apply defect_here; reflexivity. }
  split; [exact HD |].
  apply (abort_iff_defect Sample.getInherited Sample.rank
           [mkTypeLoc (Some (NominalType Sample.T))] Sample_acyclic).
  exists (NominalType Sample.T). split; [left; reflexivity | exact HD].
Defined.

(** * Properties of the diagnostics pass *)

Section DataflowDiagnosticsProperties.
Import DataflowDiagnostics.

Variable isPolymorphicBuiltin : BuiltinValueKind -> bool.
Variable getBuiltinName : BuiltinValueKind -> string.
Variable computeConstantValues : SILValue -> SymbolicValue.

Local Abbreviation firstLoopBody F :=
  (fun I => andThen (andThen (diagnoseUnreachable F I) (diagnoseStaticReports I))
              (diagnoseUnspecializedPolymorphicBuiltins isPolymorphicBuiltin
                 getBuiltinName F I)).
Local Abbreviation runPass :=
  (run isPolymorphicBuiltin getBuiltinName computeConstantValues).

(** *** Sequencing *)

Lemma andThen_nothing_l (b : Effect) : andThen nothing b = b.
Proof. by destruct b. Qed.

Lemma andThen_nothing_r (a : Effect) : andThen a nothing = a.
Proof.
  destruct a as [es [f |]]; unfold andThen; simpl; [reflexivity |].
  by rewrite app_nil_r.
Qed.

Lemma andThen_assoc (a b c : Effect) :
  andThen (andThen a b) c = andThen a (andThen b c).
Proof.
  destruct a as [ea [fa |]], b as [eb [fb |]], c as [ec fc];
    unfold andThen; simpl; try reflexivity.
  by rewrite app_assoc.
Qed.

Lemma andThen_events (a b : Effect) :
  (andThen a b).1 = a.1 ++ match a.2 with None => b.1 | Some _ => [] end.
Proof.
  destruct a as [ea [fa |]]; unfold andThen; simpl; [by rewrite app_nil_r | reflexivity].
Qed.

Lemma andThen_completes (a b : Effect) :
  (andThen a b).2 = None <-> a.2 = None /\ b.2 = None.
Proof.
  destruct a as [ea [fa |]]; unfold andThen; simpl.
  - split; [discriminate | intros [[=] _]].
  - split; [auto | intros [_ H]; exact H].
Qed.

Lemma andThen_Forall (P : Event -> Prop) (a b : Effect) :
  Forall P a.1 -> Forall P b.1 -> Forall P (andThen a b).1.
Proof.
  intros Ha Hb. rewrite andThen_events. apply Forall_app. split; [exact Ha |].
  destruct (a.2); [constructor | exact Hb].
Qed.

Lemma forEach_Forall {A} (P : Event -> Prop) (l : list A) (body : A -> Effect) :
  (forall x, In x l -> Forall P (body x).1) -> Forall P (forEach l body).1.
Proof.
  induction l as [| x r IH]; intros H; simpl; [constructor |].
  apply andThen_Forall; [apply H; by left | apply IH; intros y Hy; apply H; by right].
Qed.

Lemma forEach_app {A} (l l' : list A) (body : A -> Effect) :
  forEach (l ++ l') body = andThen (forEach l body) (forEach l' body).
Proof.
  induction l as [| x r IH]; simpl; [by rewrite andThen_nothing_l |].
  by rewrite IH, andThen_assoc.
Qed.

(** The nested loops over blocks and instructions visit the instructions of
    the function in order. *)
Lemma forEach_concat {A} (ls : list (list A)) (body : A -> Effect) :
  forEach ls (fun l => forEach l body) = forEach (concat ls) body.
Proof.
  induction ls as [| l r IH]; simpl; [reflexivity |].
  by rewrite forEach_app, IH.
Qed.

Lemma forEach_completes {A} (l : list A) (body : A -> Effect) :
  (forEach l body).2 = None <-> forall x, In x l -> (body x).2 = None.
Proof.
  induction l as [| x r IH]; simpl.
  - split; [intros _ y [] | reflexivity].
  - rewrite andThen_completes, IH. split.
    + intros [Hx Hr] y [<- | Hy]; auto.
    + intros H. split; [apply H; by left | intros y Hy; apply H; by right].
Qed.

Lemma forEach_events {A} (l : list A) (body : A -> Effect) :
  (forEach l body).2 = None ->
  (forEach l body).1 = concat (map (fun x => (body x).1) l).
Proof.
  induction l as [| x r IH]; simpl; [reflexivity |].
  intros H. apply andThen_completes in H as [Hx Hr].
  rewrite andThen_events, Hx, (IH Hr). reflexivity.
Qed.

Lemma forEach_nothing {A} (l : list A) (body : A -> Effect) :
  (forall x, In x l -> body x = nothing) -> forEach l body = nothing.
Proof.
  induction l as [| x r IH]; intros H; simpl; [reflexivity |].
  rewrite (H x (or_introl eq_refl)), andThen_nothing_l.
  apply IH. intros y Hy. apply H. by right.
Qed.

Lemma run_unfold StaticAssert F :
  wasDeserializedCanonical F = false ->
  runPass StaticAssert F =
  andThen (forEach (concat (getBlocks F)) (firstLoopBody F))
    (if StaticAssert
     then forEach (concat (getBlocks F)) (diagnosePoundAssert computeConstantValues)
     else nothing).
Proof.
  intros H. unfold run. rewrite H, !forEach_concat. reflexivity.
Qed.

(** *** What each check emits *)

Ltac effects :=
  repeat first
    [ progress simpl
    | match goal with
      | |- Forall _ [] => constructor
      | |- Forall _ (_ :: _) => constructor
      | |- Forall _ (andThen _ _).1 => apply andThen_Forall
      | |- context [match ?x with _ => _ end] => destruct x
      end ].

Lemma diagnoseMissingReturn_ids F UI :
  Forall (fun e => exists d, e = Diagnose d /\ isMissingReturnDiag (diagID d) = true)
         (diagnoseMissingReturn F UI).1.
Proof.
  unfold diagnoseMissingReturn, diagnose, emit, fault.
  effects; eauto.
Qed.

Lemma diagnoseUnreachable_ids F I :
  Forall (fun e => exists d, e = Diagnose d
                     /\ (isMissingReturnDiag (diagID d) = true
                         \/ diagID d = guard_body_must_not_fallthrough))
         (diagnoseUnreachable F I).1.
Proof.
  unfold diagnoseUnreachable.
  destruct (instKind I); try constructor.
  destruct (isNull (getLoc I) || isMandatoryInlinedLocation (getLoc I)); [constructor |].
  destruct (isAbstractFunctionDecl _ || isClosureExpr _).
  - eapply Forall_impl; [apply diagnoseMissingReturn_ids |].
    intros e (d & -> & H). eauto.
  - destruct (getPrimaryASTNode (getLoc I)); repeat constructor. eauto.
Qed.

Lemma diagnoseStaticReports_ids I :
  Forall (fun e => exists d, e = Diagnose d /\ diagID d = static_report_error)
         (diagnoseStaticReports I).1.
Proof.
  unfold diagnoseStaticReports, diagnose, emit, fault, nothing. effects; eauto.
Qed.

Lemma diagnoseUnspecializedPolymorphicBuiltins_ids F I :
  Forall (fun e => exists d, e = Diagnose d /\ isPolymorphicBuiltinDiag (diagID d) = true)
         (diagnoseUnspecializedPolymorphicBuiltins isPolymorphicBuiltin
            getBuiltinName F I).1.
Proof.
  unfold diagnoseUnspecializedPolymorphicBuiltins, diagnose, emit, fault, nothing.
  effects; eauto.
Qed.

Lemma diagnosePoundAssert_ids I :
  Forall (fun e => isPoundAssertEvent e = true)
         (diagnosePoundAssert computeConstantValues I).1.
Proof.
  unfold diagnosePoundAssert, diagnose, emit, fault, nothing. effects; eauto.
Qed.

Lemma firstLoopBody_ids F I :
  Forall (fun e => exists d, e = Diagnose d
                     /\ (isMissingReturnDiag (diagID d) = true
                         \/ diagID d = guard_body_must_not_fallthrough
                         \/ diagID d = static_report_error
                         \/ isPolymorphicBuiltinDiag (diagID d) = true))
         (firstLoopBody F I).1.
Proof.
  repeat apply andThen_Forall.
  - eapply Forall_impl; [apply diagnoseUnreachable_ids |].
    intros e (d & -> & [H | H]); eauto 6.
  - eapply Forall_impl; [apply diagnoseStaticReports_ids |].
    intros e (d & -> & H); eauto 6.
  - eapply Forall_impl; [apply diagnoseUnspecializedPolymorphicBuiltins_ids |].
    intros e (d & -> & H); eauto 8.
Qed.

Lemma andThen_In (e : Event) (a b : Effect) :
  In e (andThen a b).1 -> In e a.1 \/ In e b.1.
Proof.
  rewrite andThen_events. intros H. apply in_app_or in H as [H | H]; [by left |].
  destruct (a.2); [destruct H | by right].
Qed.

(** *** Counting events *)

Lemma filter_none {A} (P : A -> bool) (l : list A) :
  Forall (fun x => P x = false) l -> List.filter P l = [].
Proof.
  induction 1 as [| x r Hx _ IH]; simpl; [reflexivity |]. by rewrite Hx.
Qed.

Lemma forEach_count {A} (P : Event -> bool) (q : A -> bool) (l : list A)
    (body : A -> Effect) :
  (forEach l body).2 = None ->
  (forall x, In x l -> (body x).2 = None ->
     length (List.filter P (body x).1) = if q x then 1 else 0) ->
  length (List.filter P (forEach l body).1) = length (List.filter q l).
Proof.
  induction l as [| x r IH]; simpl; [reflexivity |].
  intros H Hbody. apply andThen_completes in H as [Hx Hr].
  rewrite andThen_events, Hx, List.filter_app, length_app.
  rewrite (Hbody x (or_introl eq_refl) Hx), IH; [| exact Hr |].
  - by destruct (q x).
  - intros y Hy. apply Hbody. by right.
Qed.

(** *** The #assert loop runs last *)

(** X18.  Whatever the function, the events of the first loop are none of the
    #assert loop's, those of the #assert loop follow them, and the #assert
    loop adds nothing when the feature is off or the first loop has stopped
    on a fault. *)
Theorem pound_assert_events_come_last (StaticAssert : bool) (F : SILFunction) :
  Forall (fun e => isPoundAssertEvent e = false) (runPass false F).1
  /\ exists rest,
       (runPass StaticAssert F).1 = (runPass false F).1 ++ rest
       /\ Forall (fun e => isPoundAssertEvent e = true) rest
       /\ (StaticAssert = false \/ (runPass false F).2 <> None ->
           runPass StaticAssert F = runPass false F).
Proof.
  destruct (wasDeserializedCanonical F) eqn:EC.
  { unfold run. rewrite EC. split; [constructor |].
    exists []. split; [reflexivity |]. split; [constructor | reflexivity]. }
  rewrite !run_unfold by exact EC. rewrite andThen_nothing_r.
  set (first := forEach (concat (getBlocks F)) (firstLoopBody F)).
  split.
  { apply forEach_Forall. intros I _.
    eapply Forall_impl; [apply firstLoopBody_ids |].
    intros e (d & -> & H). simpl.
    destruct (diagID d); try reflexivity; exfalso;
      destruct H as [H | [H | [H | H]]]; discriminate. }
  destruct StaticAssert.
  - destruct (first.2) as [f |] eqn:Ef.
    + exists []. rewrite app_nil_r.
      assert (Hstop : andThen first
                (forEach (concat (getBlocks F))
                   (diagnosePoundAssert computeConstantValues)) = first).
      { unfold andThen. by rewrite Ef. }
      rewrite Hstop. split; [reflexivity |]. split; [constructor | reflexivity].
    + exists (forEach (concat (getBlocks F))
                (diagnosePoundAssert computeConstantValues)).1.
      rewrite andThen_events, Ef. split; [reflexivity |].
      split; [apply forEach_Forall; intros I _; apply diagnosePoundAssert_ids |].
      intros [[=] | H]. contradiction.
  - exists []. rewrite andThen_nothing_r, app_nil_r.
    split; [reflexivity |]. split; [constructor | reflexivity].
Qed.

(** *** The message of a failed #assert *)

Lemma diagnosePoundAssert_message I d :
  In (Diagnose d) (diagnosePoundAssert computeConstantValues I).1 ->
  diagID d = pound_assert_failure ->
  diagLoc d = getSourceLoc (getLoc I)
  /\ fixIts d = []
  /\ exists s, diagArgs d = [StringArg s] /\ s <> EmptyString.
Proof.
  unfold diagnosePoundAssert, diagnose, emit, fault, nothing.
  repeat match goal with
         | |- context [match ?x with _ => _ end] => destruct x eqn:?
         end; simpl; intros H Hid;
    repeat match goal with
           | H : _ \/ _ |- _ => destruct H
           | H : False |- _ => destruct H
           | H : Diagnose _ = Diagnose _ |- _ => injection H as <-
           | H : EmitUnknownDiagnosticNotes _ _ = Diagnose _ |- _ => discriminate H
           end; simpl in *; try discriminate.
  all: split; [reflexivity |]; split; [reflexivity |].
  all: eexists; split; [reflexivity |].
  - discriminate.
  - intros ->. discriminate.
Qed.

Lemma forEach_In {A} (e : Event) (l : list A) (body : A -> Effect) :
  In e (forEach l body).1 -> exists x, In x l /\ In e (body x).1.
Proof.
  induction l as [| x r IH]; simpl; [intros [] |].
  intros H. apply andThen_In in H as [H | H].
  - exists x. auto.
  - destruct (IH H) as (y & Hy & He). exists y. auto.
Qed.

(** X19.  A failed #assert is never reported with an empty message: every
    [pound_assert_failure] diagnostic of a run comes from the #assert loop,
    is given at the source location of a [PoundAssert] builtin of the
    function, carries no fix-it and has one argument, a string that is not
    empty. *)
Theorem pound_assert_failure_has_message (StaticAssert : bool) (F : SILFunction)
    (d : Diagnostic) :
  In (Diagnose d) (runPass StaticAssert F).1 ->
  diagID d = pound_assert_failure ->
  StaticAssert = true
  /\ wasDeserializedCanonical F = false
  /\ (exists I BI, In I (concat (getBlocks F))
                   /\ instKind I = Builtin BI
                   /\ getBuiltinKind BI = Some PoundAssert
                   /\ diagLoc d = getSourceLoc (getLoc I))
  /\ fixIts d = []
  /\ exists s, diagArgs d = [StringArg s] /\ s <> EmptyString.
Proof.
  intros HIn Hid.
  destruct (wasDeserializedCanonical F) eqn:EC.
  { unfold run in HIn. rewrite EC in HIn. destruct HIn. }
  rewrite run_unfold in HIn by exact EC.
  apply andThen_In in HIn as [HIn | HIn].
  { exfalso. apply forEach_In in HIn as (I & _ & HIn).
    pose proof (firstLoopBody_ids F I) as Hall.
    rewrite List.Forall_forall in Hall.
    destruct (Hall _ HIn) as (d' & [= <-] & H). rewrite Hid in H.
    destruct H as [H | [H | [H | H]]]; discriminate. }
  destruct StaticAssert; [| destruct HIn].
  apply forEach_In in HIn as (I & HI & HIn).
  destruct (diagnosePoundAssert_message I d HIn Hid) as (Hloc & Hfix & Hmsg).
  split; [reflexivity |]. split; [reflexivity |]. split; [| auto].
  revert HIn. unfold diagnosePoundAssert.
  destruct (instKind I) as [| BI |] eqn:EK; try (intros []).
  destruct (decide (getBuiltinKind BI = Some PoundAssert)) as [HK |]; [| intros []].
  intros _. exists I, BI. auto.
Qed.

(** *** Missing returns *)

(** X20.  When [diagnoseMissingReturn] returns it has emitted one error, closure
    flavoured exactly when the function is a closure, and either nothing
    else, the error being at the end of the instruction's location, or the
    note that offers to insert [return ] where the error is; the note is
    never offered with a missing-call-to-never error, and that error is only
    given for a function that does not return. *)
Theorem missing_return_diagnostics (F : SILFunction) (UI : SILInstruction)
    (es : list Event) :
  diagnoseMissingReturn F UI = (es, None) ->
  exists d,
    fixIts d = []
    /\ (if isClosureExpr (getPrimaryASTNode (getLocation F))
        then diagID d = missing_return_closure \/ diagID d = missing_never_call_closure
        else diagID d = missing_return_decl \/ diagID d = missing_never_call_decl)
    /\ (es = [Diagnose d] /\ diagLoc d = getEndSourceLoc (getLoc UI)
        \/ es = [Diagnose d;
                 Diagnose (mkDiagnostic (diagLoc d) missing_return_last_expr_note []
                             [(diagLoc d, "return ")])]
           /\ diagID d <> missing_never_call_closure
           /\ diagID d <> missing_never_call_decl)
    /\ (diagID d = missing_never_call_closure \/ diagID d = missing_never_call_decl ->
        isNoReturnFunction F = true).
Proof.
  unfold diagnoseMissingReturn, diagnose, emit, fault.
  repeat match goal with
         | |- context [match ?x with _ => _ end] => destruct x eqn:?
         end; simpl; unfold andThen; simpl; intros [= <-]; try discriminate.
  all: match goal with
       | |- context [Diagnose ?x :: _ = _] => exists x
       end; simpl.
  all: split; [reflexivity |].
  all: split; [auto |].
  all: split; [first [left; split; reflexivity
                     | right; split; [reflexivity | split; discriminate]] |].
  all: intros [H | H]; first [discriminate H | reflexivity].
Qed.

(** *** Where the diagnostics of unreachable code come from *)

Lemma diagnoseMissingReturn_function F UI d :
  In (Diagnose d) (diagnoseMissingReturn F UI).1 ->
  (exists FD, getPrimaryASTNode (getLocation F) = FuncDeclNode FD)
  \/ (exists CE, getPrimaryASTNode (getLocation F) = ClosureExprNode CE).
Proof.
  unfold diagnoseMissingReturn, resultTypeAndBody.
  destruct (getPrimaryASTNode (getLocation F)); simpl; try (intros []); eauto.
Qed.

Lemma diagnoseUnreachable_source F I d :
  In (Diagnose d) (diagnoseUnreachable F I).1 ->
  instKind I = UnreachableInst
  /\ isNull (getLoc I) = false
  /\ isMandatoryInlinedLocation (getLoc I) = false
  /\ (isMissingReturnDiag (diagID d) = true
      /\ isAbstractFunctionDecl (getPrimaryASTNode (getLoc I))
         || isClosureExpr (getPrimaryASTNode (getLoc I)) = true
      /\ ((exists FD, getPrimaryASTNode (getLocation F) = FuncDeclNode FD)
          \/ (exists CE, getPrimaryASTNode (getLocation F) = ClosureExprNode CE))
      \/ exists Guard,
           getPrimaryASTNode (getLoc I) = GuardStmtNode Guard
           /\ d = mkDiagnostic (getBodyEndLoc Guard) guard_body_must_not_fallthrough [] []).
Proof.
  unfold diagnoseUnreachable.
  destruct (instKind I); try (intros []).
  destruct (isNull (getLoc I)); [intros [] |].
  destruct (isMandatoryInlinedLocation (getLoc I)); [intros [] |]. simpl.
  destruct (isAbstractFunctionDecl _ || isClosureExpr _) eqn:EL.
  - intros HIn. repeat (split; [reflexivity |]). left.
    pose proof (diagnoseMissingReturn_ids F I) as Hall.
    rewrite List.Forall_forall in Hall.
    destruct (Hall _ HIn) as (d' & [= <-] & Hid).
    split; [exact Hid |]. split; [reflexivity |].
    exact (diagnoseMissingReturn_function F I d HIn).
  - destruct (getPrimaryASTNode (getLoc I)) as [| | | | Guard |]; try (by intros []).
    intros [[= <-] | []]. repeat (split; [reflexivity |]). right. eauto.
Qed.

(** X21.  Every missing-return or guard diagnostic of a run is due to an
    unreachable instruction of the function whose location is valid and not
    a mandatory-inlined one.  For a missing return that location is a
    function declaration or a closure, and the function itself is declared
    by a [FuncDecl] or a closure, never by a constructor or a destructor; a
    guard diagnostic is given at the end of the guard's body. *)
Theorem unreachable_diagnostics_provenance (StaticAssert : bool) (F : SILFunction)
    (d : Diagnostic) :
  In (Diagnose d) (runPass StaticAssert F).1 ->
  isMissingReturnDiag (diagID d) = true \/ diagID d = guard_body_must_not_fallthrough ->
  wasDeserializedCanonical F = false
  /\ exists I,
       In I (concat (getBlocks F))
       /\ instKind I = UnreachableInst
       /\ isNull (getLoc I) = false
       /\ isMandatoryInlinedLocation (getLoc I) = false
       /\ (isMissingReturnDiag (diagID d) = true
           /\ isAbstractFunctionDecl (getPrimaryASTNode (getLoc I))
              || isClosureExpr (getPrimaryASTNode (getLoc I)) = true
           /\ ((exists FD, getPrimaryASTNode (getLocation F) = FuncDeclNode FD)
               \/ (exists CE, getPrimaryASTNode (getLocation F) = ClosureExprNode CE))
           \/ exists Guard,
                getPrimaryASTNode (getLoc I) = GuardStmtNode Guard
                /\ d = mkDiagnostic (getBodyEndLoc Guard)
                         guard_body_must_not_fallthrough [] []).
Proof.
  intros HIn Hid.
  destruct (wasDeserializedCanonical F) eqn:EC.
  { unfold run in HIn. rewrite EC in HIn. destruct HIn. }
  split; [reflexivity |].
  rewrite run_unfold in HIn by exact EC.
  apply andThen_In in HIn as [HIn | HIn].
  - apply forEach_In in HIn as (I & HI & HIn). exists I. split; [exact HI |].
    apply andThen_In in HIn as [HIn | HIn]; [apply andThen_In in HIn as [HIn | HIn] |].
    + exact (diagnoseUnreachable_source F I d HIn).
    + exfalso. pose proof (diagnoseStaticReports_ids I) as Hall.
      rewrite List.Forall_forall in Hall.
      destruct (Hall _ HIn) as (d' & [= <-] & H). rewrite H in Hid.
      destruct Hid; discriminate.
    + exfalso. pose proof (diagnoseUnspecializedPolymorphicBuiltins_ids F I) as Hall.
      rewrite List.Forall_forall in Hall.
      destruct (Hall _ HIn) as (d' & [= <-] & H).
      destruct (diagID d); destruct Hid; discriminate.
  - exfalso. destruct StaticAssert; [| destruct HIn].
    apply forEach_In in HIn as (I & _ & HIn).
    pose proof (diagnosePoundAssert_ids I) as Hall.
    rewrite List.Forall_forall in Hall. specialize (Hall _ HIn). simpl in Hall.
    destruct (diagID d); destruct Hid; discriminate.
Qed.

(** *** Constructors *)

(** X22.  In a function declared by a constructor, an unreachable instruction
    whose location is valid, not mandatory-inlined, and a function
    declaration or a closure stops the pass at line 53 before anything is
    emitted for it; a run that returns has met no such instruction. *)
Theorem constructor_stops_the_pass (F : SILFunction) (CD : ConstructorDecl) :
  getPrimaryASTNode (getLocation F) = ConstructorDeclNode CD ->
  (forall I,
     instKind I = UnreachableInst ->
     isNull (getLoc I) = false ->
     isMandatoryInlinedLocation (getLoc I) = false ->
     isAbstractFunctionDecl (getPrimaryASTNode (getLoc I))
     || isClosureExpr (getPrimaryASTNode (getLoc I)) = true ->
     diagnoseUnreachable F I = fault NullDereference
     /\ (wasDeserializedCanonical F = false ->
         In I (concat (getBlocks F)) ->
         forall StaticAssert, (runPass StaticAssert F).2 <> None)).
Proof.
  intros HF I HK HN HM HL.
  assert (HU : diagnoseUnreachable F I = fault NullDereference).
  { unfold diagnoseUnreachable. rewrite HK, HN, HM, HL. simpl.
    unfold diagnoseMissingReturn, resultTypeAndBody. rewrite HF. reflexivity. }
  split; [exact HU |].
  intros EC HI StaticAssert Hdone.
  rewrite run_unfold in Hdone by exact EC.
  apply andThen_completes in Hdone as [Hdone _].
  rewrite forEach_completes in Hdone. specialize (Hdone I HI).
  apply andThen_completes in Hdone as [Hdone _].
  apply andThen_completes in Hdone as [Hdone _].
  rewrite HU in Hdone. discriminate.
Qed.

(** *** Counting diagnostics *)

Lemma count_none (P : Event -> bool) (Q : Event -> Prop) (es : list Event) :
  Forall Q es -> (forall e, Q e -> P e = false) -> length (List.filter P es) = 0.
Proof.
  intros Hall HQ. rewrite filter_none; [reflexivity |].
  eapply Forall_impl; [exact Hall | exact HQ].
Qed.

Lemma diagnoseStaticReports_count I :
  length (List.filter isStaticReportEvent (diagnoseStaticReports I).1)
  = if isFoldedStaticReport I then 1 else 0.
Proof.
  unfold diagnoseStaticReports, isFoldedStaticReport.
  destruct (instKind I) as [| BI |]; try reflexivity.
  destruct (decide (getBuiltinInfoID BI = StaticReport)) as [E | E].
  - rewrite bool_decide_eq_true_2 by exact E. simpl.
    destruct (getArguments BI) as [| V r]; [reflexivity |].
    destruct (getDef V) as [v | |]; try reflexivity.
    destruct (Z.eqb v 1); reflexivity.
  - rewrite bool_decide_eq_false_2 by exact E. reflexivity.
Qed.

Lemma diagnoseUnspecializedPolymorphicBuiltins_count F I :
  (diagnoseUnspecializedPolymorphicBuiltins isPolymorphicBuiltin getBuiltinName F I).2
  = None ->
  length (List.filter isPolymorphicBuiltinEvent
            (diagnoseUnspecializedPolymorphicBuiltins isPolymorphicBuiltin
               getBuiltinName F I).1)
  = if negb (isTransparent F) && isPolymorphicBuiltinInst isPolymorphicBuiltin I
    then 1 else 0.
Proof.
  unfold diagnoseUnspecializedPolymorphicBuiltins, isPolymorphicBuiltinInst.
  destruct (isTransparent F); [reflexivity |]. simpl.
  destruct (instKind I) as [| bi |]; try reflexivity.
  destruct (getBuiltinKind bi) as [kind |]; [| reflexivity].
  destruct (isPolymorphicBuiltin kind); [| reflexivity]. simpl.
  destruct (firstUnacceptableOperand _ _) as [[loc type] |]; [reflexivity |].
  destruct (overloadInfoInit bi) as [info |]; [| discriminate].
  destruct (doesOverloadExist info); [discriminate | reflexivity].
Qed.

Lemma filter_filter_false {A} (b : bool) (q : A -> bool) (l : list A) :
  length (List.filter (fun x => negb b && q x) l)
  = if b then 0 else length (List.filter q l).
Proof.
  destruct b; simpl; [| reflexivity].
  induction l; simpl; auto.
Qed.

Lemma firstLoopBody_events F I :
  (firstLoopBody F I).2 = None ->
  (firstLoopBody F I).1
  = (diagnoseUnreachable F I).1 ++ (diagnoseStaticReports I).1
    ++ (diagnoseUnspecializedPolymorphicBuiltins isPolymorphicBuiltin
          getBuiltinName F I).1
  /\ (diagnoseUnspecializedPolymorphicBuiltins isPolymorphicBuiltin
        getBuiltinName F I).2 = None.
Proof.
  intros H. apply andThen_completes in H as [H H3].
  pose proof H as H12. apply andThen_completes in H12 as [H1 H2].
  rewrite !andThen_events, H, H1, app_assoc. auto.
Qed.

Lemma run_events StaticAssert F es :
  wasDeserializedCanonical F = false ->
  runPass StaticAssert F = (es, None) ->
  (forEach (concat (getBlocks F)) (firstLoopBody F)).2 = None
  /\ es = (forEach (concat (getBlocks F)) (firstLoopBody F)).1
          ++ (if StaticAssert
              then forEach (concat (getBlocks F))
                     (diagnosePoundAssert computeConstantValues)
              else nothing).1.
Proof.
  intros EC Hrun. rewrite run_unfold in Hrun by exact EC.
  pose proof (f_equal snd Hrun) as Hdone. simpl in Hdone.
  apply andThen_completes in Hdone as [H1 _]. split; [exact H1 |].
  pose proof (f_equal fst Hrun) as Hes. simpl in Hes.
  rewrite andThen_events, H1 in Hes. by rewrite <- Hes.
Qed.

Lemma poundAssert_loop_ids (StaticAssert : bool) (F : SILFunction) :
  Forall (fun e => isPoundAssertEvent e = true)
    (if StaticAssert
     then forEach (concat (getBlocks F)) (diagnosePoundAssert computeConstantValues)
     else nothing).1.
Proof.
  destruct StaticAssert; [| constructor].
  apply forEach_Forall. intros I _. apply diagnosePoundAssert_ids.
Qed.

(** X23.  A run that returns has emitted one static-report error for each
    [StaticReport] builtin of the function whose first argument is the
    integer literal 1, and no other. *)
Theorem static_reports_counted (StaticAssert : bool) (F : SILFunction)
    (es : list Event) :
  runPass StaticAssert F = (es, None) ->
  length (List.filter isStaticReportEvent es)
  = if wasDeserializedCanonical F then 0
    else length (List.filter isFoldedStaticReport (concat (getBlocks F))).
Proof.
  destruct (wasDeserializedCanonical F) eqn:EC.
  { unfold run. rewrite EC. intros [= <-]. reflexivity. }
  intros Hrun. destruct (run_events _ _ _ EC Hrun) as [H1 ->].
  rewrite List.filter_app, length_app.
  rewrite (forEach_count isStaticReportEvent isFoldedStaticReport _ _ H1).
  - rewrite (count_none isStaticReportEvent _ _ (poundAssert_loop_ids StaticAssert F));
      [lia |].
    intros [d |]; simpl; [| reflexivity].
    intros H. apply bool_decide_eq_false_2. intros E. rewrite E in H. discriminate.
  - intros I _ HI. destruct (firstLoopBody_events F I HI) as [-> _].
    rewrite !List.filter_app, !length_app, diagnoseStaticReports_count.
    rewrite (count_none isStaticReportEvent _ _ (diagnoseUnreachable_ids F I)).
    2:{ intros e (d & -> & [H | H]); simpl; apply bool_decide_eq_false_2;
        intros E; rewrite E in H; discriminate. }
    rewrite (count_none isStaticReportEvent _ _
               (diagnoseUnspecializedPolymorphicBuiltins_ids F I)).
    2:{ intros e (d & -> & H); simpl; apply bool_decide_eq_false_2;
        intros E; rewrite E in H; discriminate. }
    lia.
Qed.

(** X24.  A run that returns has emitted one polymorphic-builtin error for each
    builtin of a polymorphic kind when the function is not transparent, and
    none when it is: no such builtin passes unreported. *)
Theorem polymorphic_builtins_all_diagnosed (StaticAssert : bool) (F : SILFunction)
    (es : list Event) :
  runPass StaticAssert F = (es, None) ->
  length (List.filter isPolymorphicBuiltinEvent es)
  = if wasDeserializedCanonical F || isTransparent F then 0
    else length (List.filter (isPolymorphicBuiltinInst isPolymorphicBuiltin)
                   (concat (getBlocks F))).
Proof.
  destruct (wasDeserializedCanonical F) eqn:EC.
  { unfold run. rewrite EC. intros [= <-]. reflexivity. }
  intros Hrun. destruct (run_events _ _ _ EC Hrun) as [H1 ->]. simpl.
  rewrite <- filter_filter_false.
  rewrite List.filter_app, length_app.
  rewrite (forEach_count isPolymorphicBuiltinEvent
             (fun I => negb (isTransparent F)
                       && isPolymorphicBuiltinInst isPolymorphicBuiltin I) _ _ H1).
  - rewrite (count_none isPolymorphicBuiltinEvent _ _
               (poundAssert_loop_ids StaticAssert F)); [lia |].
    intros [d |]; simpl; [| reflexivity]. by destruct (diagID d).
  - intros I _ HI. destruct (firstLoopBody_events F I HI) as [-> H3].
    rewrite !List.filter_app, !length_app.
    rewrite (diagnoseUnspecializedPolymorphicBuiltins_count F I H3).
    rewrite (count_none isPolymorphicBuiltinEvent _ _ (diagnoseUnreachable_ids F I)).
    2:{ intros e (d & -> & [H | H]); simpl; [by destruct (diagID d) | by rewrite H]. }
    rewrite (count_none isPolymorphicBuiltinEvent _ _ (diagnoseStaticReports_ids I)).
    2:{ intros e (d & -> & H); simpl. by rewrite H. }
    lia.
Qed.

(** *** Instructions the pass passes over *)

(** X25.  The pass returns without a diagnostic for a function that was
    deserialized canonical, and for one in which no instruction is a builtin
    and every unreachable has a null or a mandatory-inlined location, as the
    unreachables that passes generate and those inlined from transparent
    callees have. *)
Theorem quiet_function_is_silent (StaticAssert : bool) (F : SILFunction) :
  wasDeserializedCanonical F = true
  \/ Forall (fun I => isQuiet I = true) (concat (getBlocks F)) ->
  runPass StaticAssert F = nothing.
Proof.
  intros [EC | HQ]; [unfold run; by rewrite EC |].
  destruct (wasDeserializedCanonical F) eqn:EC; [unfold run; by rewrite EC |].
  rewrite run_unfold by exact EC. rewrite List.Forall_forall in HQ.
  assert (H2 : forEach (concat (getBlocks F))
                 (diagnosePoundAssert computeConstantValues) = nothing).
  { apply forEach_nothing. intros I HI. specialize (HQ I HI).
    unfold isQuiet in HQ. unfold diagnosePoundAssert.
    destruct (instKind I); [reflexivity | discriminate | reflexivity]. }
  rewrite forEach_nothing.
  - rewrite andThen_nothing_l. by destruct StaticAssert.
  - intros I HI. specialize (HQ I HI). unfold isQuiet in HQ.
    unfold diagnoseUnreachable, diagnoseStaticReports,
      diagnoseUnspecializedPolymorphicBuiltins.
    destruct (instKind I); [| discriminate |].
    + rewrite HQ. by destruct (isTransparent F).
    + by destruct (isTransparent F).
Qed.

End DataflowDiagnosticsProperties.

(** *** The pass on the sample function *)

Section DiagnosticsExamples.
Import DataflowDiagnostics.

Local Abbreviation sample_run :=
  (run DiagnosticsSample.isPolymorphicBuiltin DiagnosticsSample.getBuiltinName
     DiagnosticsSample.computeConstantValues).
Local Abbreviation missing_return_of_f :=
  (mkDiagnostic 31 missing_return_decl [TypeArg 7; KindArg 5] []).
Local Abbreviation failed_assertion :=
  (mkDiagnostic 21 pound_assert_failure [StringArg "assertion failed"] []).

(** The events of the sample, in order: the static report, the polymorphic
    builtin's error, the missing return with its note, and last the failed
    [#assert]. *)
Example run_of_F :
  sample_run true DiagnosticsSample.F =
  ([Diagnose (mkDiagnostic 20 static_report_error [] []);
    Diagnose (mkDiagnostic 22 polymorphic_builtin_passed_non_trivial_non_builtin_type
                [TypeArg 9] []);
    Diagnose missing_return_of_f;
    Diagnose (mkDiagnostic 31 missing_return_last_expr_note [] [(31, "return ")]);
    Diagnose failed_assertion],
   None).
Proof. reflexivity. Qed.

Lemma pound_assert_failure_has_message_witness :
  In (Diagnose failed_assertion) (sample_run true DiagnosticsSample.F).1
  /\ exists s, diagArgs failed_assertion = [StringArg s] /\ s <> EmptyString.
Proof.
  assert (HIn : In (Diagnose failed_assertion) (sample_run true DiagnosticsSample.F).1).
  { simpl. auto 10. }
  split; [exact HIn |].
  destruct (pound_assert_failure_has_message DiagnosticsSample.isPolymorphicBuiltin
              DiagnosticsSample.getBuiltinName DiagnosticsSample.computeConstantValues
              true DiagnosticsSample.F failed_assertion HIn eq_refl)
    as (_ & _ & _ & _ & H).
  exact H.
Defined.

Lemma missing_return_diagnostics_witness :
  diagnoseMissingReturn DiagnosticsSample.F DiagnosticsSample.fallOff
  = ([Diagnose missing_return_of_f;
      Diagnose (mkDiagnostic 31 missing_return_last_expr_note [] [(31, "return ")])],
     None)
  /\ exists d,
       fixIts d = []
       /\ (diagID d = missing_return_decl \/ diagID d = missing_never_call_decl)
       /\ (diagID d = missing_never_call_closure \/ diagID d = missing_never_call_decl ->
           isNoReturnFunction DiagnosticsSample.F = true).
Proof.
  split; [reflexivity |].
  destruct (missing_return_diagnostics DiagnosticsSample.F DiagnosticsSample.fallOff
              _ eq_refl) as (d & H1 & H2 & _ & H4).
  exists d. auto.
Defined.

Lemma unreachable_diagnostics_provenance_witness :
  In (Diagnose missing_return_of_f) (sample_run true DiagnosticsSample.F).1
  /\ exists I,
       In I (concat (getBlocks DiagnosticsSample.F))
       /\ instKind I = UnreachableInst
       /\ isNull (getLoc I) = false
       /\ isMandatoryInlinedLocation (getLoc I) = false.
Proof.
  assert (HIn : In (Diagnose missing_return_of_f)
                  (sample_run true DiagnosticsSample.F).1).
  { simpl. auto 10. }
  split; [exact HIn |].
  destruct (unreachable_diagnostics_provenance DiagnosticsSample.isPolymorphicBuiltin
              DiagnosticsSample.getBuiltinName DiagnosticsSample.computeConstantValues
              true DiagnosticsSample.F missing_return_of_f HIn (or_introl eq_refl))
    as (_ & I & H1 & H2 & H3 & H4 & _).
  exists I. auto.
Defined.

(** The initializer that falls off its end draws no diagnostic: the pass
    stops there. *)
Lemma constructor_stops_the_pass_witness :
  diagnoseUnreachable DiagnosticsSample.Init DiagnosticsSample.initFallOff
  = fault NullDereference
  /\ sample_run true DiagnosticsSample.Init = ([], Some NullDereference)
  /\ forall StaticAssert, (sample_run StaticAssert DiagnosticsSample.Init).2 <> None.
Proof.
  destruct (constructor_stops_the_pass DiagnosticsSample.isPolymorphicBuiltin
              DiagnosticsSample.getBuiltinName DiagnosticsSample.computeConstantValues
              DiagnosticsSample.Init (mkConstructorDecl (Some DiagnosticsSample.Int) 6)
              eq_refl DiagnosticsSample.initFallOff eq_refl eq_refl eq_refl eq_refl)
    as [H1 H2].
  split; [exact H1 |]. split; [reflexivity |].
  apply H2; [reflexivity | left; reflexivity].
Defined.

Lemma static_reports_counted_witness :
  exists es,
    sample_run true DiagnosticsSample.F = (es, None)
    /\ length (List.filter isStaticReportEvent es) = 1.
Proof.
  eexists. split; [reflexivity |].
  exact (static_reports_counted DiagnosticsSample.isPolymorphicBuiltin
           DiagnosticsSample.getBuiltinName DiagnosticsSample.computeConstantValues
           true DiagnosticsSample.F _ eq_refl).
Defined.

Lemma polymorphic_builtins_all_diagnosed_witness :
  exists es,
    sample_run true DiagnosticsSample.F = (es, None)
    /\ length (List.filter isPolymorphicBuiltinEvent es) = 1.
Proof.
  eexists. split; [reflexivity |].
  exact (polymorphic_builtins_all_diagnosed DiagnosticsSample.isPolymorphicBuiltin
           DiagnosticsSample.getBuiltinName DiagnosticsSample.computeConstantValues
           true DiagnosticsSample.F _ eq_refl).
Defined.

Lemma quiet_function_is_silent_witness :
  Forall (fun I => isQuiet I = true) (concat (getBlocks DiagnosticsSample.Generated))
  /\ sample_run true DiagnosticsSample.Generated = nothing.
Proof.
  assert (HQ : Forall (fun I => isQuiet I = true)
                 (concat (getBlocks DiagnosticsSample.Generated))).
  { repeat constructor. }
  split; [exact HQ |].
  exact (quiet_function_is_silent DiagnosticsSample.isPolymorphicBuiltin
           DiagnosticsSample.getBuiltinName DiagnosticsSample.computeConstantValues
           true DiagnosticsSample.Generated (or_intror HQ)).
Defined.

End DiagnosticsExamples.
